(** * Outline extraction: word grouping and heading classification

    A shallow embedding of [pdf_processor.py] (the word-to-block grouper)
    and [hierarchy_builder.py] (title extraction, heading detection, level
    assignment, final assembly), with the properties of the design
    document stated over it.

    Conventions of the embedding.
    - A Python [float] is an IEEE 754 double.  The coordinates and sizes
      that enter the program are finite doubles, each held as the exact
      rational it denotes ([Q]); comparisons, [min] and [max] are exact on
      them.  A number of type [Q] stands for itself: the double that the
      decimal [0.3] denotes is written [lit 0.3], and differs from the
      rational [0.3].  Every arithmetic operation returns the exact result
      rounded to the nearest double, ties to the even significand, or an
      infinity beyond the largest double ([Py.float]).  The sign of zero
      is not kept: the two files never divide by a computed value and
      never print a float.  [Binary64Facts] compares these operations with
      Rocq's primitive doubles.
    - Python [str] is [list ascii]; a character is a code point below 256
      and the character classes follow Python on that range.
    - A Python exception is a value [Raise e] of the [result] type; every
      subscript that can fail in Python can fail in the model.
    - [sklearn.cluster.KMeans] is an external library: it is a section
      variable, constrained only by its documented output shape. *)

From Stdlib Require Import String Ascii DecimalString Bool Arith ZArith QArith Qabs Qround Qpower List.
From Stdlib Require Import Lia Lqa Permutation Sorted SetoidList.
From Stdlib Require Floats.
Import ListNotations.

Set Implicit Arguments.

(* ===================================================================== *)
(** * Python primitives *)
(* ===================================================================== *)

Module Py.

Definition str := list ascii.

(** A string literal. *)
Definition s (lit : string) : str := list_ascii_of_string lit.

Inductive exn : Type :=
| KeyError (key : str)
| IndexError.

Inductive result (A : Type) : Type :=
| Ok (a : A)
| Raise (e : exn).
Arguments Ok {A} a.
Arguments Raise {A} e.

Definition bind {A B : Type} (m : result A) (k : A -> result B) : result B :=
  match m with
  | Ok a => k a
  | Raise e => Raise e
  end.

Declare Scope py_scope.
Delimit Scope py_scope with py.
Notation "x <- m ;; k" := (bind m (fun x => k))
  (at level 61, m at next level, right associativity) : py_scope.
Notation "' pat <- m ;; k" := (bind m (fun x => match x with pat => k end))
  (at level 61, pat pattern, m at next level, right associativity) : py_scope.
Local Open Scope py_scope.

(** [for x in xs: st = step(st, x)], stopping at the first exception. *)
Fixpoint foldM {A S : Type} (step : S -> A -> result S) (xs : list A) (st : S)
  : result S :=
  match xs with
  | [] => Ok st
  | x :: xs' => st' <- step st x ;; foldM step xs' st'
  end.

(** [[f(x) for x in xs]] where [f] may raise. *)
Fixpoint mapM {A B : Type} (f : A -> result B) (xs : list A) : result (list B) :=
  match xs with
  | [] => Ok []
  | x :: xs' => y <- f x ;; ys <- mapM f xs' ;; Ok (y :: ys)
  end.

(** [xs[0]] *)
Definition subscript0 {A : Type} (xs : list A) : result A :=
  match xs with
  | [] => Raise IndexError
  | x :: _ => Ok x
  end.

(** [xs[i]] for a non-negative [i] *)
Definition subscript {A : Type} (xs : list A) (i : nat) : result A :=
  match nth_error xs i with
  | Some x => Ok x
  | None => Raise IndexError
  end.

(** [xs[-1]] *)
Fixpoint subscript_last {A : Type} (xs : list A) : result A :=
  match xs with
  | [] => Raise IndexError
  | [x] => Ok x
  | _ :: xs' => subscript_last xs'
  end.

(** ** Rational comparisons *)

Definition Qltb (a b : Q) : bool := negb (Qle_bool b a).
Definition Qgtb (a b : Q) : bool := Qltb b a.

(** ** Sorting

    [sorted(xs, key=...)] and [list.sort(key=...)] are stable and compare
    keys with [<] only.  The result of a stable sort is determined by the
    input and the order, so insertion from the right is an exact model of
    the outcome: an element is placed before the first element whose key
    is not smaller than its own. *)

Section Sorting.
Variables (A K : Type) (key : A -> K) (lt : K -> K -> bool).

Fixpoint insert_sorted (x : A) (l : list A) : list A :=
  match l with
  | [] => [x]
  | y :: l' => if lt (key y) (key x) then y :: insert_sorted x l' else x :: l
  end.

Fixpoint sorted (l : list A) : list A :=
  match l with
  | [] => []
  | x :: l' => insert_sorted x (sorted l')
  end.

(** [x] may stand before [y]: the key of [y] is not smaller. *)
Definition le_by (x y : A) : Prop := lt (key y) (key x) = false.
End Sorting.

(** ** Double-precision floats *)

(** The integer nearest to [x], a half going to the even neighbour. *)
Definition round_half_even (x : Q) : Z :=
  let f := Qfloor x in
  let r := x - inject_Z f in
  if Qltb r (1 # 2) then f
  else if Qltb (1 # 2) r then (f + 1)%Z
  else if Z.even f then f else (f + 1)%Z.

(** [floor(log2(q))] for a positive [q]: the difference of the bit lengths
    of numerator and denominator, or one less. *)
Definition ilog2 (q : Q) : Z :=
  let e := (Z.log2 (Qnum q) - Z.log2 (Zpos (Qden q)))%Z in
  if Qle_bool (2 ^ e) q then e else (e - 1)%Z.

(** The spacing of the doubles around [q]: 52 binary places below the
    leading bit of [q], and [2^-1074] in the subnormal range. *)
Definition ulp (q : Q) : Q := 2 ^ (Z.max (ilog2 (Qabs q) - 52) (-1074)).

(** The multiple of [ulp q] nearest to [q], a tie going to the even
    multiple: the double nearest to [q] when that is finite. *)
Definition nearest (q : Q) : Q :=
  if Qeq_bool q 0 then 0
  else Qred (inject_Z (round_half_even (q / ulp q)) * ulp q).

(** The double a decimal literal of the source denotes. *)
Definition lit (q : Q) : Q := nearest q.

(** A float: a finite double by its exact value, an infinity, or NaN. *)
Inductive float : Type :=
| Fin (q : Q)
| Inf (negative : bool)
| NaN.

(** The result of an operation whose exact value is [q]. *)
Definition rnd (q : Q) : float :=
  let r := nearest q in
  if Qle_bool (2 ^ 1024) (Qabs r) then Inf (Qltb r 0) else Fin r.

(** [-a] *)
Definition fneg (a : float) : float :=
  match a with
  | Fin x => Fin (- x)
  | Inf sa => Inf (negb sa)
  | NaN => NaN
  end.

(** [abs(a)] *)
Definition fabs (a : float) : float :=
  match a with
  | Fin x => Fin (Qabs x)
  | Inf _ => Inf false
  | NaN => NaN
  end.

(** [a + b] *)
Definition fadd (a b : float) : float :=
  match a, b with
  | NaN, _ | _, NaN => NaN
  | Fin x, Fin y => rnd (x + y)
  | Fin _, Inf sb => Inf sb
  | Inf sa, Fin _ => Inf sa
  | Inf sa, Inf sb => if Bool.eqb sa sb then Inf sa else NaN
  end.

(** [a - b] *)
Definition fsub (a b : float) : float := fadd a (fneg b).

(** [a * b] *)
Definition fmul (a b : float) : float :=
  match a, b with
  | NaN, _ | _, NaN => NaN
  | Fin x, Fin y => rnd (x * y)
  | Fin x, Inf sb => if Qeq_bool x 0 then NaN else Inf (xorb (Qltb x 0) sb)
  | Inf sa, Fin y => if Qeq_bool y 0 then NaN else Inf (xorb sa (Qltb y 0))
  | Inf sa, Inf sb => Inf (xorb sa sb)
  end.

(** [a / d] for a finite divisor [d] other than zero (the source divides
    by the literal [2] only). *)
Definition fdiv (a : float) (d : Q) : float :=
  match a with
  | Fin x => rnd (x / d)
  | Inf sa => Inf (xorb sa (Qltb d 0))
  | NaN => NaN
  end.

(** [a < b]; every comparison with NaN is false. *)
Definition flt (a b : float) : bool :=
  match a, b with
  | NaN, _ | _, NaN => false
  | Fin x, Fin y => Qltb x y
  | Fin _, Inf sb => negb sb
  | Inf sa, Fin _ => sa
  | Inf sa, Inf sb => sa && negb sb
  end.

(** [a > b] *)
Definition fgt (a b : float) : bool := flt b a.

(** [a <= b] *)
Definition fle (a b : float) : bool :=
  match a, b with
  | NaN, _ | _, NaN => false
  | Fin x, Fin y => Qle_bool x y
  | Fin _, Inf sb => negb sb
  | Inf sa, Fin _ => sa
  | Inf sa, Inf sb => sa || negb sb
  end.

(** [max(xs, key=...)]: the first element whose key is maximal. *)
Fixpoint max_from {A : Type} (score : A -> float) (best : A) (xs : list A) : A :=
  match xs with
  | [] => best
  | x :: xs' => if fgt (score x) (score best) then max_from score x xs'
                else max_from score best xs'
  end.

(** Tuples of two keys compare lexicographically: the first components
    decide unless they are equal. *)
Definition pair_lt {A B : Type} (eqA ltA : A -> A -> bool) (ltB : B -> B -> bool)
  (p q : A * B) : bool :=
  if eqA (fst p) (fst q) then ltB (snd p) (snd q) else ltA (fst p) (fst q).

(** ** Characters and strings *)

Definition code (c : ascii) : nat := nat_of_ascii c.

Definition in_range (lo hi : nat) (c : ascii) : bool :=
  (lo <=? code c) && (code c <=? hi).

(** [c.isspace()], also the class [\s] *)
Definition isspace (c : ascii) : bool :=
  in_range 9 13 c || in_range 28 32 c || (code c =? 133) || (code c =? 160).

(** The class [\d]: decimal digits. *)
Definition isdecimal (c : ascii) : bool := in_range 48 57 c.

(** [c.isdigit()]: decimal digits and the superscript digits. *)
Definition isdigit_char (c : ascii) : bool :=
  isdecimal c || (code c =? 178) || (code c =? 179) || (code c =? 185).

Definition isupper_char (c : ascii) : bool :=
  in_range 65 90 c || in_range 192 214 c || in_range 216 222 c.

Definition islower_char (c : ascii) : bool :=
  in_range 97 122 c || (code c =? 170) || (code c =? 181) || (code c =? 186)
  || in_range 223 246 c || in_range 248 255 c.

Definition lower_char (c : ascii) : ascii :=
  if isupper_char c then ascii_of_nat (code c + 32) else c.

Definition lower (t : str) : str := map lower_char t.

Fixpoint dropwhile {A : Type} (p : A -> bool) (l : list A) : list A :=
  match l with
  | [] => []
  | x :: l' => if p x then dropwhile p l' else l
  end.

Definition lstrip (t : str) : str := dropwhile isspace t.
Definition rstrip (t : str) : str := rev (dropwhile isspace (rev t)).
Definition strip (t : str) : str := rstrip (lstrip t).

(** [t.split()]: the maximal runs of non-whitespace characters. *)
Fixpoint split_from (cur : str) (t : str) : list str :=
  match t with
  | [] => match cur with [] => [] | _ => [cur] end
  | c :: t' =>
      if isspace c
      then match cur with [] => split_from [] t' | _ => cur :: split_from [] t' end
      else split_from (cur ++ [c]) t'
  end.

Definition split (t : str) : list str := split_from [] t.

(** [sep.join(parts)] *)
Fixpoint join (sep : str) (parts : list str) : str :=
  match parts with
  | [] => []
  | [p] => p
  | p :: ps => p ++ sep ++ join sep ps
  end.

(** [t.isdigit()] *)
Definition isdigit (t : str) : bool :=
  match t with [] => false | _ => forallb isdigit_char t end.

(** [t.isupper()]: at least one cased character and no lowercase one. *)
Definition isupper (t : str) : bool :=
  existsb isupper_char t && negb (existsb islower_char t).

Fixpoint str_eqb (a b : str) : bool :=
  match a, b with
  | [], [] => true
  | x :: a', y :: b' => Ascii.eqb x y && str_eqb a' b'
  | _, _ => false
  end.

Fixpoint startswith (p t : str) : bool :=
  match p, t with
  | [], _ => true
  | x :: p', y :: t' => Ascii.eqb x y && startswith p' t'
  | _ :: _, [] => false
  end.

(** [p in t] for strings *)
Fixpoint contains (p t : str) : bool :=
  startswith p t ||
  match t with
  | [] => false
  | _ :: t' => contains p t'
  end.

(** [t.replace(a, b)] for single characters [a] and [b] *)
Definition replace_char (a b : ascii) (t : str) : str :=
  map (fun c => if Ascii.eqb c a then b else c) t.

Definition newline : ascii := ascii_of_nat 10.
Definition space : ascii := ascii_of_nat 32.

(** [round(x, 2)]: the value of [x] is rounded to the nearest hundredth,
    a half going to the even one, and the result is the double nearest to
    that decimal. *)
Definition hundredth (x : Q) : Q := inject_Z (round_half_even (x * 100)) / 100.

Definition round2 (x : Q) : Q := nearest (hundredth x).

(** [str(n)] for a natural number *)
Definition str_of_nat (n : nat) : str :=
  list_ascii_of_string (NilZero.string_of_uint (Nat.to_uint n)).

(** [d.get(k, default)] with a missing key as [None] *)
Definition get {A : Type} (o : option A) (default : A) : A :=
  match o with
  | Some x => x
  | None => default
  end.

(** [d[k]] with a missing key as [None] *)
Definition subscript_key {A : Type} (k : str) (o : option A) : result A :=
  match o with
  | Some x => Ok x
  | None => Raise (KeyError k)
  end.

(** A [dict] with float keys, in insertion order: assigning to a key that
    is already present replaces its value in place. *)
Fixpoint dict_set {V : Type} (d : list (Q * V)) (k : Q) (v : V) : list (Q * V) :=
  match d with
  | [] => [(k, v)]
  | (k', v') :: d' => if Qeq_bool k' k then (k', v) :: d' else (k', v') :: dict_set d' k v
  end.

Fixpoint dict_get {V : Type} (d : list (Q * V)) (k : Q) (default : V) : V :=
  match d with
  | [] => default
  | (k', v') :: d' => if Qeq_bool k' k then v' else dict_get d' k default
  end.

(** [enumerate(xs)] *)
Definition enumerate {A : Type} (xs : list A) : list (nat * A) :=
  combine (seq 0 (length xs)) xs.

End Py.

(* ===================================================================== *)
(** * The machine's doubles

    Rocq's primitive floats are IEEE 754 doubles.  Their values, and the
    operands on which the operations of [Py] are compared with the
    primitive ones. *)
(* ===================================================================== *)

Module Binary64.
Import Py.
Local Open Scope Q_scope.

(** The value of a primitive float. *)
Definition of_spec (x : SpecFloat.spec_float) : float :=
  match x with
  | SpecFloat.S754_zero _ => Fin 0
  | SpecFloat.S754_infinity sx => Inf sx
  | SpecFloat.S754_nan => NaN
  | SpecFloat.S754_finite sx m e =>
      Fin (Qred ((if sx then -1 else 1) * inject_Z (Zpos m) * 2 ^ e))
  end.

Definition of_prim (x : PrimFloat.float) : float := of_spec (FloatOps.Prim2SF x).

(** The primitive float that the decimal literal of value [n / d] denotes:
    the quotient of two integers that are doubles themselves. *)
Definition literal (nd : Z * Z) : PrimFloat.float :=
  PrimFloat.div (PrimFloat.of_uint63 (Uint63.of_Z (fst nd)))
                (PrimFloat.of_uint63 (Uint63.of_Z (snd nd))).

Definition decimals : list (Z * Z) :=
  [(0, 1); (3, 10); (23, 10); (9, 10); (29, 10); (16, 10); (8, 100); (92, 100);
   (15, 100); (12, 10); (724, 10); (2675, 1000); (50, 1); (14, 1); (113, 1); (612, 1)]%Z.

(** Further operands: some negative numbers, a number close to the largest
    double, a subnormal one, the infinities and NaN. *)
Definition samples : list PrimFloat.float :=
  map literal decimals
  ++ map (fun nd => PrimFloat.opp (literal nd)) [(3, 10); (29, 10); (612, 1)]%Z
  ++ [FloatOps.Z.ldexp (literal (4, 3)%Z) 1023; FloatOps.Z.ldexp (literal (1, 3)%Z) (-1070);
      PrimFloat.infinity; PrimFloat.neg_infinity; PrimFloat.nan].

Definition same (a b : float) : bool :=
  match a, b with
  | Fin x, Fin y => Qeq_bool x y
  | Inf sa, Inf sb => Bool.eqb sa sb
  | NaN, NaN => true
  | _, _ => false
  end.

Definition agree_on_pair (x y : PrimFloat.float) : bool :=
  same (of_prim (PrimFloat.add x y)) (fadd (of_prim x) (of_prim y))
  && same (of_prim (PrimFloat.sub x y)) (fsub (of_prim x) (of_prim y))
  && same (of_prim (PrimFloat.mul x y)) (fmul (of_prim x) (of_prim y))
  && Bool.eqb (PrimFloat.ltb x y) (flt (of_prim x) (of_prim y))
  && Bool.eqb (PrimFloat.leb x y) (fle (of_prim x) (of_prim y)).

Definition agree_on (x : PrimFloat.float) : bool :=
  same (of_prim (PrimFloat.div x (literal (2, 1)%Z))) (fdiv (of_prim x) 2)
  && same (of_prim (PrimFloat.abs x)) (fabs (of_prim x))
  && same (of_prim (PrimFloat.opp x)) (fneg (of_prim x)).

Definition agree_on_literal (nd : Z * Z) : bool :=
  same (of_prim (literal nd)) (Fin (lit (fst nd # Z.to_pos (snd nd)))).
End Binary64.

(* ===================================================================== *)
(** * Regular expressions

    The two patterns of [hierarchy_builder.py] only ask whether a match
    exists, so a language-level matcher by derivatives decides them. *)
(* ===================================================================== *)

Module Regex.
Import Py.

Inductive re : Type :=
| Void
| Eps
| Class (p : ascii -> bool)
| Cat (a b : re)
| Alt (a b : re)
| Star (a : re).

(** [r+], [r{n,}] and [r?] *)
Definition Plus (r : re) : re := Cat r (Star r).

Fixpoint AtLeast (n : nat) (r : re) : re :=
  match n with
  | O => Star r
  | S n' => Cat r (AtLeast n' r)
  end.

Definition Opt (r : re) : re := Alt r Eps.

Definition Any : re := Class (fun _ => true).
Definition Lit (c : ascii) : re := Class (Ascii.eqb c).

Fixpoint nullable (r : re) : bool :=
  match r with
  | Void => false
  | Eps => true
  | Class _ => false
  | Cat a b => nullable a && nullable b
  | Alt a b => nullable a || nullable b
  | Star _ => true
  end.

Fixpoint deriv (c : ascii) (r : re) : re :=
  match r with
  | Void => Void
  | Eps => Void
  | Class p => if p c then Eps else Void
  | Cat a b => if nullable a then Alt (Cat (deriv c a) b) (deriv c b)
               else Cat (deriv c a) b
  | Alt a b => Alt (deriv c a) (deriv c b)
  | Star a => Cat (deriv c a) (Star a)
  end.

(** The whole of [t] is in the language of [r]. *)
Fixpoint accepts (r : re) (t : str) : bool :=
  match t with
  | [] => nullable r
  | c :: t' => accepts (deriv c r) t'
  end.

(** [re.match(r, t)]: some prefix of [t] matches. *)
Definition re_match (r : re) (t : str) : bool := accepts (Cat r (Star Any)) t.

(** [re.search(r + "$", t)]: some substring matches and ends at the end of
    [t], or just before a newline that ends [t]. *)
Definition re_search_dollar (r : re) (t : str) : bool :=
  accepts (Cat (Star Any) (Cat r (Opt (Lit newline)))) t.

Inductive lang : re -> str -> Prop :=
| lang_eps : lang Eps []
| lang_class p c : p c = true -> lang (Class p) [c]
| lang_cat a b t1 t2 : lang a t1 -> lang b t2 -> lang (Cat a b) (t1 ++ t2)
| lang_alt_l a b t : lang a t -> lang (Alt a b) t
| lang_alt_r a b t : lang b t -> lang (Alt a b) t
| lang_star_nil a : lang (Star a) []
| lang_star_app a t1 t2 : lang a t1 -> lang (Star a) t2 -> lang (Star a) (t1 ++ t2).

End Regex.

(* ===================================================================== *)
(** * [pdf_processor.py]: grouping word fragments into blocks *)
(* ===================================================================== *)

Module PdfProcessor.
Import Py.
Local Open Scope py_scope.
Local Open Scope Q_scope.

(** A word as [page.extract_words] yields it; each number is the exact
    value of a finite double. *)
Record Word : Type := mkWord {
  w_text : str;
  w_x0 : Q;
  w_top : Q;
  w_x1 : Q;
  w_bottom : Q;
  w_fontname : str;
  w_size : Q
}.

Definition bbox_t : Type := (Q * Q * Q * Q)%type.

(** A text block.  [text] and [bbox] are read by subscript throughout
    [hierarchy_builder.py].  [font_name] and [font_size] are read only
    through [dict.get] with a default, and [page_num] through [dict.get]
    in [_extract_title] and by subscript in [_assign_heading_levels], so
    each of these three keys may be absent. *)
Record Block : Type := mkBlock {
  text : str;
  bbox : bbox_t;
  font_name : option str;
  font_size : option Q;
  page_num : option Z
}.

Definition bbox_x0 (b : bbox_t) : Q := fst (fst (fst b)).
Definition bbox_top (b : bbox_t) : Q := snd (fst (fst b)).
Definition bbox_x1 (b : bbox_t) : Q := snd (fst b).
Definition bbox_bottom (b : bbox_t) : Q := snd b.

(** [min] and [max] keep the first of equal values. *)
Definition py_min (x : Q) (xs : list Q) : Q :=
  fold_left (fun m y => if Qltb y m then y else m) xs x.
Definition py_max (x : Q) (xs : list Q) : Q :=
  fold_left (fun m y => if Qltb m y then y else m) xs x.

Definition _unify_bbox (bboxes : list bbox_t) : bbox_t :=
  match bboxes with
  | [] => (0, 0, 0, 0)
  | b :: bs =>
      (py_min (bbox_x0 b) (map bbox_x0 bs),
       py_min (bbox_top b) (map bbox_top bs),
       py_max (bbox_x1 b) (map bbox_x1 bs),
       py_max (bbox_bottom b) (map bbox_bottom bs))
  end.

(** The sort key [(w['top'], w['x0'])]. *)
Definition word_key (w : Word) : Q * Q := (w_top w, w_x0 w).
Definition word_key_lt : Q * Q -> Q * Q -> bool := pair_lt Qeq_bool Qltb Qltb.

Definition sort_words (words : list Word) : list Word :=
  sorted word_key word_key_lt words.

(** [sorted(current_line, key=lambda w: w['x0'])] *)
Definition sort_line (line : list Word) : list Word := sorted w_x0 Qltb line.

(** The test of the line loop: [abs(word['top'] - current_line[-1]['top']) < 2]. *)
Definition same_line (last word : Word) : bool :=
  flt (fabs (fsub (Fin (w_top word)) (Fin (w_top last)))) (Fin 2).

(** One iteration of the line loop; the state is [(lines, current_line)]. *)
Definition line_step (st : list (list Word) * list Word) (word : Word)
  : result (list (list Word) * list Word) :=
  let '(lines, current_line) := st in
  last <- subscript_last current_line ;;
  if same_line last word
  then Ok (lines, current_line ++ [word])
  else Ok (lines ++ [sort_line current_line], [word]).

Definition line_assembly (words : list Word) : result (list (list Word)) :=
  let sorted_words := sort_words words in
  first <- subscript0 sorted_words ;;
  ' (lines, current_line) <- foldM line_step (skipn 1 sorted_words) ([], [first]) ;;
  Ok (lines ++ [sort_line current_line]).

Definition block_text (current_block_lines : list (list Word)) : str :=
  join (s " ") (map (fun ln => join (s " ") (map w_text ln)) current_block_lines).

Definition word_bbox (w : Word) : bbox_t := (w_x0 w, w_top w, w_x1 w, w_bottom w).

(** The dictionary appended to [blocks] for the lines collected so far. *)
Definition make_block (current_block_lines : list (list Word)) (page : Z)
  : result Block :=
  let all_words_in_block := concat current_block_lines in
  let bboxes := map word_bbox all_words_in_block in
  first <- subscript0 all_words_in_block ;;
  Ok {| text := block_text current_block_lines;
        bbox := _unify_bbox bboxes;
        font_name := Some (w_fontname first);
        font_size := Some (round2 (w_size first));
        page_num := Some page |}.

Definition is_new_block (prev0 line0 : Word) : bool :=
  let vertical_gap := fsub (Fin (w_top line0)) (Fin (w_top prev0)) in
  let font_name_match := str_eqb (w_fontname line0) (w_fontname prev0) in
  let font_size_match :=
    flt (fabs (fsub (Fin (w_size line0)) (Fin (w_size prev0)))) (Fin 1) in
  fgt vertical_gap (fmul (Fin (w_size prev0)) (Fin (lit 1.6)))
  || negb font_name_match || negb font_size_match.

(** One iteration of the block loop; the state is
    [(blocks, current_block_lines)]. *)
Definition block_step (page : Z) (st : list Block * list (list Word))
  (line : list Word) : result (list Block * list (list Word)) :=
  let '(blocks, current_block_lines) := st in
  prev_line <- subscript_last current_block_lines ;;
  line0 <- subscript0 line ;;
  prev0 <- subscript0 prev_line ;;
  if is_new_block prev0 line0
  then b <- make_block current_block_lines page ;;
       Ok (blocks ++ [b], [line])
  else Ok (blocks, current_block_lines ++ [line]).

Definition block_assembly (lines : list (list Word)) (page : Z)
  : result (list Block) :=
  match lines with
  | [] => Ok []
  | first :: rest =>
      ' (blocks, current_block_lines) <- foldM (block_step page) rest ([], [first]) ;;
      b <- make_block current_block_lines page ;;
      Ok (blocks ++ [b])
  end.

Definition _group_words_into_blocks (words : list Word) (page : Z)
  : result (list Block) :=
  match words with
  | [] => Ok []
  | _ => lines <- line_assembly words ;; block_assembly lines page
  end.

End PdfProcessor.

(* ===================================================================== *)
(** * [hierarchy_builder.py]: title, heading candidates, levels *)
(* ===================================================================== *)

Module HierarchyBuilder.
Import Py Regex PdfProcessor.
Local Open Scope py_scope.
Local Open Scope Q_scope.

(** A page of [processed_pages]; [build] reads every key but the page
    number with [dict.get] and a default. *)
Record Page : Type := mkPage {
  pg_page_num : Z;
  width : option Q;
  height : option Q;
  text_blocks : option (list Block)
}.

(** The dictionary built by [_get_block_features]. *)
Record Features : Type := mkFeatures {
  f_text : str;
  f_font_size : Q;
  is_bold : bool;
  is_all_caps : bool;
  starts_with_number : bool;
  is_centered : bool;
  word_count : nat;
  is_toc : bool;
  original_block : Block
}.

(** An outline item; the key ["y_pos"] may be absent. *)
Record Entry : Type := mkEntry {
  level : str;
  e_text : str;
  page : Z;
  y_pos : option Q
}.

Record OutlineResult : Type := mkResult {
  title : str;
  outline : list Entry
}.

Definition _is_header_or_footer (block : Block) (page_height : Q) : bool :=
  let y_pos := Fin (bbox_top (bbox block)) in
  flt y_pos (fmul (Fin page_height) (Fin (lit 0.08)))
  || fgt y_pos (fmul (Fin page_height) (Fin (lit 0.92))).

(** [\.{4,}\s*\d+\s*] (the pattern ends with [$]) *)
Definition toc_pattern : re :=
  Cat (AtLeast 4 (Lit "."))
      (Cat (Star (Class isspace))
           (Cat (Plus (Class isdecimal)) (Star (Class isspace)))).

Definition _is_toc_entry (t : str) : bool := re_search_dollar toc_pattern t.

(** [^\d+(\.\d+)*\s+] *)
Definition outline_number_pattern : re :=
  Cat (Plus (Class isdecimal))
      (Cat (Star (Cat (Lit ".") (Plus (Class isdecimal))))
           (Plus (Class isspace))).

Definition is_empty (t : str) : bool :=
  match t with
  | [] => true
  | _ => false
  end.

Definition _get_block_features (block : Block) (page_width : Q) : Features :=
  let t := strip (text block) in
  let x0 := bbox_x0 (bbox block) in
  let x1 := bbox_x1 (bbox block) in
  let wc := length (split t) in
  let name := lower (get (font_name block) []) in
  {| f_text := t;
     f_font_size := get (font_size block) 0;
     is_bold := contains (s "bold") name || contains (s "black") name;
     is_all_caps := isupper t && (0 <? wc)%nat;
     starts_with_number := re_match outline_number_pattern t;
     is_centered :=
       flt (fabs (fsub (fdiv (fadd (Fin x0) (Fin x1)) 2) (fdiv (Fin page_width) 2)))
           (fmul (Fin page_width) (Fin (lit 0.15)));
     word_count := wc;
     is_toc := _is_toc_entry t;
     original_block := block |}.

(** The first test of [_is_potential_heading]. *)
Definition disqualified (features : Features) : bool :=
  is_empty (f_text features) || (20 <? word_count features)%nat
  || is_toc features || isdigit (f_text features).

Definition _is_potential_heading (features : Features) : bool :=
  if disqualified features then false
  else if Qgtb (f_font_size features) 14 && (word_count features <? 15)%nat then true
  else if starts_with_number features && (word_count features <? 15)%nat then true
  else if is_bold features && (word_count features <? 15)%nat then true
  else if is_all_caps features && Qgtb (f_font_size features) 11
          && (word_count features <? 15)%nat then true
  else false.

(** The score of a title candidate. *)
Definition title_score (features : Features) : float :=
  let score := Fin (f_font_size features) in
  let score := if is_centered features then fmul score (Fin (lit 1.5)) else score in
  let score := if is_bold features then fmul score (Fin (lit 1.2)) else score in
  score.

(** One iteration of the loop of [_extract_title] over [candidates]. *)
Definition title_step (page_width : Q) (candidates : list (float * str)) (block : Block)
  : list (float * str) :=
  if Qgtb (bbox_top (bbox block)) 400 then candidates
  else
    let features := _get_block_features block page_width in
    if is_empty (f_text features) || (25 <? word_count features)%nat then candidates
    else candidates ++ [(title_score features, f_text features)].

(** [b.get('page_num', 1) == 1 and b['text'].strip()] *)
Definition on_first_page (b : Block) : bool :=
  (get (page_num b) 1 =? 1)%Z && negb (is_empty (strip (text b))).

Definition _extract_title (blocks : list Block) (page_width : Q) : str :=
  let first_page_blocks := filter on_first_page blocks in
  match first_page_blocks with
  | [] => s "Untitled Document"
  | _ =>
      let candidates := fold_left (title_step page_width) first_page_blocks [] in
      match candidates with
      | [] => s "Untitled Document"
      | c :: cs => snd (max_from fst c cs)
      end
  end.

(** [np.unique]: the distinct values, ascending. *)
Fixpoint dedup_sorted (xs : list Q) : list Q :=
  match xs with
  | [] => []
  | x :: xs' =>
      match xs' with
      | [] => [x]
      | y :: _ => if Qeq_bool x y then dedup_sorted xs' else x :: dedup_sorted xs'
      end
  end.

Definition np_unique (xs : list Q) : list Q :=
  dedup_sorted (sorted (fun x => x) Qltb xs).

(** [f"H{n}"] *)
Definition fmt_level (n : nat) : str := s "H" ++ str_of_nat n.

(** What a fitted [KMeans] exposes: [cluster_centers_] (one feature, so a
    center is a number) and [labels_]. *)
Record KMeansModel : Type := mkKMeans {
  cluster_centers_ : list Q;
  labels_ : list nat
}.

Section WithKMeans.

(** [KMeans(n_clusters=k, random_state=42, n_init='auto').fit(X)] *)
Variable KMeans_fit : nat -> list Q -> KMeansModel.

(** [{center: f"H{i+1}" for i, center in enumerate(cluster_centers)}] *)
Definition size_to_level_of (cluster_centers : list Q) : list (Q * str) :=
  fold_left (fun d ic => dict_set d (snd ic) (fmt_level (fst ic + 1)))
            (enumerate cluster_centers) [].

(** The body of the loop of [_assign_heading_levels] for candidate [i]. *)
Definition leveled_entry (kmeans : KMeansModel) (size_to_level : list (Q * str))
  (n_clusters : nat) (ifeatures : nat * Features) : result Entry :=
  let '(i, features) := ifeatures in
  cluster_label <- subscript (labels_ kmeans) i ;;
  cluster_center <- subscript (cluster_centers_ kmeans) cluster_label ;;
  let lvl := dict_get size_to_level cluster_center (fmt_level n_clusters) in
  let block := original_block features in
  block_page <- subscript_key (s "page_num") (page_num block) ;;
  Ok {| level := lvl;
        e_text := f_text features;
        page := block_page;
        y_pos := Some (bbox_top (bbox block)) |}.

Definition _assign_heading_levels (heading_candidates : list Features)
  : result (list Entry) :=
  match heading_candidates with
  | [] => Ok []
  | [h] =>
      let block := original_block h in
      block_page <- subscript_key (s "page_num") (page_num block) ;;
      Ok [ {| level := s "H1"; e_text := f_text h; page := block_page;
              y_pos := None |} ]
  | _ =>
      let font_sizes := map f_font_size heading_candidates in
      let unique_sizes := np_unique font_sizes in
      let n_clusters := Nat.min (length unique_sizes) 3 in
      if (n_clusters =? 0)%nat then Ok []
      else
        let kmeans := KMeans_fit n_clusters font_sizes in
        let cluster_centers := sorted (fun x => x) Qgtb (cluster_centers_ kmeans) in
        let size_to_level := size_to_level_of cluster_centers in
        mapM (leveled_entry kmeans size_to_level n_clusters)
             (enumerate heading_candidates)
  end.

(** The key of the final sort, [(x['page'], x['y_pos'])]. *)
Definition outline_key (x : Entry) : result (Z * Q) :=
  match y_pos x with
  | Some y => Ok (page x, y)
  | None => Raise (KeyError (s "y_pos"))
  end.

Definition outline_key_lt : Z * Q -> Z * Q -> bool := pair_lt Z.eqb Z.ltb Qltb.

(** [outline.sort(key=...)]: the key of every item is computed first. *)
Definition sort_outline (items : list Entry) : result (list Entry) :=
  keys <- mapM outline_key items ;;
  Ok (map snd (sorted fst outline_key_lt (combine keys items))).

(** [del item['y_pos']] *)
Definition del_y_pos (item : Entry) : result Entry :=
  match y_pos item with
  | Some _ => Ok {| level := level item; e_text := e_text item; page := page item;
                    y_pos := None |}
  | None => Raise (KeyError (s "y_pos"))
  end.

Definition all_blocks_of (processed_pages : list Page) : list Block :=
  flat_map (fun pg => get (text_blocks pg) []) processed_pages.

Definition core_content_blocks_of (processed_pages : list Page) (page0 : Page)
  : list Block :=
  filter (fun b => negb (_is_header_or_footer b (get (height page0) 842)))
         (all_blocks_of processed_pages).

(** The candidates that reach [_assign_heading_levels]. *)
Definition heading_candidates_of (core : list Block) (page_width : Q) (ttl : str)
  : list Features :=
  let block_features := map (fun b => _get_block_features b page_width) core in
  let heading_candidates := filter _is_potential_heading block_features in
  filter (fun h => negb (str_eqb (f_text h) ttl)) heading_candidates.

Definition build (processed_pages : list Page) : result OutlineResult :=
  match processed_pages with
  | [] => Ok {| title := s "No Content Found"; outline := [] |}
  | page0 :: _ =>
      let page_width := get (width page0) 595 in
      let core_content_blocks := core_content_blocks_of processed_pages page0 in
      let ttl := _extract_title core_content_blocks page_width in
      let heading_candidates := heading_candidates_of core_content_blocks page_width ttl in
      outline <- _assign_heading_levels heading_candidates ;;
      outline <- sort_outline outline ;;
      outline <- mapM del_y_pos outline ;;
      Ok {| title := strip (replace_char newline space ttl); outline := outline |}
  end.

End WithKMeans.

End HierarchyBuilder.

(* ===================================================================== *)
(** * [process_pdf] and [process_single_pdf]: the callers of the core

    [pdfplumber], the file system, the clock and the loggers are outside
    the repository.  A PDF is what [pdfplumber.open] gives: [None] when
    opening raises, else its pages, each with its size and with the
    outcome of [page.extract_words(...)] ([None] when it raises).  Log
    lines and timing are left out. *)
(* ===================================================================== *)

Module Pipeline.
Import Py PdfProcessor HierarchyBuilder.
Local Open Scope py_scope.
Local Open Scope Q_scope.

Record PdfPage : Type := mkPdfPage {
  pdf_width : Q;
  pdf_height : Q;
  extract_words : option (list Word)
}.

(** The body of the loop of [process_pdf] for the page with index [i];
    [None] stands for an exception, whichever it is. *)
Definition process_page (ipage : nat * PdfPage) : option Page :=
  let '(i, page) := ipage in
  let page_number := (Z.of_nat i + 1)%Z in
  match extract_words page with
  | None => None
  | Some words =>
      match _group_words_into_blocks words page_number with
      | Raise _ => None
      | Ok blocks =>
          Some {| pg_page_num := page_number;
                  width := Some (pdf_width page);
                  height := Some (pdf_height page);
                  text_blocks := Some blocks |}
      end
  end.

(** The loop over the pages, abandoned at the first exception. *)
Fixpoint process_pages (ipages : list (nat * PdfPage)) : option (list Page) :=
  match ipages with
  | [] => Some []
  | ipage :: rest =>
      match process_page ipage with
      | None => None
      | Some pg =>
          match process_pages rest with
          | None => None
          | Some pgs => Some (pg :: pgs)
          end
      end
  end.

(** [process_pdf]: [except Exception] turns every failure into [[]]. *)
Definition process_pdf (opened : option (list PdfPage)) : list Page :=
  match opened with
  | None => []
  | Some pages =>
      match process_pages (enumerate pages) with
      | Some pages_data => pages_data
      | None => []
      end
  end.

(** [process_single_pdf]: the returned flag and what was dumped to the
    output file, if anything.  [can_write] tells whether the output file
    can be opened and written. *)
Definition process_single_pdf (KMeans_fit : nat -> list Q -> KMeansModel)
  (opened : option (list PdfPage)) (can_write : bool)
  : bool * option OutlineResult :=
  match process_pdf opened with
  | [] => (false, None)
  | processed_pages =>
      match build KMeans_fit processed_pages with
      | Raise _ => (false, None)
      | Ok result => if can_write then (true, Some result) else (false, None)
      end
  end.

End Pipeline.

(* ===================================================================== *)
(** * Notions used to state the grouper's properties *)
(* ===================================================================== *)

Module GrouperSpec.
Import Py PdfProcessor.
Local Open Scope py_scope.
Local Open Scope Q_scope.

(** The distance between the tops of two fragments as double arithmetic
    gives it: the difference, rounded to the nearest double, without its
    sign. *)
Definition top_distance (a b : Word) : float :=
  fabs (fsub (Fin (w_top b)) (Fin (w_top a))).

(** Two fragments whose tops are less than 2 units apart, and two whose
    tops are 2 units or more apart, by that distance. *)
Definition near (a b : Word) : Prop := flt (top_distance a b) (Fin 2) = true.
Definition apart (a b : Word) : Prop := fle (Fin 2) (top_distance a b) = true.

(** [l1] ends with a fragment and [l2] begins with one whose top is 2
    units or more away from it. *)
Definition line_boundary (l1 l2 : list Word) : Prop :=
  exists p a b q, l1 = p ++ [a] /\ l2 = b :: q /\ apart a b.

(** The order of the sort key [(top, x0)]. *)
Definition word_le (a b : Word) : Prop :=
  w_top a < w_top b \/ (w_top a == w_top b /\ w_x0 a <= w_x0 b).

(** The rule as the design document words it: the fragment is compared
    with the FIRST fragment of the current line. *)
Definition line_step_first_anchor (st : list (list Word) * list Word) (word : Word)
  : result (list (list Word) * list Word) :=
  let '(lines, current_line) := st in
  first <- subscript0 current_line ;;
  if same_line first word
  then Ok (lines, current_line ++ [word])
  else Ok (lines ++ [sort_line current_line], [word]).

Definition line_assembly_first_anchor (words : list Word)
  : result (list (list Word)) :=
  let sorted_words := sort_words words in
  first <- subscript0 sorted_words ;;
  ' (lines, current_line) <-
      foldM line_step_first_anchor (skipn 1 sorted_words) ([], [first]) ;;
  Ok (lines ++ [sort_line current_line]).

(** Three fragments whose tops drift by 1.5 units each. *)
Definition drift_word (t : string) (x y : Q) : Word :=
  mkWord (s t) x y (x + 8) (y + 10) (s "Helvetica") 10.

Definition drift_words : list Word :=
  [drift_word "a" 0 0; drift_word "b" 10 1.5; drift_word "c" 20 3].

(** Three fragments whose tops are the doubles of 0.3, 2.3 and 4.3: the
    double difference of the first two is just below 2, that of the last
    two is 2. *)
Definition stepped_words : list Word :=
  [drift_word "a" 0 (lit 0.3); drift_word "b" 10 (lit 2.3); drift_word "c" 20 (lit 4.3)].

(** The fragment's text is a piece of the block's text. *)
Definition occurs_in (piece whole : str) : Prop :=
  exists pre post, whole = pre ++ piece ++ post.

End GrouperSpec.

(* ===================================================================== *)
(** * Notions used to state the classifier's properties *)
(* ===================================================================== *)

Module OutlineSpec.
Import Py Regex PdfProcessor HierarchyBuilder.
Local Open Scope py_scope.
Local Open Scope Q_scope.

(** The prefix that [outline_number_pattern] accepts: a run of decimal
    digits, then any number of groups of a dot and a run of digits, then
    a run of whitespace. *)
Definition numbered_prefix (t : str) : Prop :=
  exists digits groups spaces rest,
    t = digits ++ concat (map (fun g => "."%char :: g) groups) ++ spaces ++ rest /\
    digits <> [] /\ Forall (fun c => isdecimal c = true) digits /\
    Forall (fun g => g <> [] /\ Forall (fun c => isdecimal c = true) g) groups /\
    spaces <> [] /\ Forall (fun c => isspace c = true) spaces.

Definition plain_block (t : string) (sz : Q) : Block :=
  mkBlock (s t) (72, 300, 200, 312) (Some (s "Helvetica")) (Some sz) (Some 1%Z).

(** The block is on page 1; a block without a page number counts as
    being there. *)
Definition on_page_1 (b : Block) : bool :=
  match page_num b with
  | Some n => (n =? 1)%Z
  | None => true
  end.

(** The blocks the title is chosen from: on page 1, with non-empty trimmed
    text, top at most 400, and at most 25 words. *)
Definition is_title_candidate (b : Block) : bool :=
  on_page_1 b
  && negb (is_empty (strip (text b)))
  && Qle_bool (bbox_top (bbox b)) 400
  && (length (split (strip (text b))) <=? 25)%nat.

(** The top of the block lies in neither the top 8% nor the bottom 8% of
    a page of height [h], the two bounds being the double products
    [h * 0.08] and [h * 0.92]. *)
Definition content_zone (h : Q) (b : Block) : bool :=
  fle (fmul (Fin h) (Fin (lit 0.08))) (Fin (bbox_top (bbox b)))
  && fle (Fin (bbox_top (bbox b))) (fmul (Fin h) (Fin (lit 0.92))).

(** The blocks of all pages in order; a page without the key
    ["text_blocks"] has none. *)
Definition blocks_of_pages (pages : list Page) : list Block :=
  concat (map (fun pg => match text_blocks pg with Some bs => bs | None => [] end)
              pages).

(** The horizontal center of the block is within 15% of the page width of
    the center of the page, every operation being the double one. *)
Definition centered (b : Block) (page_width : Q) : Prop :=
  let block_center := fdiv (fadd (Fin (bbox_x0 (bbox b))) (Fin (bbox_x1 (bbox b)))) 2 in
  let page_center := fdiv (Fin page_width) 2 in
  flt (fabs (fsub block_center page_center)) (fmul (Fin page_width) (Fin (lit 0.15)))
  = true.

(** The font name of the block holds "bold" or "black", in any case. *)
Definition bold_font (b : Block) : Prop :=
  exists name, font_name b = Some name /\
               (contains (s "bold") (lower name) = true \/
                contains (s "black") (lower name) = true).

(** The score as the design document words it: the font size, times 1.5
    when the block is centered, then times 1.2 when it is bold, each
    product rounded to the nearest double. *)
Definition score_of (b : Block) (page_width : Q) : float :=
  let f := _get_block_features b page_width in
  let size := Fin (f_font_size f) in
  match is_centered f, is_bold f with
  | false, false => size
  | true, false => fmul size (Fin (lit 1.5))
  | false, true => fmul size (Fin (lit 1.2))
  | true, true => fmul (fmul size (Fin (lit 1.5))) (Fin (lit 1.2))
  end.

(** [a] is strictly below [b], and [a] is at most [b], for floats. *)
Definition below (a b : float) : Prop := flt a b = true.
Definition at_most (a b : float) : Prop := fle a b = true.

(** Neither end of the string is whitespace. *)
Definition trimmed (t : str) : Prop :=
  match t with [] => True | c :: _ => isspace c = false end /\
  match rev t with [] => True | c :: _ => isspace c = false end.

Definition title_pair (page_width : Q) (b : Block) : float * str :=
  let f := _get_block_features b page_width in (title_score f, f_text f).

(** The place of [c] among the centers in descending order, counted from
    1: the number of centers that are not smaller than [c]. *)
Definition rank_desc (centers : list Q) (c : Q) : nat :=
  length (filter (fun c' => Qle_bool c c') centers).

(** The documented shape of a fitted model for [k] clusters and [n]
    samples: [k] centers and, for every sample, a label below [k]. *)
Definition well_shaped (model : KMeansModel) (k n : nat) : Prop :=
  length (cluster_centers_ model) = k /\
  length (labels_ model) = n /\
  Forall (fun lbl => (lbl < k)%nat) (labels_ model).

(** Every sample lies on the center of its cluster. *)
Definition fits_exactly (model : KMeansModel) (xs : list Q) : Prop :=
  Forall2 (fun x lbl => exists c, nth_error (cluster_centers_ model) lbl = Some c /\ c == x)
          xs (labels_ model).

(** What the loop of [_assign_heading_levels] gives candidate [i]. *)
Definition leveled_as (model : KMeansModel) (ih : nat * Features) (e : Entry) : Prop :=
  exists lbl c,
    nth_error (labels_ model) (fst ih) = Some lbl /\
    nth_error (cluster_centers_ model) lbl = Some c /\
    level e = fmt_level (rank_desc (cluster_centers_ model) c) /\
    e_text e = f_text (snd ih) /\
    page_num (original_block (snd ih)) = Some (page e) /\
    y_pos e = Some (bbox_top (bbox (original_block (snd ih)))).

(** The candidate's block carries the key ["page_num"]. *)
Definition has_page (h : Features) : Prop := page_num (original_block h) <> None.

(** A clustering with the documented shape, for concrete runs: the
    centers are the first [k] distinct values in ascending order and every
    sample is labelled with the nearest center (the first one on a tie). *)
Fixpoint argmin_from (x : Q) (best : nat) (best_d : Q) (i : nat) (cs : list Q) : nat :=
  match cs with
  | [] => best
  | c :: cs' =>
      if Qltb (Qabs (x - c)) best_d
      then argmin_from x i (Qabs (x - c)) (S i) cs'
      else argmin_from x best best_d (S i) cs'
  end.

Definition nearest_center (cs : list Q) (x : Q) : nat :=
  match cs with
  | [] => 0%nat
  | c :: cs' => argmin_from x 0 (Qabs (x - c)) 1 cs'
  end.

Definition reference_fit (k : nat) (xs : list Q) : KMeansModel :=
  let cs := firstn k (np_unique xs) in
  {| cluster_centers_ := cs; labels_ := map (nearest_center cs) xs |}.

Definition sized (t : string) (sz : Q) (y : Q) : Features :=
  _get_block_features
    (mkBlock (s t) (72, y, 300, y + sz) (Some (s "Helvetica")) (Some sz) (Some 2%Z)) 595.

(** The blocks outside the header and footer zones, and the title as
    [_extract_title] returns it, before newlines are replaced. *)
Definition core_of (pages : list Page) : list Block :=
  match pages with
  | [] => []
  | page0 :: _ => core_content_blocks_of pages page0
  end.

Definition page_width_of (pages : list Page) : Q :=
  match pages with
  | [] => 595
  | page0 :: _ => get (width page0) 595
  end.

Definition extracted_title (pages : list Page) : str :=
  _extract_title (core_of pages) (page_width_of pages).

Definition candidates_of (pages : list Page) : list Features :=
  heading_candidates_of (core_of pages) (page_width_of pages) (extracted_title pages).

(** An item after [del item['y_pos']]. *)
Definition without_y_pos (x : Entry) : Entry :=
  {| level := level x; e_text := e_text x; page := page x; y_pos := None |}.

(** Reading order of the sort key [(page, y_pos)]. *)
Definition reading_order_le (p q : Z * Q) : Prop :=
  (fst p < fst q)%Z \/ (fst p = fst q /\ snd p <= snd q).

(** The entry [e] was made of the candidate [h]: it carries the
    candidate's text, the page of the candidate's block and, as
    ["y_pos"], the top of that block. *)
Definition made_of (h : Features) (e : Entry) : Prop :=
  e_text e = f_text h /\
  page_num (original_block h) = Some (page e) /\
  y_pos e = Some (bbox_top (bbox (original_block h))).

(** [e1] may stand before [e2]: both hold ["y_pos"], and the page and
    ["y_pos"] of [e1] come first in reading order. *)
Definition reads_before (e1 e2 : Entry) : Prop :=
  exists y1 y2, y_pos e1 = Some y1 /\ y_pos e2 = Some y2 /\
                reading_order_le (page e1, y1) (page e2, y2).

Definition has_newline (t : str) : bool := existsb (Ascii.eqb newline) t.

(** A page of 595 by 842 units with the given blocks. *)
Definition a4 (blocks : list Block) : Page :=
  mkPage 1 (Some 595) (Some 842) (Some blocks).

Definition block_at (t : string) (y : Q) (font : string) (sz : Q) : Block :=
  mkBlock (s t) (200, y, 400, y + sz) (Some (s font)) (Some sz) (Some 1%Z).

(** A title and one further heading. *)
Definition single_heading_pages : list Page :=
  [a4 [block_at "Annual Report" 100 "Helvetica" 24;
       block_at "Chapter One" 200 "Helvetica-Bold" 16;
       block_at "The year went well for all of us." 240 "Helvetica" 10]].

(** A title, one numbered heading and a paragraph. *)
Definition lone_heading_pages : list Page :=
  [a4 [block_at "Quarterly Review" 100 "Helvetica" 22;
       block_at "1.2 Scope" 180 "Helvetica" 12;
       block_at "Nothing else on this page is a heading." 220 "Helvetica" 10]].

(** A title and two further headings, the lower one listed first. *)
Definition two_heading_page : Page :=
  a4 [block_at "Annual Report" 100 "Helvetica" 24;
      block_at "Summary" 300 "Helvetica-Bold" 12;
      block_at "Chapter One" 200 "Helvetica-Bold" 16;
      block_at "The year went well for all of us." 240 "Helvetica" 10].

Definition two_heading_pages : list Page := [two_heading_page].

Definition two_heading_result : OutlineResult :=
  {| title := s "Annual Report";
     outline := [ mkEntry (s "H1") (s "Chapter One") 1 None;
                  mkEntry (s "H2") (s "Summary") 1 None ] |}.

(** A title spread over two lines of one block, and a heading that
    repeats it on one line. *)
Definition newline_title_pages : list Page :=
  [a4 [mkBlock (s "Annual" ++ [newline] ++ s "Report") (200, 100, 400, 150)
               (Some (s "Helvetica")) (Some 30) (Some 1%Z);
       block_at "Annual Report" 200 "Helvetica" 20;
       block_at "Chapter One" 300 "Helvetica-Bold" 16]].

End OutlineSpec.

(* ===================================================================== *)
(** * Further notions, for the properties beyond the design document *)
(* ===================================================================== *)

Module ExtraSpec.
Import Py Regex PdfProcessor HierarchyBuilder Pipeline GrouperSpec OutlineSpec.
Local Open Scope py_scope.
Local Open Scope Q_scope.

(** The shape [toc_pattern] looks for at the end of a string: four or more
    dots, optional whitespace, one or more digits, optional whitespace. *)
Definition toc_shape (t : str) : Prop :=
  exists pre n spaces digits trailing,
    t = pre ++ repeat "."%char n ++ spaces ++ digits ++ trailing /\
    (4 <= n)%nat /\
    Forall (fun c => isspace c = true) spaces /\
    digits <> [] /\ Forall (fun c => isdecimal c = true) digits /\
    Forall (fun c => isspace c = true) trailing.

(** The test of the block loop, spelled out: the gap between the tops is
    more than 1.6 times the previous size, or the font names differ, or
    the sizes differ by 1 or more. *)
Definition breaks_block (prev0 line0 : Word) : Prop :=
  below (fmul (Fin (w_size prev0)) (Fin (lit 1.6)))
        (fsub (Fin (w_top line0)) (Fin (w_top prev0))) \/
  w_fontname line0 <> w_fontname prev0 \/
  at_most (Fin 1) (fabs (fsub (Fin (w_size line0)) (Fin (w_size prev0)))).

(** [line] goes on in the block of [prev]: their first fragments do not
    break the block. *)
Definition continues (prev line : list Word) : Prop :=
  exists p0 l0, hd_error prev = Some p0 /\ hd_error line = Some l0 /\
                ~ breaks_block p0 l0.

(** The last line of [g1] and the first line of [g2] break the block. *)
Definition block_boundary (g1 g2 : list (list Word)) : Prop :=
  exists q prev line r p0 l0,
    g1 = q ++ [prev] /\ g2 = line :: r /\
    hd_error prev = Some p0 /\ hd_error line = Some l0 /\
    breaks_block p0 l0.

(** [groups] are the runs into which the block loop cuts [lines]: they
    make up [lines] in order, none is empty, within a run every line goes
    on in the block of the line before it, and between two runs the block
    breaks.  [blocks] are the blocks of these runs, one each in the same
    order: a block's text is made of the texts of the fragments of its
    run. *)
Definition block_runs (lines : list (list Word)) (groups : list (list (list Word)))
  (blocks : list Block) : Prop :=
  concat groups = lines /\
  Forall (fun g => g <> [] /\ Sorted continues g) groups /\
  Sorted block_boundary groups /\
  Forall2 (fun g b => text b = join (s " ") (map w_text (concat g))) groups blocks.

(** [outer] contains [inner]. *)
Definition encloses (outer inner : bbox_t) : Prop :=
  bbox_x0 outer <= bbox_x0 inner /\ bbox_top outer <= bbox_top inner /\
  bbox_x1 inner <= bbox_x1 outer /\ bbox_bottom inner <= bbox_bottom outer.

(** A fragment text as word extraction without blank characters gives it:
    not empty and free of whitespace. *)
Definition clean_text (t : str) : Prop :=
  t <> [] /\ Forall (fun c => isspace c = false) t.

(** One of the four tests that make a block a heading candidate. *)
Definition has_heading_signal (f : Features) : Prop :=
  14 < f_font_size f \/ starts_with_number f = true \/ is_bold f = true \/
  (is_all_caps f = true /\ 11 < f_font_size f).

(** The height [build] measures the header and footer zones with. *)
Definition page_height_of (pages : list Page) : Q :=
  match pages with
  | [] => 842
  | page0 :: _ => get (height page0) 842
  end.

(** The top of the block lies in neither the top 8% nor the bottom 8% of
    a page of height [h]. *)
Definition in_content_zone (b : Block) (h : Q) : Prop :=
  at_most (fmul (Fin h) (Fin (lit 0.08))) (Fin (bbox_top (bbox b))) /\
  at_most (Fin (bbox_top (bbox b))) (fmul (Fin h) (Fin (lit 0.92))).

(** The center of the cluster of sample [i]. *)
Definition center_of (model : KMeansModel) (i : nat) : option Q :=
  match nth_error (labels_ model) i with
  | Some lbl => nth_error (cluster_centers_ model) lbl
  | None => None
  end.

(** A title and two headings, none with a page number. *)
Definition pageless_pages : list Page :=
  [a4 [mkBlock (s "Annual Report") (200, 100, 400, 124) (Some (s "Helvetica")) (Some 24) None;
       mkBlock (s "Chapter One") (200, 200, 400, 216) (Some (s "Helvetica-Bold")) (Some 16) None;
       mkBlock (s "Summary") (200, 300, 400, 312) (Some (s "Helvetica-Bold")) (Some 12) None]].

(** A page without any key but its number, and a numbered block without
    font keys. *)
Definition bare_page : Page := mkPage 1 None None None.

Definition fontless_block : Block :=
  mkBlock (s "1.2 Scope") (72, 300, 200, 312) None None (Some 1%Z).

(** A PDF of one page whose words make the blocks of
    [single_heading_pages]. *)
Definition word_at (t : string) (x y : Q) (font : string) (sz : Q) : Word :=
  mkWord (s t) x y (x + 60) (y + sz) (s font) sz.

(** Four lines of one fragment or two: a heading, a paragraph of two lines
    that starts 22.4 units (as the doubles 50 and 72.4 give it) below the
    heading, and a smaller note. *)
Definition stacked_words : list Word :=
  [word_at "Heading" 72 50 "Helvetica" 14;
   word_at "Body" 72 (lit 72.4) "Helvetica" 14;
   word_at "more" 140 90 "Helvetica" 14;
   word_at "Note" 72 100 "Helvetica" 10].

Definition single_heading_pdf : option (list PdfPage) :=
  Some [mkPdfPage 595 842
          (Some [word_at "Annual" 200 100 "Helvetica" 24;
                 word_at "Report" 270 100 "Helvetica" 24;
                 word_at "Chapter" 200 200 "Helvetica-Bold" 16;
                 word_at "One" 270 200 "Helvetica-Bold" 16;
                 word_at "Plain" 200 240 "Helvetica" 10;
                 word_at "words" 270 240 "Helvetica" 10])].

(** What the loop made of the page with index [i]. *)
Definition page_record (ipage : nat * PdfPage) (pg : Page) : Prop :=
  let number := (Z.of_nat (fst ipage) + 1)%Z in
  exists words blocks,
    extract_words (snd ipage) = Some words /\
    _group_words_into_blocks words number = Ok blocks /\
    Forall (fun b => page_num b = Some number) blocks /\
    pg = {| pg_page_num := number;
            width := Some (pdf_width (snd ipage));
            height := Some (pdf_height (snd ipage));
            text_blocks := Some blocks |}.

(** Left to right, and top to bottom. *)
Definition x0_le (a b : Word) : Prop := w_x0 a <= w_x0 b.
Definition above (l1 l2 : list Word) : Prop :=
  forall a b, In a l1 -> In b l2 -> w_top a <= w_top b.

End ExtraSpec.

(* ===================================================================== *)
(** * Facts about the matcher *)
(* ===================================================================== *)

Module RegexFacts.
Import Py Regex.

Lemma nullable_lang r : nullable r = true <-> lang r [].
Proof.
  induction r; simpl.
  - split; [discriminate | inversion 1].
  - split; [constructor | reflexivity].
  - split; [discriminate | inversion 1].
  - rewrite andb_true_iff, IHr1, IHr2. split.
    + intros [H1 H2]. change (@nil ascii) with (@nil ascii ++ []). now constructor.
    + intros H. remember (Cat r1 r2) as r eqn:Er. remember (@nil ascii) as u eqn:Eu.
      destruct H; try discriminate. inversion Er; subst.
      apply app_eq_nil in Eu as [-> ->]. now split.
  - rewrite orb_true_iff, IHr1, IHr2. split.
    + intros [H|H]; [now apply lang_alt_l | now apply lang_alt_r].
    + inversion 1; subst; auto.
  - split; [constructor | reflexivity].
Qed.

Lemma star_cons_inv a c t :
  lang (Star a) (c :: t) ->
  exists t1 t2, t = t1 ++ t2 /\ lang a (c :: t1) /\ lang (Star a) t2.
Proof.
  intros H. remember (Star a) as r eqn:Er. remember (c :: t) as u eqn:Eu.
  induction H; try discriminate.
  inversion Er; subst a0. destruct t1 as [|c1 t1].
  - simpl in Eu. now apply IHlang2.
  - simpl in Eu. inversion Eu; subst. now exists t1, t2.
Qed.

Lemma cat_cons_inv a b c t :
  lang (Cat a b) (c :: t) ->
  (lang a [] /\ lang b (c :: t)) \/
  (exists t1 t2, t = t1 ++ t2 /\ lang a (c :: t1) /\ lang b t2).
Proof.
  intros H. remember (Cat a b) as r eqn:Er. remember (c :: t) as u eqn:Eu.
  destruct H; try discriminate. inversion Er; subst.
  destruct t1 as [|c1 t1]; simpl in Eu.
  - subst. now left.
  - inversion Eu; subst. right. now exists t1, t2.
Qed.

Lemma deriv_lang r : forall c t, lang (deriv c r) t <-> lang r (c :: t).
Proof.
  induction r; intros c t; simpl.
  - split; inversion 1.
  - split; inversion 1.
  - destruct (p c) eqn:E; split; intros H; inversion H; subst.
    + now constructor.
    + constructor.
    + congruence.
  - assert (Hcat : lang (Cat (deriv c r1) r2) t <->
                   exists t1 t2, t = t1 ++ t2 /\ lang r1 (c :: t1) /\ lang r2 t2).
    { split.
      - inversion 1; subst. do 2 eexists. split; [reflexivity|].
        split; [now apply IHr1 | assumption].
      - intros (t1 & t2 & -> & H1 & H2). constructor; [now apply IHr1 | assumption]. }
    destruct (nullable r1) eqn:En; split; intros H.
    + inversion H; subst.
      * apply Hcat in H3 as (t1 & t2 & -> & H1 & H2).
        change (c :: t1 ++ t2) with ((c :: t1) ++ t2). now constructor.
      * change (c :: t) with ([] ++ c :: t). constructor.
        -- now apply nullable_lang.
        -- now apply IHr2.
    + apply cat_cons_inv in H as [(H1 & H2)|(t1 & t2 & -> & H1 & H2)].
      * apply lang_alt_r. now apply IHr2.
      * apply lang_alt_l, Hcat. now exists t1, t2.
    + apply Hcat in H as (t1 & t2 & -> & H1 & H2).
      change (c :: t1 ++ t2) with ((c :: t1) ++ t2). now constructor.
    + apply cat_cons_inv in H as [(H1 & H2)|(t1 & t2 & -> & H1 & H2)].
      * apply nullable_lang in H1. congruence.
      * apply Hcat. now exists t1, t2.
  - split; intros H; inversion H; subst.
    + apply lang_alt_l. now apply IHr1.
    + apply lang_alt_r. now apply IHr2.
    + apply lang_alt_l. now apply IHr1.
    + apply lang_alt_r. now apply IHr2.
  - split; intros H.
    + inversion H; subst. change (c :: t1 ++ t2) with ((c :: t1) ++ t2).
      constructor; [now apply IHr | assumption].
    + apply star_cons_inv in H as (t1 & t2 & -> & H1 & H2).
      constructor; [now apply IHr | assumption].
Qed.

Lemma accepts_lang t : forall r, accepts r t = true <-> lang r t.
Proof.
  induction t as [|c t IH]; intros r; simpl.
  - apply nullable_lang.
  - rewrite IH. apply deriv_lang.
Qed.

Lemma lang_star_any t : lang (Star Any) t.
Proof.
  induction t as [|c t IH]; [constructor|].
  change (c :: t) with ([c] ++ t). constructor; [now constructor | assumption].
Qed.

Lemma lang_star_all p t : Forall (fun c => p c = true) t -> lang (Star (Class p)) t.
Proof.
  induction 1 as [|c t Hc _ IH]; [constructor|].
  change (c :: t) with ([c] ++ t). constructor; [now constructor | assumption].
Qed.

Lemma lang_plus_all p t :
  t <> [] -> Forall (fun c => p c = true) t -> lang (Plus (Class p)) t.
Proof.
  intros Hne Hall. destruct t as [|c t]; [congruence|].
  inversion Hall; subst. change (c :: t) with ([c] ++ t).
  constructor; [now constructor | now apply lang_star_all].
Qed.

(** A prefix in the language of [r] is a match of [re.match]. *)
Lemma re_match_prefix r pre rest : lang r pre -> re_match r (pre ++ rest) = true.
Proof.
  intros H. apply accepts_lang. constructor; [assumption | apply lang_star_any].
Qed.

End RegexFacts.

(* ===================================================================== *)
(** * Facts about the Python primitives *)
(* ===================================================================== *)

Module PyFacts.
Import Py.
Local Open Scope Q_scope.

Lemma Qltb_lt a b : Qltb a b = true <-> a < b.
Proof.
  unfold Qltb. rewrite negb_true_iff. split; intros H.
  - apply Qnot_le_lt. intros Hle. apply Qle_bool_iff in Hle. congruence.
  - destruct (Qle_bool b a) eqn:E; [|reflexivity].
    apply Qle_bool_iff in E. exfalso. apply (Qlt_not_le _ _ H E).
Qed.

Lemma Qltb_ge a b : Qltb a b = false <-> b <= a.
Proof.
  unfold Qltb. rewrite negb_false_iff. apply Qle_bool_iff.
Qed.

Lemma Qgtb_gt a b : Qgtb a b = true <-> b < a.
Proof. apply Qltb_lt. Qed.

Lemma Qgtb_le a b : Qgtb a b = false <-> a <= b.
Proof. apply Qltb_ge. Qed.

(** ** Rounding to the nearest double *)

(** [round_half_even] is within one half of its argument. *)
Lemma rhe_close x :
  inject_Z (round_half_even x) - (1#2) <= x /\ x <= inject_Z (round_half_even x) + (1#2).
Proof.
  unfold round_half_even.
  pose proof (Qfloor_le x) as Hlo.
  pose proof (Qlt_floor x) as Hhi.
  rewrite inject_Z_plus in Hhi. change (inject_Z 1) with 1 in Hhi.
  set (f := Qfloor x) in *.
  destruct (Qltb (x - inject_Z f) (1 # 2)) eqn:E1.
  - apply Qltb_lt in E1. split; lra.
  - apply Qltb_ge in E1. destruct (Qltb (1 # 2) (x - inject_Z f)) eqn:E2.
    + rewrite inject_Z_plus. change (inject_Z 1) with 1. split; lra.
    + apply Qltb_ge in E2.
      destruct (Z.even f); [|rewrite inject_Z_plus; change (inject_Z 1) with 1];
        split; lra.
Qed.

(** When it is exactly one half away, the result is even. *)
Lemma rhe_half_even x :
  Qabs (inject_Z (round_half_even x) - x) == 1 # 2 -> Z.even (round_half_even x) = true.
Proof.
  unfold round_half_even.
  pose proof (Qfloor_le x) as Hlo.
  pose proof (Qlt_floor x) as Hhi.
  rewrite inject_Z_plus in Hhi. change (inject_Z 1) with 1 in Hhi.
  set (f := Qfloor x) in *.
  destruct (Qltb (x - inject_Z f) (1 # 2)) eqn:E1.
  - apply Qltb_lt in E1. intros H. exfalso.
    rewrite Qabs_neg in H by lra. lra.
  - apply Qltb_ge in E1. destruct (Qltb (1 # 2) (x - inject_Z f)) eqn:E2.
    + apply Qltb_lt in E2. intros H. exfalso.
      rewrite inject_Z_plus in H. change (inject_Z 1) with 1 in H.
      rewrite Qabs_pos in H by lra. lra.
    + intros _. destruct (Z.even f) eqn:Ef; [exact Ef|].
      rewrite Z.even_add, Ef. reflexivity.
Qed.

Lemma inject_Z_lt_le (a b : Z) : inject_Z a < inject_Z b + 1 -> (a <= b)%Z.
Proof.
  intros H. change 1 with (inject_Z 1) in H. rewrite <- inject_Z_plus in H.
  rewrite <- Zlt_Qlt in H. lia.
Qed.

Ltac zq :=
  unfold Zminus in *;
  repeat rewrite ?inject_Z_plus, ?inject_Z_opp in *;
  change (inject_Z 1) with 1 in *; change (inject_Z (-1)) with (-1) in *.

Lemma rhe_le x (n : Z) : x <= inject_Z n -> (round_half_even x <= n)%Z.
Proof.
  intros H. destruct (rhe_close x) as [H1 _]. apply inject_Z_lt_le. lra.
Qed.

Lemma rhe_ge x (n : Z) : inject_Z n <= x -> (n <= round_half_even x)%Z.
Proof.
  intros H. destruct (rhe_close x) as [_ H2]. apply inject_Z_lt_le. lra.
Qed.

Lemma rhe_lt_half x (n : Z) : x < inject_Z n - (1#2) -> (round_half_even x < n)%Z.
Proof.
  intros H. destruct (rhe_close x) as [H1 _].
  assert (Hs : inject_Z (round_half_even x) < inject_Z n) by lra.
  now rewrite <- Zlt_Qlt in Hs.
Qed.

Lemma rhe_gt_half x (n : Z) : inject_Z n - (1#2) < x -> (n <= round_half_even x)%Z.
Proof.
  intros H. destruct (rhe_close x) as [_ H2].
  assert (Hs : inject_Z (n - 1) < inject_Z (round_half_even x)) by (zq; lra).
  rewrite <- Zlt_Qlt in Hs. lia.
Qed.


Lemma floor_unique x (f : Z) : inject_Z f <= x -> x < inject_Z f + 1 -> Qfloor x = f.
Proof.
  intros H1 H2.
  pose proof (Qfloor_le x) as Hlo. pose proof (Qlt_floor x) as Hhi.
  rewrite inject_Z_plus in Hhi. change (inject_Z 1) with 1 in Hhi.
  assert (A : (Qfloor x <= f)%Z) by (apply inject_Z_lt_le; lra).
  assert (B : (f <= Qfloor x)%Z) by (apply inject_Z_lt_le; lra).
  lia.
Qed.

(** A tie goes to the even neighbour. *)
Lemma rhe_tie_up x (n : Z) :
  Z.even n = true -> x == inject_Z n - (1#2) -> round_half_even x = n.
Proof.
  intros He Hx. unfold round_half_even.
  assert (Hf : Qfloor x = (n - 1)%Z).
  { apply floor_unique; zq; lra. }
  rewrite Hf.
  assert (Hr : x - inject_Z (n - 1) == 1 # 2) by (zq; lra).
  assert (E1 : Qltb (x - inject_Z (n - 1)) (1 # 2) = false) by (apply Qltb_ge; lra).
  assert (E2 : Qltb (1 # 2) (x - inject_Z (n - 1)) = false) by (apply Qltb_ge; lra).
  rewrite E1, E2.
  replace (Z.even (n - 1)) with false.
  - lia.
  - symmetry. rewrite Z.even_sub. rewrite He. reflexivity.
Qed.

Lemma rhe_tie_down x (n : Z) :
  Z.even n = true -> x == inject_Z n + (1#2) -> round_half_even x = n.
Proof.
  intros He Hx. unfold round_half_even.
  assert (Hf : Qfloor x = n) by (apply floor_unique; lra).
  rewrite Hf.
  assert (E1 : Qltb (x - inject_Z n) (1 # 2) = false) by (apply Qltb_ge; lra).
  assert (E2 : Qltb (1 # 2) (x - inject_Z n) = false) by (apply Qltb_ge; lra).
  rewrite E1, E2, He. reflexivity.
Qed.

(** [|round_half_even x|] reaches an even [n] exactly when [|x|] reaches
    [n - 1/2]. *)
Lemma rhe_abs_threshold x (n : Z) :
  Z.even n = true -> (0 < n)%Z ->
  ((Z.abs (round_half_even x) < n)%Z <-> Qabs x < inject_Z n - (1#2)).
Proof.
  intros He Hn.
  assert (Hn' : 0 < inject_Z n) by (change 0 with (inject_Z 0); now rewrite <- Zlt_Qlt).
  split.
  - intros H. apply Qabs_case; intros Hx.
    + destruct (Qlt_le_dec x (inject_Z n - (1#2))) as [L|L]; [exact L|exfalso].
      apply Qle_lteq in L as [L|L].
      * apply rhe_gt_half in L. lia.
      * symmetry in L. apply (@rhe_tie_up x n He) in L. lia.
    + destruct (Qlt_le_dec (- x) (inject_Z n - (1#2))) as [L|L]; [exact L|exfalso].
      apply Qle_lteq in L as [L|L].
      * assert (L' : x < inject_Z (- n + 1) - (1#2)) by (zq; lra).
        apply rhe_lt_half in L'. lia.
      * assert (L' : x == inject_Z (- n) + (1#2)) by (zq; lra).
        apply rhe_tie_down in L'; [lia|]. now rewrite Z.even_opp.
  - intros H. apply Qabs_Qlt_condition in H as [H1 H2].
    apply rhe_lt_half in H2.
    assert (H1' : inject_Z (- n + 1) - (1#2) < x) by (zq; lra).
    apply rhe_gt_half in H1'. lia.
Qed.

Lemma rhe_abs_le x (n : Z) : Qabs x <= inject_Z n -> (Z.abs (round_half_even x) <= n)%Z.
Proof.
  intros H. apply Qabs_Qle_condition in H as [H1 H2].
  apply rhe_le in H2.
  assert (H1' : inject_Z (- n) <= x) by (zq; lra).
  apply rhe_ge in H1'. lia.
Qed.

Lemma rhe_abs_ge x (n : Z) : inject_Z n <= Qabs x -> (n <= Z.abs (round_half_even x))%Z.
Proof.
  apply Qabs_case; intros Hx H.
  - apply rhe_ge in H. lia.
  - assert (H' : x <= inject_Z (- n)) by (zq; lra).
    apply rhe_le in H'. lia.
Qed.

Lemma pow2_pos e : 0 < 2 ^ e.
Proof. apply Qpower_0_lt. reflexivity. Qed.

Lemma pow2_Z (n : Z) : (0 <= n)%Z -> 2 ^ n == inject_Z (2 ^ n).
Proof. intros H. rewrite Zpower_Qpower by exact H. reflexivity. Qed.

Lemma Qmake_times_den (q : Q) : q * inject_Z (Zpos (Qden q)) == inject_Z (Qnum q).
Proof.
  destruct q as [n d]. simpl. rewrite (Qmake_Qdiv n d).
  rewrite Qmult_comm. apply Qmult_div_r. discriminate.
Qed.

Lemma ilog2_spec q : 0 < q -> 2 ^ ilog2 q <= q /\ q < 2 ^ (ilog2 q + 1).
Proof.
  intros Hq. unfold ilog2.
  assert (Hn : (0 < Qnum q)%Z) by (destruct q as [n d]; unfold Qlt in Hq; simpl in *; lia).
  set (n := Qnum q) in *. set (d := Zpos (Qden q)).
  assert (Hd : (0 < d)%Z) by reflexivity.
  pose proof (Z.log2_spec n Hn) as [HA1 HA2]. pose proof (Z.log2_spec d Hd) as [HB1 HB2].
  pose proof (Z.log2_nonneg n) as HA0. pose proof (Z.log2_nonneg d) as HB0.
  set (A := Z.log2 n) in *. set (B := Z.log2 d) in *.
  pose proof (Qmake_times_den q) as Hqd. fold n d in Hqd.
  assert (QA1 : 2 ^ A <= inject_Z n) by (rewrite pow2_Z by lia; now rewrite <- Zle_Qle).
  assert (QA2 : inject_Z n < 2 ^ (A + 1))
    by (rewrite pow2_Z by lia; rewrite <- Zlt_Qlt; unfold Z.succ in HA2; lia).
  assert (QB1 : 2 ^ B <= inject_Z d) by (rewrite pow2_Z by lia; now rewrite <- Zle_Qle).
  assert (QB2 : inject_Z d < 2 ^ (B + 1))
    by (rewrite pow2_Z by lia; rewrite <- Zlt_Qlt; unfold Z.succ in HB2; lia).
  assert (Hup : q < 2 ^ (A - B + 1)).
  { replace (A - B + 1)%Z with ((A + 1) - B)%Z by lia.
    rewrite Qpower_minus by discriminate.
    apply Qlt_shift_div_l; [apply pow2_pos|].
    apply Qle_lt_trans with (q * inject_Z d); [|rewrite Hqd; exact QA2].
    rewrite !(Qmult_comm q). apply Qmult_le_r; [exact Hq | exact QB1]. }
  assert (Hlo : 2 ^ (A - B - 1) <= q).
  { replace (A - B - 1)%Z with (A - (B + 1))%Z by lia.
    rewrite Qpower_minus by discriminate.
    apply Qle_shift_div_r; [apply pow2_pos|].
    apply Qle_trans with (q * inject_Z d); [rewrite Hqd; exact QA1|].
    rewrite !(Qmult_comm q). apply Qmult_le_r; [exact Hq | apply Qlt_le_weak; exact QB2]. }
  destruct (Qle_bool (2 ^ (A - B)) q) eqn:E.
  - apply Qle_bool_iff in E. split; [exact E | exact Hup].
  - split; [exact Hlo|]. replace (A - B - 1 + 1)%Z with (A - B)%Z by lia.
    apply Qnot_le_lt. intros H. apply Qle_bool_iff in H. congruence.
Qed.

(** The double nearest to [q] is below 2 in absolute value exactly when
    [q] is below [2 - 2^-53]. *)
Lemma nearest_below_2 q : Qabs (nearest q) < 2 <-> Qabs q < 2 - (1 # 2 ^ 53).
Proof.
  unfold nearest. destruct (Qeq_bool q 0) eqn:E0.
  { apply Qeq_bool_iff in E0. rewrite E0. split; intros _; reflexivity. }
  apply Qeq_bool_neq in E0. rewrite Qred_correct.
  assert (Ha : 0 < Qabs q).
  { apply Qabs_case; intros H; [apply Qle_lteq in H as [H|H]; [exact H | exfalso; apply E0; now symmetry] |].
    apply Qle_lteq in H as [H|H]; [lra | contradiction]. }
  destruct (@ilog2_spec (Qabs q) Ha) as [Hlo Hhi]. unfold ulp.
  set (e := ilog2 (Qabs q)) in *. clearbody e.
  remember (Z.max (e - 52) (-1074)) as k eqn:Hk0.
  pose proof (pow2_pos k) as Hu.
  remember (round_half_even (q / 2 ^ k)) as m eqn:Hm0.
  assert (Hm : Qabs (inject_Z m * 2 ^ k) == inject_Z (Z.abs m) * 2 ^ k).
  { rewrite Qabs_Qmult, (Qabs_pos (2 ^ k)) by lra. reflexivity. }
  assert (Hx : Qabs (q / 2 ^ k) == Qabs q / 2 ^ k).
  { unfold Qdiv. rewrite Qabs_Qmult, Qabs_Qinv, (Qabs_pos (2 ^ k)) by lra. reflexivity. }
  rewrite Hm.
  destruct (Z_lt_le_dec e 0) as [Hneg|Hnn]; [|destruct (Z.eq_dec e 0) as [Hz|Hpos]].
  - (* below 1 *)
    assert (Hq1 : Qabs q < 1).
    { eapply Qlt_le_trans; [exact Hhi|]. change 1 with (2 ^ 0).
      apply Qpower_le_compat_l; [lia | discriminate]. }
    assert (Hk : (k <= -53)%Z) by lia.
    assert (Hinv : 2 ^ k * inject_Z (2 ^ (- k)) == 1).
    { rewrite <- pow2_Z by lia. rewrite <- Qpower_plus by discriminate.
      replace (k + - k)%Z with 0%Z by lia. reflexivity. }
    assert (Hle : (Z.abs m <= 2 ^ (- k))%Z).
    { rewrite Hm0. apply rhe_abs_le. rewrite Hx. apply Qle_shift_div_r; [exact Hu|].
      rewrite Qmult_comm, Hinv. lra. }
    assert (Hc : 1 < 2 - (1 # 2 ^ 53)) by reflexivity.
    split; intros _.
    + lra.
    + apply Qle_lt_trans with (inject_Z (2 ^ (- k)) * 2 ^ k).
      * apply Qmult_le_r; [exact Hu|]. now rewrite <- Zle_Qle.
      * rewrite Qmult_comm, Hinv. reflexivity.
  - (* from 1 to 2 *)
    rewrite Hz in Hlo, Hhi. change (2 ^ 0) with 1 in Hlo. change (2 ^ (0 + 1)) with 2 in Hhi.
    assert (Hk : k = (-52)%Z) by lia. rewrite Hk in *.
    assert (Hth : (Z.abs m < 2 ^ 53)%Z <-> Qabs (q / 2 ^ (-52)) < inject_Z (2 ^ 53) - (1 # 2))
      by (rewrite Hm0; apply rhe_abs_threshold; [reflexivity | reflexivity]).
    rewrite Hx in Hth.
    assert (Hsc : inject_Z (Z.abs m) * 2 ^ (-52) < 2 <-> (Z.abs m < 2 ^ 53)%Z).
    { assert (Hc2 : inject_Z (2 ^ 53) * 2 ^ (-52) == 2) by reflexivity.
      rewrite Zlt_Qlt.
      rewrite <- (Qmult_lt_r (inject_Z (Z.abs m)) (inject_Z (2 ^ 53)) (2 ^ (-52)) Hu).
      rewrite Hc2. reflexivity. }
    rewrite Hsc, Hth.
    rewrite <- (Qmult_lt_r (Qabs q / 2 ^ (-52)) (inject_Z (2 ^ 53) - (1 # 2)) (2 ^ (-52)) Hu).
    assert (Hdm : Qabs q / 2 ^ (-52) * 2 ^ (-52) == Qabs q)
      by (rewrite Qmult_comm; apply Qmult_div_r; discriminate).
    rewrite Hdm.
    setoid_replace ((inject_Z (2 ^ 53) - (1 # 2)) * 2 ^ (-52)) with (2 - (1 # 2 ^ 53))
      by reflexivity.
    reflexivity.
  - (* 2 or more *)
    assert (H2 : 2 <= Qabs q).
    { eapply Qle_trans; [|exact Hlo]. change 2 with (2 ^ 1) at 1.
      apply Qpower_le_compat_l; [lia | discriminate]. }
    assert (Hk : k = (e - 52)%Z) by lia.
    assert (Hge : (2 ^ 52 <= Z.abs m)%Z).
    { rewrite Hm0. apply rhe_abs_ge. rewrite Hx. apply Qle_shift_div_l; [exact Hu|].
      rewrite <- pow2_Z by lia. rewrite <- Qpower_plus by discriminate.
      rewrite Hk. replace (52 + (e - 52))%Z with e by lia. exact Hlo. }
    assert (Hbig : 2 <= inject_Z (Z.abs m) * 2 ^ k).
    { apply Qle_trans with (inject_Z (2 ^ 52) * 2 ^ k).
      - rewrite <- pow2_Z by lia. rewrite <- Qpower_plus by discriminate.
        change 2 with (2 ^ 1) at 1. apply Qpower_le_compat_l; [lia | discriminate].
      - apply Qmult_le_r; [exact Hu|]. now rewrite <- Zle_Qle. }
    split; intros H; [lra|].
    exfalso. assert (Hc : 2 - (1 # 2 ^ 53) < 2) by reflexivity. lra.
Qed.

(** The double difference of two finite doubles is below 2 in absolute
    value exactly when their exact difference is below [2 - 2^-53]. *)
Lemma fsub_below_2 a b :
  flt (fabs (fsub (Fin a) (Fin b))) (Fin 2) = true <-> Qabs (a - b) < 2 - (1 # 2 ^ 53).
Proof.
  rewrite <- nearest_below_2.
  unfold fsub, fneg, fadd, rnd. fold (a - b).
  destruct (Qle_bool (2 ^ 1024) (Qabs (nearest (a - b)))) eqn:E; simpl.
  - apply Qle_bool_iff in E. split; [discriminate|]. intros H. exfalso.
    assert (Hc : 2 <= 2 ^ 1024) by (apply Qle_bool_iff; vm_compute; reflexivity).
    lra.
  - apply Qltb_lt.
Qed.

(** An operation on finite doubles never gives NaN. *)
Lemma rnd_number q : rnd q <> NaN.
Proof. unfold rnd. destruct (Qle_bool _ _); discriminate. Qed.

Lemma fsub_number x y : fsub (Fin x) (Fin y) <> NaN.
Proof. apply rnd_number. Qed.

Lemma fmul_number x y : fmul (Fin x) (Fin y) <> NaN.
Proof. apply rnd_number. Qed.

Lemma fabs_number a : a <> NaN -> fabs a <> NaN.
Proof. destruct a; simpl; congruence. Qed.

(** Among numbers, [not (a < b)] is [b <= a]. *)
Lemma flt_ge a b : a <> NaN -> b <> NaN -> (flt a b = false <-> fle b a = true).
Proof.
  destruct a as [x|sa|], b as [y|sb|]; simpl; try congruence; intros _ _.
  - unfold Qltb. apply negb_false_iff.
  - apply negb_false_iff.
  - destruct sa; simpl; split; congruence.
  - destruct sa, sb; simpl; split; congruence.
Qed.

Ltac bool_cases :=
  repeat match goal with b : bool |- _ => destruct b end; simpl; congruence.

Lemma flt_fle a b : flt a b = true -> fle a b = true.
Proof.
  destruct a as [x|sa|], b as [y|sb|]; simpl; try bool_cases.
  intros H. apply Qltb_lt in H. apply Qle_bool_iff. lra.
Qed.

Lemma flt_irrefl_fle a b : flt a b = true -> fle b a = false.
Proof.
  destruct a as [x|sa|], b as [y|sb|]; simpl; try bool_cases.
  intros H. apply Qltb_lt in H.
  destruct (Qle_bool y x) eqn:E; [|reflexivity]. apply Qle_bool_iff in E. lra.
Qed.

Lemma flt_fle_trans a b c : flt a b = true -> fle b c = true -> flt a c = true.
Proof.
  destruct a as [x|sa|], b as [y|sb|], c as [z|sc|]; simpl; try bool_cases.
  rewrite !Qltb_lt, Qle_bool_iff. intros; lra.
Qed.

Lemma fle_flt_trans a b c : fle a b = true -> flt b c = true -> flt a c = true.
Proof.
  destruct a as [x|sa|], b as [y|sb|], c as [z|sc|]; simpl; try bool_cases.
  rewrite !Qltb_lt, Qle_bool_iff. intros; lra.
Qed.

Lemma bind_Ok {A B : Type} (m : result A) (k : A -> result B) (b : B) :
  bind m k = Ok b -> exists a, m = Ok a /\ k a = Ok b.
Proof. destruct m as [a|e]; simpl; [eauto | discriminate]. Qed.

Lemma mapM_Ok_Forall2 {A B : Type} (f : A -> result B) xs :
  forall ys, mapM f xs = Ok ys -> Forall2 (fun x y => f x = Ok y) xs ys.
Proof.
  induction xs as [|x xs IH]; simpl; intros ys H.
  - inversion H. constructor.
  - apply bind_Ok in H as (y & Hy & H). apply bind_Ok in H as (ys' & Hys & H).
    inversion H; subst. constructor; auto.
Qed.

Lemma Forall2_mapM_Ok {A B : Type} (f : A -> result B) xs ys :
  Forall2 (fun x y => f x = Ok y) xs ys -> mapM f xs = Ok ys.
Proof.
  induction 1 as [|x y xs ys Hxy _ IH]; simpl; [reflexivity|].
  now rewrite Hxy, IH.
Qed.

Lemma subscript_last_app {A : Type} (l : list A) (x : A) :
  subscript_last (l ++ [x]) = Ok x.
Proof.
  induction l as [|y l IH]; [reflexivity|].
  simpl. destruct (l ++ [x]) eqn:E; [now destruct l | exact IH].
Qed.

Lemma subscript_last_nonempty {A : Type} (l : list A) :
  l <> [] -> exists p x, l = p ++ [x] /\ subscript_last l = Ok x.
Proof.
  intros H. destruct (exists_last H) as (p & x & ->).
  exists p, x. split; [reflexivity | apply subscript_last_app].
Qed.

Section SortFacts.
Variables (A K : Type) (key : A -> K) (lt : K -> K -> bool).

Lemma insert_sorted_perm x l : Permutation (insert_sorted key lt x l) (x :: l).
Proof.
  induction l as [|y l IH]; simpl; [reflexivity|].
  destruct (lt (key y) (key x)); [|reflexivity].
  rewrite IH. apply perm_swap.
Qed.

Lemma sorted_perm l : Permutation (sorted key lt l) l.
Proof.
  induction l as [|x l IH]; simpl; [reflexivity|].
  rewrite insert_sorted_perm. now constructor.
Qed.

Lemma sorted_length l : length (sorted key lt l) = length l.
Proof. apply Permutation_length, sorted_perm. Qed.

Lemma sorted_nonempty l : l <> [] -> sorted key lt l <> [].
Proof.
  intros H E. apply H. apply length_zero_iff_nil.
  rewrite <- sorted_length, E. reflexivity.
Qed.

Hypothesis lt_asym : forall a b, lt a b = true -> lt b a = false.
Hypothesis ge_trans : forall a b c, lt b a = false -> lt c b = false -> lt c a = false.

Lemma le_by_trans : Relations_1.Transitive (le_by key lt).
Proof. intros x y z Hxy Hyz. unfold le_by in *. eauto. Qed.

Lemma insert_sorted_Sorted x l :
  Sorted (le_by key lt) l -> Sorted (le_by key lt) (insert_sorted key lt x l).
Proof.
  induction l as [|y l IH]; simpl; intros Hs.
  - repeat constructor.
  - destruct (lt (key y) (key x)) eqn:E.
    + inversion Hs as [|? ? Hs' Hhd]; subst. constructor; [auto|].
      destruct l as [|z l]; simpl.
      * constructor. now apply lt_asym.
      * destruct (lt (key z) (key x)); constructor.
        -- now inversion Hhd.
        -- now apply lt_asym.
    + constructor; [assumption | now constructor].
Qed.

Lemma sorted_Sorted l : Sorted (le_by key lt) (sorted key lt l).
Proof.
  induction l as [|x l IH]; simpl; [constructor | now apply insert_sorted_Sorted].
Qed.

Lemma sorted_StronglySorted l : StronglySorted (le_by key lt) (sorted key lt l).
Proof. apply Sorted_StronglySorted; [exact le_by_trans | apply sorted_Sorted]. Qed.
End SortFacts.

Ltac qreflect :=
  repeat match goal with
  | H : Qeq_bool _ _ = true |- _ => apply Qeq_bool_iff in H
  | H : Qeq_bool _ _ = false |- _ => apply Qeq_bool_neq in H
  | H : Qltb _ _ = true |- _ => apply Qltb_lt in H
  | H : Qltb _ _ = false |- _ => apply Qltb_ge in H
  | H : Qgtb _ _ = true |- _ => apply Qgtb_gt in H
  | H : Qgtb _ _ = false |- _ => apply Qgtb_le in H
  end.

Ltac qsolve :=
  intros; qreflect; rewrite ?Qltb_lt, ?Qltb_ge, ?Qgtb_gt, ?Qgtb_le;
  first [ lra
        | exfalso; match goal with H : ~ _ == _ |- _ => apply H; lra end ].

Lemma pair_lt_QQ_asym a b :
  pair_lt Qeq_bool Qltb Qltb a b = true -> pair_lt Qeq_bool Qltb Qltb b a = false.
Proof.
  destruct a as [a1 a2], b as [b1 b2]. unfold pair_lt; simpl.
  destruct (Qeq_bool a1 b1) eqn:E1, (Qeq_bool b1 a1) eqn:E2; qsolve.
Qed.

Lemma pair_lt_QQ_trans a b c :
  pair_lt Qeq_bool Qltb Qltb b a = false ->
  pair_lt Qeq_bool Qltb Qltb c b = false ->
  pair_lt Qeq_bool Qltb Qltb c a = false.
Proof.
  destruct a as [a1 a2], b as [b1 b2], c as [c1 c2]. unfold pair_lt; simpl.
  destruct (Qeq_bool b1 a1) eqn:E1, (Qeq_bool c1 b1) eqn:E2, (Qeq_bool c1 a1) eqn:E3;
    qsolve.
Qed.

Lemma pair_lt_ZQ_asym a b :
  pair_lt Z.eqb Z.ltb Qltb a b = true -> pair_lt Z.eqb Z.ltb Qltb b a = false.
Proof.
  destruct a as [a1 a2], b as [b1 b2]. unfold pair_lt; simpl.
  destruct (Z.eqb_spec a1 b1), (Z.eqb_spec b1 a1);
    rewrite ?Z.ltb_lt, ?Z.ltb_ge; try lia; try qsolve.
Qed.

Lemma pair_lt_ZQ_trans a b c :
  pair_lt Z.eqb Z.ltb Qltb b a = false ->
  pair_lt Z.eqb Z.ltb Qltb c b = false ->
  pair_lt Z.eqb Z.ltb Qltb c a = false.
Proof.
  destruct a as [a1 a2], b as [b1 b2], c as [c1 c2]. unfold pair_lt; simpl.
  destruct (Z.eqb_spec b1 a1), (Z.eqb_spec c1 b1), (Z.eqb_spec c1 a1);
    subst; rewrite ?Z.ltb_ge; try lia; try qsolve.
Qed.

End PyFacts.

(* ===================================================================== *)
(** * The arithmetic of [Py] against the primitive doubles *)
(* ===================================================================== *)

Module Binary64Facts.
Import Py Binary64.

(** On the sample operands, the decimal literals denote the same doubles,
    and sum, difference, product, halving, absolute value, negation, [<]
    and [<=] give the same results, as the primitive operations. *)
Lemma arithmetic_agrees_with_binary64 :
  forallb agree_on_literal decimals = true /\
  forallb agree_on samples = true /\
  forallb (fun x => forallb (agree_on_pair x) samples) samples = true.
Proof. split; [|split]; vm_compute; reflexivity. Qed.

End Binary64Facts.

(* ===================================================================== *)
(** * The grouper: line assembly *)
(* ===================================================================== *)

Module LineAssembly.
Import Py PdfProcessor GrouperSpec PyFacts.
Local Open Scope py_scope.
Local Open Scope Q_scope.


Lemma same_line_near a b : same_line a b = true <-> near a b.
Proof. unfold same_line, near, top_distance. reflexivity. Qed.

Lemma same_line_far a b : same_line a b = false <-> apart a b.
Proof.
  unfold same_line, apart, top_distance. apply flt_ge; [|discriminate].
  apply fabs_number, fsub_number.
Qed.

(** What the two relations mean for the exact tops. *)
Lemma near_exact a b : near a b <-> Qabs (w_top b - w_top a) < 2 - (1 # 2 ^ 53).
Proof. unfold near, top_distance. apply fsub_below_2. Qed.

Lemma apart_exact a b : apart a b <-> 2 - (1 # 2 ^ 53) <= Qabs (w_top b - w_top a).
Proof.
  rewrite <- same_line_far. split.
  - intros H. apply Qnot_lt_le. intros Hlt. apply near_exact, same_line_near in Hlt.
    congruence.
  - intros H. destruct (same_line a b) eqn:E; [|reflexivity].
    apply same_line_near, near_exact in E. lra.
Qed.

Lemma Sorted_snoc {A : Type} (R : A -> A -> Prop) p a b :
  Sorted R (p ++ [a]) -> R a b -> Sorted R ((p ++ [a]) ++ [b]).
Proof.
  induction p as [|x p IH]; simpl; intros Hs Hab.
  - repeat constructor. exact Hab.
  - inversion Hs as [|? ? Hs' Hhd]; subst. constructor; [now apply IH|].
    destruct p; simpl in *; inversion Hhd; now constructor.
Qed.

Lemma word_le_key a b : le_by word_key word_key_lt a b <-> word_le a b.
Proof.
  unfold le_by, word_key_lt, word_key, pair_lt, word_le; simpl.
  destruct (Qeq_bool (w_top b) (w_top a)) eqn:E.
  - apply Qeq_bool_iff in E. rewrite Qltb_ge. split.
    + intros H. right. split; [now symmetry | exact H].
    + intros [H|[_ H]]; [lra | exact H].
  - apply Qeq_bool_neq in E. rewrite Qltb_ge. split.
    + intros H. left. apply Qle_lteq in H as [H|H]; [exact H|].
      exfalso. apply E. now symmetry.
    + intros [H|[H _]]; [lra | exfalso; apply E; now symmetry].
Qed.

(** The sorted fragments are the input fragments, ordered by [(top, x0)]. *)
Lemma sort_words_spec words :
  Permutation (sort_words words) words /\ StronglySorted word_le (sort_words words).
Proof.
  split; [apply sorted_perm|].
  assert (H : StronglySorted (le_by word_key word_key_lt) (sort_words words)).
  { apply sorted_StronglySorted; [exact pair_lt_QQ_asym | exact pair_lt_QQ_trans]. }
  induction H; constructor; [assumption|].
  eapply Forall_impl; [|eassumption]. intros b Hb. now apply word_le_key.
Qed.

(** The line loop, from any state with a non-empty current line. *)
Lemma line_loop_spec ws :
  forall lines cur, cur <> [] -> Sorted near cur ->
  exists raw cur',
    foldM line_step ws (lines, cur) = Ok (lines ++ map sort_line raw, cur') /\
    concat (raw ++ [cur']) = cur ++ ws /\
    Forall (fun l => l <> [] /\ Sorted near l) (raw ++ [cur']) /\
    Sorted line_boundary (raw ++ [cur']) /\
    exists t, hd [] (raw ++ [cur']) = cur ++ t.
Proof.
  induction ws as [|w ws IH]; intros lines cur Hne Hs.
  - exists [], cur. simpl. rewrite !app_nil_r.
    repeat apply conj; auto; try solve [repeat constructor].
    exists []. now rewrite app_nil_r.
  - destruct (subscript_last_nonempty Hne) as (p & a & -> & Hlast).
    simpl. rewrite Hlast. simpl. destruct (same_line a w) eqn:E; simpl.
    + apply same_line_near in E.
      destruct (IH lines ((p ++ [a]) ++ [w])) as (raw & cur' & Hrun & Hcat & Hall & Hb & t & Ht).
      { now destruct p. }
      { now apply Sorted_snoc. }
      exists raw, cur'. repeat apply conj; auto.
      * rewrite Hcat. now rewrite <- app_assoc.
      * exists (w :: t). rewrite Ht. now rewrite <- app_assoc.
    + apply same_line_far in E.
      destruct (IH (lines ++ [sort_line (p ++ [a])]) [w]) as (raw & cur' & Hrun & Hcat & Hall & Hb & t & Ht).
      { discriminate. }
      { repeat constructor. }
      exists ((p ++ [a]) :: raw), cur'. repeat apply conj.
      * rewrite Hrun. simpl. now rewrite <- app_assoc.
      * simpl. now rewrite Hcat.
      * simpl. constructor; [split; assumption | assumption].
      * simpl. constructor; [assumption|].
        destruct (raw ++ [cur']) as [|l ls] eqn:El; [constructor|].
        constructor. simpl in Ht. subst l. now exists p, a, w, t.
      * exists []. simpl. now rewrite app_nil_r.
Qed.

(** C1 (as stated, refuted). On three fragments with tops 0, 1.5 and 3 the
    code keeps one line, because each fragment is within 2 units of the
    fragment before it, although the third is 3 units away from the line's
    first fragment; the first-fragment rule of the design document gives two
    lines. *)
Lemma line_assembly_ignores_drift_from_first :
  line_assembly drift_words = Ok [drift_words] /\
  line_assembly_first_anchor drift_words
  = Ok [[drift_word "a" 0 0; drift_word "b" 10 1.5]; [drift_word "c" 20 3]] /\
  apart (drift_word "a" 0 0) (drift_word "c" 20 3).
Proof.
  split; [vm_compute; reflexivity|]. split; vm_compute; reflexivity.
Qed.

(** C1 (amended). Line assembly cuts the fragments, sorted by [(top, x0)],
    into consecutive non-empty runs: a fragment stays on the current line
    exactly when its top is less than 2 units from the top of the line's
    LAST fragment (the fragment just before it in sorted order), and starts
    a new line exactly when that distance is 2 or more.  The distance is
    the double difference of the two tops without its sign; for the exact
    values of the tops, it is below 2 exactly when they differ by less
    than [2 - 2^-53].  Each run is then returned sorted by [x0]. *)
Theorem line_assembly_breaks_on_last_fragment (words : list Word) :
  words <> [] ->
  (forall a b, near a b <-> Qabs (w_top b - w_top a) < 2 - (1 # 2 ^ 53)) /\
  (forall a b, apart a b <-> 2 - (1 # 2 ^ 53) <= Qabs (w_top b - w_top a)) /\
  exists raw,
    line_assembly words = Ok (map sort_line raw) /\
    concat raw = sort_words words /\
    Permutation (sort_words words) words /\
    StronglySorted word_le (sort_words words) /\
    Forall (fun l => l <> [] /\ Sorted near l) raw /\
    Sorted line_boundary raw.
Proof.
  intros Hne. split; [exact near_exact|]. split; [exact apart_exact|].
  unfold line_assembly.
  pose proof (sorted_nonempty word_key word_key_lt Hne) as Hs.
  fold (sort_words words) in Hs.
  destruct (sort_words_spec words) as [Hperm Hsorted].
  destruct (sort_words words) as [|w0 ws] eqn:E; [congruence|]. simpl.
  destruct (@line_loop_spec ws [] [w0]) as (raw & cur' & Hrun & Hcat & Hall & Hb & _).
  { discriminate. }
  { repeat constructor. }
  rewrite Hrun. simpl. exists (raw ++ [cur']).
  rewrite map_app. repeat apply conj; auto.
Qed.

(** The amended rule at the stepped fragments: the first two share a
    line, the third starts the next one. *)
Lemma line_assembly_breaks_on_last_fragment_witness :
  line_assembly stepped_words
  = Ok [[drift_word "a" 0 (lit 0.3); drift_word "b" 10 (lit 2.3)];
        [drift_word "c" 20 (lit 4.3)]] /\
  (forall a b, near a b <-> Qabs (w_top b - w_top a) < 2 - (1 # 2 ^ 53)) /\
  (forall a b, apart a b <-> 2 - (1 # 2 ^ 53) <= Qabs (w_top b - w_top a)) /\
  exists raw,
    line_assembly stepped_words = Ok (map sort_line raw) /\
    concat raw = sort_words stepped_words /\
    Permutation (sort_words stepped_words) stepped_words /\
    StronglySorted word_le (sort_words stepped_words) /\
    Forall (fun l => l <> [] /\ Sorted near l) raw /\
    Sorted line_boundary raw.
Proof.
  split; [vm_compute; reflexivity|].
  apply (@line_assembly_breaks_on_last_fragment stepped_words). discriminate.
Defined.

End LineAssembly.

(* ===================================================================== *)
(** * The grouper: block assembly *)
(* ===================================================================== *)

Module BlockAssembly.
Import Py PdfProcessor GrouperSpec PyFacts LineAssembly.
Local Open Scope py_scope.
Local Open Scope Q_scope.


Lemma join_app sep (l1 l2 : list str) :
  l1 <> [] -> l2 <> [] -> join sep (l1 ++ l2) = join sep l1 ++ sep ++ join sep l2.
Proof.
  intros H1 H2. induction l1 as [|x l1 IH]; [congruence|].
  destruct l1 as [|y l1].
  - simpl. destruct l2; [congruence | reflexivity].
  - change (join sep ((x :: y :: l1) ++ l2))
      with (x ++ sep ++ join sep ((y :: l1) ++ l2)).
    rewrite IH by discriminate.
    change (join sep (x :: y :: l1)) with (x ++ sep ++ join sep (y :: l1)).
    now rewrite <- !app_assoc.
Qed.

Lemma join_In sep (l : list str) x : In x l -> occurs_in x (join sep l).
Proof.
  induction l as [|y l IH]; [contradiction|]. intros [->|Hin].
  - destruct l as [|z l].
    + exists [], []. simpl. now rewrite app_nil_r.
    + exists [], (sep ++ join sep (z :: l)). reflexivity.
  - destruct l as [|z l]; [contradiction|].
    destruct (IH Hin) as (pre & post & E).
    exists (y ++ sep ++ pre), post.
    change (join sep (y :: z :: l)) with (y ++ sep ++ join sep (z :: l)).
    rewrite E. now rewrite <- !app_assoc.
Qed.

Lemma concat_nonempty {A : Type} (ls : list (list A)) :
  ls <> [] -> Forall (fun l => l <> []) ls -> concat ls <> [].
Proof.
  intros Hne Hall. destruct ls as [|l ls]; [congruence|].
  inversion Hall; subst. simpl. destruct l; [congruence | discriminate].
Qed.

(** Joining the joined lines is joining all the words, when no line is
    empty. *)
Lemma block_text_flat (g : list (list Word)) :
  Forall (fun l => l <> []) g ->
  block_text g = join (s " ") (map w_text (concat g)).
Proof.
  unfold block_text. induction 1 as [|l g Hl Hg IH]; [reflexivity|].
  destruct g as [|l2 g].
  - simpl. now rewrite app_nil_r.
  - change (join (s " ") (map (fun ln => join (s " ") (map w_text ln)) (l :: l2 :: g)))
      with (join (s " ") (map w_text l) ++ s " "
            ++ join (s " ") (map (fun ln => join (s " ") (map w_text ln)) (l2 :: g))).
    rewrite IH. change (concat (l :: l2 :: g)) with (l ++ concat (l2 :: g)).
    rewrite map_app, join_app; [reflexivity | |].
    + destruct l; [congruence | discriminate].
    + assert (H : concat (l2 :: g) <> []) by (apply concat_nonempty; [discriminate | assumption]).
      destruct (concat (l2 :: g)); [congruence | discriminate].
Qed.

Lemma make_block_Ok (g : list (list Word)) (pg : Z) :
  g <> [] -> Forall (fun l => l <> []) g ->
  exists b, make_block g pg = Ok b /\ text b = block_text g /\ page_num b = Some pg.
Proof.
  intros Hne Hall. unfold make_block.
  pose proof (concat_nonempty Hne Hall) as Hc.
  destruct (concat g) as [|w0 ws]; [congruence|]. simpl.
  eexists. repeat apply conj; reflexivity.
Qed.

(** The block loop, from any state whose current block has lines. *)
Lemma block_loop_spec (pg : Z) lines :
  forall blocks cur,
    cur <> [] -> Forall (fun l => l <> []) cur -> Forall (fun l => l <> []) lines ->
    exists groups cur' bs,
      foldM (block_step pg) lines (blocks, cur) = Ok (blocks ++ bs, cur') /\
      mapM (fun g => make_block g pg) groups = Ok bs /\
      concat (groups ++ [cur']) = cur ++ lines /\
      Forall (fun g => g <> [] /\ Forall (fun l => l <> []) g) (groups ++ [cur']).
Proof.
  induction lines as [|ln lines IH]; intros blocks cur Hne Hcur Hlines.
  - exists [], cur, []. simpl. rewrite !app_nil_r.
    repeat apply conj; auto.
  - inversion Hlines as [|? ? Hln Hlines']; subst.
    destruct (subscript_last_nonempty Hne) as (p & prev & -> & Hlast).
    assert (Hprev : prev <> []).
    { apply Forall_app in Hcur as [_ Hp]. now inversion Hp. }
    simpl. rewrite Hlast. simpl.
    destruct ln as [|l0 ln']; [congruence|].
    destruct prev as [|p0 prev']; [congruence|]. simpl.
    destruct (is_new_block p0 l0) eqn:E; simpl.
    + destruct (@make_block_Ok (p ++ [p0 :: prev']) pg Hne Hcur) as (b & Hb & _).
      rewrite Hb. simpl.
      destruct (IH (blocks ++ [b]) [l0 :: ln']) as (groups & cur' & bs & Hrun & Hmk & Hcat & Hall);
        [discriminate | now repeat constructor | assumption |].
      exists ((p ++ [p0 :: prev']) :: groups), cur', (b :: bs).
      repeat apply conj.
      * rewrite Hrun. now rewrite <- app_assoc.
      * simpl. now rewrite Hb, Hmk.
      * simpl. now rewrite Hcat.
      * simpl. constructor; [split; assumption | assumption].
    + destruct (IH blocks ((p ++ [p0 :: prev']) ++ [l0 :: ln'])) as (groups & cur' & bs & Hrun & Hmk & Hcat & Hall).
      { now destruct p. }
      { apply Forall_app. split; [assumption | now repeat constructor]. }
      { assumption. }
      exists groups, cur', bs. repeat apply conj; auto.
      rewrite Hcat. now rewrite <- app_assoc.
Qed.

Lemma concat_map_perm {A : Type} (f : list A -> list A) (ls : list (list A)) :
  (forall l, Permutation (f l) l) -> Permutation (concat (map f ls)) (concat ls).
Proof.
  intros Hf. induction ls as [|l ls IH]; simpl; [reflexivity|].
  now apply Permutation_app.
Qed.

(** The lines hold every fragment once, and no line is empty. *)
Lemma line_assembly_lines (words : list Word) :
  words <> [] ->
  exists lines,
    line_assembly words = Ok lines /\
    Permutation (concat lines) words /\
    Forall (fun l => l <> []) lines.
Proof.
  intros Hne. unfold line_assembly.
  pose proof (sorted_nonempty word_key word_key_lt Hne) as Hs.
  pose proof (sorted_perm word_key word_key_lt words) as Hperm.
  fold (sort_words words) in Hs, Hperm.
  destruct (sort_words words) as [|w0 ws] eqn:E; [congruence|]. simpl.
  destruct (@line_loop_spec ws [] [w0]) as (raw & cur' & Hrun & Hcat & Hall & _);
    [discriminate | repeat constructor |].
  rewrite Hrun. simpl. exists (map sort_line (raw ++ [cur'])).
  rewrite map_app. repeat apply conj; [reflexivity | |].
  - rewrite <- map_app. rewrite concat_map_perm.
    + rewrite Hcat. exact Hperm.
    + intros l. apply sorted_perm.
  - rewrite <- map_app. apply Forall_map. eapply Forall_impl; [|exact Hall].
    intros l [Hl _]. now apply sorted_nonempty.
Qed.

(** The text and page of the blocks made from groups of non-empty lines. *)
Lemma made_blocks_text (pg : Z) groups :
  forall bs,
    mapM (fun g => make_block g pg) groups = Ok bs ->
    Forall (fun g => g <> [] /\ Forall (fun l => l <> []) g) groups ->
    Forall2 (fun g b =>
               text b = join (s " ") (map w_text (concat g)) /\
               page_num b = Some pg /\
               forall w, In w (concat g) -> occurs_in (w_text w) (text b))
            groups bs.
Proof.
  induction groups as [|g groups IH]; intros bs Hmk Hall.
  - inversion Hmk. constructor.
  - simpl in Hmk. apply bind_Ok in Hmk as (b & Hb & Hmk).
    apply bind_Ok in Hmk as (bs' & Hbs & Hmk). inversion Hmk; subst bs.
    inversion Hall as [|? ? [Hg1 Hg2] Hall']; subst.
    constructor; [|now apply IH].
    destruct (@make_block_Ok g pg Hg1 Hg2) as (b2 & Hb2 & Ht2 & Hp2).
    rewrite Hb in Hb2. inversion Hb2; subst b2.
    rewrite Ht2, block_text_flat by assumption. repeat apply conj; auto.
    intros w Hw. apply join_In. now apply in_map.
Qed.

(** C9. For a non-empty list of fragments the grouper returns: the lines
    hold every input fragment exactly once (a permutation); the lines are
    cut, in order, into non-empty groups, one per block, so each line is in
    exactly one block; there is at least one block; and the text of each
    block is the single-space join of the texts of exactly its own
    fragments, so each fragment's text occurs in the text of its block. *)
Theorem group_places_each_fragment_once (words : list Word) (pg : Z) :
  words <> [] ->
  exists lines groups blocks,
    line_assembly words = Ok lines /\
    _group_words_into_blocks words pg = Ok blocks /\
    Permutation (concat lines) words /\
    concat groups = lines /\
    Forall (fun g => g <> []) groups /\
    blocks <> [] /\
    Forall2 (fun g b =>
               text b = join (s " ") (map w_text (concat g)) /\
               page_num b = Some pg /\
               forall w, In w (concat g) -> occurs_in (w_text w) (text b))
            groups blocks.
Proof.
  intros Hne.
  destruct (line_assembly_lines Hne) as (lines & Hlines & Hperm & Hall).
  assert (Hl : lines <> []).
  { intros ->. simpl in Hperm. apply Permutation_nil in Hperm. congruence. }
  unfold _group_words_into_blocks. destruct words as [|w0 ws]; [congruence|].
  rewrite Hlines. simpl. unfold block_assembly.
  destruct lines as [|first rest]; [congruence|].
  inversion Hall as [|? ? Hfirst Hrest]; subst.
  destruct (@block_loop_spec pg rest [] [first]) as (groups & cur' & bs & Hrun & Hmk & Hcat & Hg);
    [discriminate | now repeat constructor | assumption |].
  rewrite Hrun. simpl.
  assert (Hcur : cur' <> [] /\ Forall (fun l => l <> []) cur').
  { apply Forall_app in Hg as [_ Hc]. now inversion Hc. }
  destruct Hcur as [Hc1 Hc2].
  destruct (@make_block_Ok cur' pg Hc1 Hc2) as (b & Hb & Hbt & Hbp).
  rewrite Hb. simpl.
  exists (first :: rest), (groups ++ [cur']), (bs ++ [b]).
  repeat apply conj; auto.
  - eapply Forall_impl; [|exact Hg]. now intros g [H _].
  - now destruct bs.
  - apply (@made_blocks_text pg); [|exact Hg].
    apply Forall2_mapM_Ok. apply Forall2_app.
    + now apply mapM_Ok_Forall2.
    + now repeat constructor.
Qed.

(** The grouper returns for every list of fragments: no subscript of its
    loops can fail. *)
Lemma group_always_returns (words : list Word) (pg : Z) :
  exists blocks, _group_words_into_blocks words pg = Ok blocks.
Proof.
  destruct words as [|w0 ws]; [exists []; reflexivity|].
  assert (Hne : w0 :: ws <> []) by discriminate.
  destruct (line_assembly_lines Hne) as (lines & Hlines & _ & Hall).
  unfold _group_words_into_blocks. rewrite Hlines. simpl. unfold block_assembly.
  destruct lines as [|first rest]; [exists []; reflexivity|].
  inversion Hall as [|? ? Hfirst Hrest]; subst.
  destruct (@block_loop_spec pg rest [] [first]) as (groups & cur' & bs & Hrun & _ & _ & Hg);
    [discriminate | now repeat constructor | assumption |].
  rewrite Hrun. simpl.
  apply Forall_app in Hg as [_ Hc]. inversion Hc as [|? ? [Hc1 Hc2] _]; subst.
  destruct (@make_block_Ok cur' pg Hc1 Hc2) as (b & Hb & _).
  rewrite Hb. simpl. eexists. reflexivity.
Qed.

(** The partition at the drifting fragments. *)
Lemma group_places_each_fragment_once_witness :
  drift_words <> [] /\
  exists lines groups blocks,
    line_assembly drift_words = Ok lines /\
    _group_words_into_blocks drift_words 1 = Ok blocks /\
    Permutation (concat lines) drift_words /\
    concat groups = lines /\
    Forall (fun g => g <> []) groups /\
    blocks <> [] /\
    Forall2 (fun g b =>
               text b = join (s " ") (map w_text (concat g)) /\
               page_num b = Some 1%Z /\
               forall w, In w (concat g) -> occurs_in (w_text w) (text b))
            groups blocks.
Proof.
  split; [discriminate|].
  apply (@group_places_each_fragment_once drift_words 1%Z). discriminate.
Defined.

End BlockAssembly.

(* ===================================================================== *)
(** * Heading candidates *)
(* ===================================================================== *)

Module Candidates.
Import Py Regex RegexFacts PdfProcessor HierarchyBuilder OutlineSpec PyFacts.
Local Open Scope Q_scope.


Lemma lang_dot_groups groups :
  Forall (fun g => g <> [] /\ Forall (fun c => isdecimal c = true) g) groups ->
  lang (Star (Cat (Lit ".") (Plus (Class isdecimal))))
       (concat (map (fun g => "."%char :: g) groups)).
Proof.
  induction 1 as [|g groups [Hne Hd] _ IH]; simpl; [constructor|].
  change ("."%char :: g ++ concat (map (fun g => "."%char :: g) groups))
    with (("."%char :: g) ++ concat (map (fun g => "."%char :: g) groups)).
  constructor; [|exact IH].
  change ("."%char :: g) with (["."%char] ++ g). constructor.
  - constructor. reflexivity.
  - now apply lang_plus_all.
Qed.

Lemma numbered_prefix_matches t :
  numbered_prefix t -> re_match outline_number_pattern t = true.
Proof.
  intros (d & groups & sp & rest & -> & Hd1 & Hd2 & Hg & Hs1 & Hs2).
  rewrite !app_assoc. apply re_match_prefix. rewrite <- !app_assoc.
  unfold outline_number_pattern. constructor; [now apply lang_plus_all|].
  constructor; [now apply lang_dot_groups | now apply lang_plus_all].
Qed.

(** What a heading candidate always has. *)
Lemma potential_heading_bounds f :
  _is_potential_heading f = true ->
  f_text f <> [] /\ (word_count f < 15)%nat.
Proof.
  unfold _is_potential_heading, disqualified.
  destruct (f_text f) as [|c t] eqn:Et; simpl; [discriminate|].
  destruct (20 <? word_count f)%nat; simpl; [discriminate|].
  destruct (is_toc f); simpl; [discriminate|].
  destruct (isdigit_char c && forallb isdigit_char t); [discriminate|].
  destruct (word_count f <? 15)%nat eqn:E.
  - intros _. split; [discriminate | now apply Nat.ltb_lt].
  - rewrite !andb_false_r. simpl. discriminate.
Qed.

(** C2 (as stated, refuted). The block ["1. Introduction"], in a regular
    font of size 12, passes the disqualifiers, has two words and begins
    with ["1."], yet it is not a heading candidate: after the digits the
    pattern wants whitespace (or a dot and more digits), not a dot and a
    space. *)
Lemma dot_after_number_is_not_a_prefix :
  let f := _get_block_features (plain_block "1. Introduction" 12) 595 in
  f_text f = s "1. Introduction" /\
  startswith (s "1.") (f_text f) = true /\
  disqualified f = false /\
  word_count f = 2%nat /\
  starts_with_number f = false /\
  _is_potential_heading f = false.
Proof. vm_compute. repeat split. Qed.

(** C2 (amended). A block that passes the disqualifiers (non-empty trimmed
    text, at most 20 words, not a table-of-contents entry, not purely
    numeric), whose trimmed text begins with digits, optionally followed by
    groups of a dot and digits, and then whitespace (as in ["1 Scope"] or
    ["1.2.3 Methods"]), and that has fewer than 15 words, is a heading
    candidate. *)
Theorem numbered_prefix_qualifies (b : Block) (page_width : Q) :
  let f := _get_block_features b page_width in
  f_text f <> [] ->
  (word_count f <= 20)%nat ->
  is_toc f = false ->
  isdigit (f_text f) = false ->
  numbered_prefix (f_text f) ->
  (word_count f < 15)%nat ->
  _is_potential_heading f = true.
Proof.
  intros f Hne Hwc Htoc Hnum Hpre H15.
  assert (Hs : starts_with_number f = true).
  { unfold f. simpl. now apply numbered_prefix_matches. }
  assert (Hd : disqualified f = false).
  { unfold disqualified. rewrite Htoc, Hnum.
    destruct (f_text f); [congruence|]. simpl.
    rewrite !orb_false_r. apply Nat.ltb_ge. exact Hwc. }
  unfold _is_potential_heading. rewrite Hd, Hs.
  apply Nat.ltb_lt in H15. rewrite H15.
  now destruct (Qgtb (f_font_size f) 14).
Qed.

(** The amended rule at ["1.2.3 Methods"]. *)
Lemma numbered_prefix_qualifies_witness :
  _is_potential_heading (_get_block_features (plain_block "1.2.3 Methods" 12) 595)
  = true.
Proof.
  apply (@numbered_prefix_qualifies (plain_block "1.2.3 Methods" 12) 595).
  - discriminate.
  - vm_compute. lia.
  - reflexivity.
  - reflexivity.
  - exists (s "1"), [s "2"; s "3"], (s " "), (s "Methods").
    repeat apply conj; try discriminate; try reflexivity;
      repeat constructor; discriminate.
  - vm_compute. lia.
Defined.

End Candidates.

(* ===================================================================== *)
(** * Title extraction *)
(* ===================================================================== *)

Module Title.
Import Py PdfProcessor HierarchyBuilder OutlineSpec PyFacts.
Local Open Scope py_scope.
Local Open Scope Q_scope.


Lemma title_score_formula b pw :
  title_score (_get_block_features b pw) = score_of b pw.
Proof.
  unfold title_score, score_of.
  destruct (is_centered _), (is_bold _); reflexivity.
Qed.

Lemma is_centered_iff b pw :
  is_centered (_get_block_features b pw) = true <-> centered b pw.
Proof. unfold centered. simpl. reflexivity. Qed.

Lemma is_bold_iff b pw :
  is_bold (_get_block_features b pw) = true <-> bold_font b.
Proof.
  unfold bold_font. simpl. rewrite orb_true_iff. split.
  - intros H. destruct (font_name b) as [name|]; simpl in H.
    + exists name. auto.
    + destruct H; discriminate.
  - intros (name & -> & H). exact H.
Qed.

(** A score is never NaN. *)
Lemma title_score_number f : title_score f <> NaN.
Proof.
  unfold title_score.
  destruct (is_centered f), (is_bold f); try discriminate; try apply rnd_number.
  pose proof (@rnd_number (f_font_size f * lit 1.5)) as H. simpl.
  destruct (rnd (f_font_size f * lit 1.5)) as [q|sa|]; [apply rnd_number | | congruence].
  simpl. discriminate.
Qed.

Lemma header_or_footer_zone b h :
  negb (_is_header_or_footer b h) = content_zone h b.
Proof.
  unfold _is_header_or_footer, content_zone, fgt.
  set (y := Fin (bbox_top (bbox b))).
  set (lo := fmul (Fin h) (Fin (lit 0.08))). set (hi := fmul (Fin h) (Fin (lit 0.92))).
  assert (Hy : y <> NaN) by discriminate.
  assert (Hlo : lo <> NaN) by apply fmul_number.
  assert (Hhi : hi <> NaN) by apply fmul_number.
  clearbody y lo hi. rewrite negb_orb.
  destruct (flt y lo) eqn:E1; destruct (flt hi y) eqn:E2; simpl.
  - apply flt_irrefl_fle in E1. now rewrite E1.
  - apply flt_irrefl_fle in E1. now rewrite E1.
  - apply flt_irrefl_fle in E2. rewrite E2. now rewrite andb_false_r.
  - apply flt_ge in E1; [|assumption|assumption]. apply flt_ge in E2; [|assumption|assumption].
    now rewrite E1, E2.
Qed.

Lemma title_loop pw blocks :
  forall acc,
    fold_left (title_step pw) (filter on_first_page blocks) acc
    = acc ++ map (title_pair pw) (filter is_title_candidate blocks).
Proof.
  induction blocks as [|b blocks IH]; intros acc; simpl.
  - now rewrite app_nil_r.
  - unfold is_title_candidate at 1. unfold on_first_page at 1.
    replace (on_page_1 b) with (get (page_num b) 1 =? 1)%Z
      by (unfold on_page_1; now destruct (page_num b)).
    destruct ((get (page_num b) 1 =? 1)%Z && negb (is_empty (strip (text b)))) eqn:E1; simpl.
    + rewrite IH. unfold title_step at 1. unfold Qgtb, Qltb. simpl.
      destruct (Qle_bool (bbox_top (bbox b)) 400); simpl; [|reflexivity].
      apply andb_true_iff in E1 as [_ E1]. apply negb_true_iff in E1.
      rewrite E1. simpl. rewrite Nat.ltb_antisym.
      destruct (length (split (strip (text b))) <=? 25)%nat; simpl; [|reflexivity].
      now rewrite <- app_assoc.
    + apply IH.
Qed.

(** [max] returns the first element with the greatest key. *)
Lemma max_from_spec {A : Type} (score : A -> float) cs :
  forall pre best mid,
    (forall x, In x (best :: cs) -> score x <> NaN) ->
    (forall x, In x pre -> below (score x) (score best)) ->
    (forall x, In x mid -> at_most (score x) (score best)) ->
    exists before after,
      pre ++ best :: mid ++ cs = before ++ max_from score best cs :: after /\
      (forall x, In x before -> below (score x) (score (max_from score best cs))) /\
      (forall x, In x after -> at_most (score x) (score (max_from score best cs))).
Proof.
  unfold below, at_most.
  induction cs as [|c cs IH]; intros pre best mid Hnum Hpre Hmid; simpl.
  - exists pre, mid. rewrite app_nil_r. auto.
  - unfold fgt. destruct (flt (score best) (score c)) eqn:E.
    + destruct (IH (pre ++ best :: mid) c []) as (before & after & Heq & Hb & Ha).
      * intros x Hx. apply Hnum. now right.
      * intros x Hx. apply in_app_or in Hx as [Hx|[<-|Hx]]; [|assumption|].
        -- eapply flt_fle_trans; [apply (Hpre x Hx) | now apply flt_fle].
        -- eapply fle_flt_trans; [apply (Hmid x Hx) | exact E].
      * intros x [].
      * exists before, after. split; [|auto].
        rewrite <- Heq. simpl. now rewrite <- app_assoc.
    + apply flt_ge in E; [|apply Hnum; simpl; auto|apply Hnum; simpl; auto].
      destruct (IH pre best (mid ++ [c])) as (before & after & Heq & Hb & Ha).
      * intros x [<-|Hx]; apply Hnum; simpl; auto.
      * assumption.
      * intros x Hx. apply in_app_or in Hx as [Hx|[<-|[]]]; auto.
      * exists before, after. split; [|auto].
        rewrite <- Heq. now rewrite <- app_assoc.
Qed.

Lemma dropwhile_app_stop {A : Type} (p : A -> bool) l c r :
  p c = false -> dropwhile p (l ++ c :: r) = dropwhile p l ++ c :: r.
Proof.
  intros Hc. induction l as [|x l IH]; simpl.
  - now rewrite Hc.
  - destruct (p x); [exact IH | reflexivity].
Qed.

Lemma dropwhile_head {A : Type} (p : A -> bool) l :
  match dropwhile p l with [] => True | c :: _ => p c = false end.
Proof.
  induction l as [|x l IH]; simpl; [exact I|].
  destruct (p x) eqn:E; [exact IH | exact E].
Qed.

Lemma strip_trimmed t : trimmed (strip t).
Proof.
  unfold strip, rstrip, lstrip, trimmed.
  pose proof (dropwhile_head isspace t) as Hh.
  destruct (dropwhile isspace t) as [|c u]; [simpl; auto|].
  split.
  - simpl. rewrite dropwhile_app_stop by exact Hh.
    rewrite rev_app_distr. simpl. exact Hh.
  - rewrite rev_involutive. apply dropwhile_head.
Qed.

Lemma trimmed_strip t : trimmed t -> strip t = t.
Proof.
  intros [Hh Hl]. unfold strip, lstrip, rstrip.
  assert (E : dropwhile isspace t = t).
  { destruct t as [|c u]; [reflexivity|]. simpl. now rewrite Hh. }
  rewrite E.
  assert (E' : dropwhile isspace (rev t) = rev t).
  { destruct (rev t) as [|c u]; [reflexivity|]. simpl. now rewrite Hl. }
  rewrite E'. apply rev_involutive.
Qed.

Lemma replace_newline_keeps c :
  isspace c = false -> (if Ascii.eqb c newline then space else c) = c.
Proof.
  intros H. destruct (Ascii.eqb_spec c newline) as [->|]; [|reflexivity].
  discriminate H.
Qed.

Lemma replace_trimmed t : trimmed t -> trimmed (replace_char newline space t).
Proof.
  intros [Hh Hl]. unfold replace_char, trimmed. rewrite <- map_rev. split.
  - destruct t as [|c u]; [exact I|]. simpl. now rewrite replace_newline_keeps.
  - destruct (rev t) as [|c u]; [exact I|]. simpl. now rewrite replace_newline_keeps.
Qed.

Lemma max_from_In {A : Type} (score : A -> float) cs :
  forall best, In (max_from score best cs) (best :: cs).
Proof.
  induction cs as [|c cs IH]; intros best; simpl; [auto|].
  destruct (fgt (score c) (score best)).
  - right. apply IH.
  - destruct (IH best) as [H|H]; auto.
Qed.

Lemma extract_title_trimmed blocks pw : trimmed (_extract_title blocks pw).
Proof.
  unfold _extract_title.
  destruct (filter on_first_page blocks) as [|b0 bs] eqn:E; [vm_compute; auto|].
  rewrite <- E, (title_loop pw blocks []). simpl.
  destruct (map (title_pair pw) (filter is_title_candidate blocks)) as [|c cs] eqn:Ec;
    [vm_compute; auto|].
  pose proof (max_from_In fst cs c) as Hin. rewrite <- Ec in Hin.
  apply in_map_iff in Hin as (b & <- & _). apply strip_trimmed.
Qed.

(** What [_extract_title] returns for any list of blocks. *)
Lemma extract_title_first_best blocks pw :
  let candidates := filter is_title_candidate blocks in
  (candidates = [] -> _extract_title blocks pw = s "Untitled Document") /\
  (candidates <> [] ->
   exists before c after,
     candidates = before ++ c :: after /\
     _extract_title blocks pw = strip (text c) /\
     (forall x, In x before -> below (score_of x pw) (score_of c pw)) /\
     (forall x, In x after -> at_most (score_of x pw) (score_of c pw))).
Proof.
  intros candidates. unfold _extract_title. split.
  - intros Hnil. destruct (filter on_first_page blocks) as [|b0 bs] eqn:E; [reflexivity|].
    rewrite <- E, (title_loop pw blocks []). fold candidates. now rewrite Hnil.
  - intros Hne.
    destruct (filter on_first_page blocks) as [|b0 bs] eqn:E.
    { exfalso. apply Hne. pose proof (title_loop pw blocks []) as H.
      rewrite E in H. simpl in H. fold candidates in H.
      destruct candidates; [reflexivity | discriminate]. }
    rewrite <- E, (title_loop pw blocks []). fold candidates. simpl.
    destruct candidates as [|c0 cs]; [congruence|]. simpl.
    destruct (@max_from_spec _ fst (map (title_pair pw) cs) [] (title_pair pw c0) [])
      as (before & after & Heq & Hb & Ha).
    { intros x Hx.
      change (In x (map (title_pair pw) (c0 :: cs))) in Hx.
      apply in_map_iff in Hx as (b & <- & _). apply title_score_number. }
    { intros x []. }
    { intros x []. }
    simpl in Heq. change (title_pair pw c0 :: map (title_pair pw) cs)
      with (map (title_pair pw) (c0 :: cs)) in Heq.
    apply map_eq_app in Heq as (l1 & l2 & Hl & H1 & H2).
    apply map_eq_cons in H2 as (c & l3 & -> & Hc & H3).
    exists l1, c, l3. rewrite <- Hc in *. subst before after.
    repeat apply conj; [assumption | reflexivity | |].
    + intros x Hx. rewrite <- !title_score_formula.
      apply (Hb (title_pair pw x)). now apply in_map.
    + intros x Hx. rewrite <- !title_score_formula.
      apply (Ha (title_pair pw x)). now apply in_map.
Qed.

Lemma filter_filter {A : Type} (p q : A -> bool) l :
  filter p (filter q l) = filter (fun x => q x && p x) l.
Proof.
  induction l as [|x l IH]; simpl; [reflexivity|].
  destruct (q x); simpl; [destruct (p x); now rewrite IH | exact IH].
Qed.

Lemma core_content_blocks_zone pages page0 :
  core_content_blocks_of pages page0
  = filter (content_zone (get (height page0) 842)) (blocks_of_pages pages).
Proof.
  unfold core_content_blocks_of, all_blocks_of, blocks_of_pages.
  rewrite flat_map_concat_map.
  replace (map (fun pg => get (text_blocks pg) []) pages)
    with (map (fun pg => match text_blocks pg with Some bs => bs | None => [] end) pages)
    by (apply map_ext; intros pg; now destruct (text_blocks pg)).
  apply filter_ext. intros b. apply header_or_footer_zone.
Qed.

(** C8. [build] chooses the title among the blocks of all pages that lie
    outside the header and footer zones measured on the first page's
    height, are on page 1, have non-empty trimmed text, a top of at most
    400 and at most 25 words, taken in the order met.  A candidate's score
    is its font size, times 1.5 when it is centered, then times 1.2 when
    it is bold (its font name holds "bold" or "black"), each product
    being the double one.  The returned title is
    the trimmed text of the first candidate with the greatest score (every
    earlier candidate scores strictly less, every later one at most as
    much), with newlines replaced by spaces; without candidates it is
    ["Untitled Document"].  [_extract_title] chooses in the same way among
    the blocks it is given. *)
Theorem title_is_first_best_candidate :
  (forall KMeans_fit page0 rest r,
     build KMeans_fit (page0 :: rest) = Ok r ->
     let pw := get (width page0) 595 in
     let h := get (height page0) 842 in
     let candidates :=
       filter (fun b => content_zone h b && is_title_candidate b)
              (blocks_of_pages (page0 :: rest)) in
     (candidates = [] -> title r = s "Untitled Document") /\
     (candidates <> [] ->
      exists before c after,
        candidates = before ++ c :: after /\
        title r = replace_char newline space (strip (text c)) /\
        (forall x, In x before -> below (score_of x pw) (score_of c pw)) /\
        (forall x, In x after -> at_most (score_of x pw) (score_of c pw)))) /\
  (forall blocks pw,
     let candidates := filter is_title_candidate blocks in
     (candidates = [] -> _extract_title blocks pw = s "Untitled Document") /\
     (candidates <> [] ->
      exists before c after,
        candidates = before ++ c :: after /\
        _extract_title blocks pw = strip (text c) /\
        (forall x, In x before -> below (score_of x pw) (score_of c pw)) /\
        (forall x, In x after -> at_most (score_of x pw) (score_of c pw)))) /\
  (forall b pw,
     let f := _get_block_features b pw in
     (is_centered f = true <-> centered b pw) /\
     (is_bold f = true <-> bold_font b) /\
     f_font_size f = match font_size b with Some size => size | None => 0 end /\
     title_score f = score_of b pw).
Proof.
  split; [|split].
  - intros km page0 rest r H pw h candidates.
    assert (Ht : title r = replace_char newline space
                   (_extract_title (core_content_blocks_of (page0 :: rest) page0) pw)).
    { unfold build in H.
      apply bind_Ok in H as (o1 & _ & H). apply bind_Ok in H as (o2 & _ & H).
      apply bind_Ok in H as (o3 & _ & H). inversion H; subst r. simpl.
      apply trimmed_strip, replace_trimmed, extract_title_trimmed. }
    rewrite core_content_blocks_zone in Ht. fold h in Ht.
    destruct (extract_title_first_best
                (filter (content_zone h) (blocks_of_pages (page0 :: rest))) pw) as [Hnil Hsome].
    rewrite filter_filter in Hnil, Hsome. fold candidates in Hnil, Hsome.
    split.
    + intros Hc. rewrite Ht, (Hnil Hc). reflexivity.
    + intros Hc. destruct (Hsome Hc) as (before & c & after & Heq & Hx & Hb & Ha).
      exists before, c, after. rewrite Ht, Hx. auto.
  - intros blocks pw. apply extract_title_first_best.
  - intros b pw f. split; [apply is_centered_iff|]. split; [apply is_bold_iff|].
    split; [unfold f; simpl; now destruct (font_size b) | apply title_score_formula].
Qed.

End Title.

(* ===================================================================== *)
(** * Level assignment *)
(* ===================================================================== *)

Module Levels.
Import Py PdfProcessor HierarchyBuilder OutlineSpec PyFacts.
Local Open Scope py_scope.
Local Open Scope Q_scope.


Lemma dict_get_set {V : Type} (d : list (Q * V)) k v q dflt :
  dict_get (dict_set d k v) q dflt
  = if Qeq_bool k q then v else dict_get d q dflt.
Proof.
  induction d as [|[k' v'] d IH]; simpl; [reflexivity|].
  destruct (Qeq_bool k' k) eqn:E1; simpl.
  - destruct (Qeq_bool k' q) eqn:E2, (Qeq_bool k q) eqn:E3; try reflexivity;
      exfalso; qreflect.
    + apply E3. now rewrite <- E1.
    + apply E2. now rewrite E1.
  - rewrite IH. destruct (Qeq_bool k' q) eqn:E2, (Qeq_bool k q) eqn:E3; try reflexivity.
    exfalso. qreflect. apply E1. now rewrite E2, E3.
Qed.

Lemma combine_app {A B : Type} (l1 l2 : list A) (m1 m2 : list B) :
  length l1 = length m1 ->
  combine (l1 ++ l2) (m1 ++ m2) = combine l1 m1 ++ combine l2 m2.
Proof.
  revert m1. induction l1 as [|x l1 IH]; intros [|y m1] H; try discriminate.
  - reflexivity.
  - simpl. f_equal. apply IH. now inversion H.
Qed.

Lemma enumerate_snoc {A : Type} (l : list A) x :
  enumerate (l ++ [x]) = enumerate l ++ [(length l, x)].
Proof.
  unfold enumerate. rewrite length_app. simpl.
  rewrite Nat.add_1_r, seq_S. simpl.
  rewrite combine_app by apply length_seq. reflexivity.
Qed.

Lemma size_to_level_snoc l x :
  size_to_level_of (l ++ [x])
  = dict_set (size_to_level_of l) x (fmt_level (length l + 1)).
Proof.
  unfold size_to_level_of. rewrite enumerate_snoc, fold_left_app. reflexivity.
Qed.

Lemma StronglySorted_snoc_inv {A : Type} (R : A -> A -> Prop) l x :
  StronglySorted R (l ++ [x]) -> StronglySorted R l /\ Forall (fun y => R y x) l.
Proof.
  induction l as [|y l IH]; simpl; intros H.
  - split; constructor.
  - inversion H as [|? ? Hs Hall]; subst. destruct (IH Hs) as [H1 H2].
    apply Forall_app in Hall as [Hall Hx]. inversion Hx; subst.
    split; constructor; assumption.
Qed.

Lemma rank_desc_snoc l x q :
  rank_desc (l ++ [x]) q = (rank_desc l q + (if Qle_bool q x then 1 else 0))%nat.
Proof.
  unfold rank_desc. rewrite filter_app, length_app. simpl.
  now destruct (Qle_bool q x).
Qed.

Lemma rank_desc_all l q :
  Forall (fun y => q <= y) l -> rank_desc l q = length l.
Proof.
  unfold rank_desc. induction 1 as [|y l Hy _ IH]; simpl; [reflexivity|].
  apply Qle_bool_iff in Hy. rewrite Hy. simpl. now rewrite IH.
Qed.

Lemma rank_desc_perm l l' q : Permutation l l' -> rank_desc l q = rank_desc l' q.
Proof.
  unfold rank_desc. induction 1; simpl.
  - reflexivity.
  - destruct (Qle_bool q x); simpl; congruence.
  - destruct (Qle_bool q x), (Qle_bool q y); reflexivity.
  - congruence.
Qed.

(** Looking a center up in the level table gives its rank. *)
Lemma level_lookup l :
  forall q dflt,
    StronglySorted (le_by (fun x => x) Qgtb) l ->
    Exists (fun c => c == q) l ->
    dict_get (size_to_level_of l) q dflt = fmt_level (rank_desc l q).
Proof.
  induction l as [|x l IH] using rev_ind; intros q dflt Hs Hex.
  - inversion Hex.
  - apply StronglySorted_snoc_inv in Hs as [Hs Hall].
    rewrite size_to_level_snoc, dict_get_set, rank_desc_snoc.
    assert (Hall' : Forall (fun y => x <= y) l).
    { eapply Forall_impl; [|exact Hall]. intros y Hy.
      unfold le_by in Hy. now apply Qgtb_le in Hy. }
    destruct (Qeq_bool x q) eqn:E.
    + apply Qeq_bool_iff in E.
      rewrite rank_desc_all.
      * assert (Hq : Qle_bool q x = true) by (apply Qle_bool_iff; lra).
        now rewrite Hq.
      * eapply Forall_impl; [|exact Hall']. intros y Hy. simpl in Hy. lra.
    + apply Qeq_bool_neq in E.
      assert (Hex' : Exists (fun c => c == q) l).
      { apply Exists_app in Hex as [H|H]; [exact H|].
        inversion H as [? ? Hx|? ? Hx]; subst; [contradiction | inversion Hx]. }
      assert (Hq : Qle_bool q x = false).
      { destruct (Qle_bool q x) eqn:Eq; [|reflexivity].
        apply Qle_bool_iff in Eq. exfalso.
        apply Exists_exists in Hex' as (y & Hy & Hyq).
        rewrite Forall_forall in Hall'. specialize (Hall' y Hy).
        apply E. lra. }
      rewrite Hq, Nat.add_0_r. now apply IH.
Qed.

Lemma rank_desc_bounds l q :
  Exists (fun c => c == q) l -> (1 <= rank_desc l q <= length l)%nat.
Proof.
  unfold rank_desc. intros Hex. split; [|apply filter_length_le].
  induction Hex as [x l Hx|x l _ IH]; simpl.
  - assert (H : Qle_bool q x = true) by (apply Qle_bool_iff; lra).
    rewrite H. simpl. lia.
  - destruct (Qle_bool q x); simpl; lia.
Qed.

Lemma fmt_level_upto_3 n :
  (1 <= n <= 3)%nat -> In (fmt_level n) [s "H1"; s "H2"; s "H3"].
Proof.
  intros H. assert (E : n = 1%nat \/ n = 2%nat \/ n = 3%nat) by lia.
  destruct E as [-> | [-> | ->]]; simpl; auto.
Qed.

Lemma dedup_sorted_nonempty l : l <> [] -> dedup_sorted l <> [].
Proof.
  induction l as [|x l IH]; [congruence|]. intros _. simpl.
  destruct l as [|y l]; [discriminate|].
  destruct (Qeq_bool x y); [apply IH; discriminate | discriminate].
Qed.

Lemma dedup_sorted_length l : (length (dedup_sorted l) <= length l)%nat.
Proof.
  induction l as [|x l IH]; [simpl; lia|].
  simpl. destruct l as [|y l]; [simpl; lia|].
  destruct (Qeq_bool x y); simpl in *; lia.
Qed.

Lemma np_unique_count xs :
  xs <> [] -> (1 <= length (np_unique xs) <= length xs)%nat.
Proof.
  intros Hne. unfold np_unique. split.
  - pose proof (sorted_nonempty (fun x => x) Qltb Hne) as H1.
    apply dedup_sorted_nonempty in H1.
    destruct (dedup_sorted _); [congruence | simpl; lia].
  - rewrite <- (sorted_length (fun x : Q => x) Qltb xs). apply dedup_sorted_length.
Qed.

Lemma mapM_total {A B : Type} (f : A -> result B) (P : A -> B -> Prop) l :
  (forall x, In x l -> exists y, f x = Ok y /\ P x y) ->
  exists ys, mapM f l = Ok ys /\ Forall2 P l ys.
Proof.
  induction l as [|x l IH]; intros H.
  - exists []. split; [reflexivity | constructor].
  - destruct (H x (or_introl eq_refl)) as (y & Hy & Hp).
    destruct IH as (ys & Hys & Hall); [intros z Hz; apply H; now right|].
    exists (y :: ys). simpl. rewrite Hy, Hys. split; [reflexivity | now constructor].
Qed.

Lemma Forall2_combine_snd {A B C : Type} (Q : B -> C -> Prop) :
  forall (l1 : list A) (l2 : list B) (out : list C),
    length l1 = length l2 ->
    Forall2 (fun ab c => Q (snd ab) c) (combine l1 l2) out ->
    Forall2 Q l2 out.
Proof.
  induction l1 as [|a l1 IH]; intros [|b l2] out Hlen H; try discriminate.
  - inversion H. constructor.
  - simpl in H. inversion H; subst. constructor; [assumption|].
    apply IH; [now inversion Hlen | assumption].
Qed.

Lemma enumerate_index {A : Type} (l : list A) i x :
  In (i, x) (enumerate l) -> (i < length l)%nat.
Proof.
  unfold enumerate. intros H. apply in_combine_l in H. apply in_seq in H. lia.
Qed.

(** One candidate, under the documented shape of the model. *)
Lemma leveled_entry_Ok (model : KMeansModel) (k n : nat) (ih : nat * Features) :
  well_shaped model k n -> (fst ih < n)%nat -> has_page (snd ih) ->
  exists e,
    leveled_entry model
      (size_to_level_of (sorted (fun x => x) Qgtb (cluster_centers_ model))) k ih
    = Ok e /\ leveled_as model ih e.
Proof.
  intros (Hc & Hl & Hlt) Hi Hpage. destruct ih as [i h]. simpl in Hi, Hpage.
  unfold has_page in Hpage.
  unfold leveled_entry, subscript.
  destruct (nth_error (labels_ model) i) as [lbl|] eqn:El.
  2:{ apply nth_error_None in El. lia. }
  assert (Hlbl : (lbl < k)%nat).
  { rewrite Forall_forall in Hlt. apply Hlt. eapply nth_error_In; eauto. }
  simpl. destruct (nth_error (cluster_centers_ model) lbl) as [c|] eqn:Ec.
  2:{ apply nth_error_None in Ec. lia. }
  simpl. destruct (page_num (original_block h)) as [pn|] eqn:Epn; [|congruence].
  simpl. eexists. split; [reflexivity|].
  exists lbl, c. repeat apply conj; try reflexivity; try assumption. simpl.
  pose proof (sorted_perm (fun x : Q => x) Qgtb (cluster_centers_ model)) as Hperm.
  rewrite level_lookup.
  - f_equal. now apply rank_desc_perm.
  - apply sorted_StronglySorted.
    + intros a b H. unfold Qgtb in *. qsolve.
    + intros a b d H1 H2. unfold Qgtb in *. qsolve.
  - apply Exists_exists. exists c. split; [|reflexivity].
    eapply Permutation_in; [symmetry; exact Hperm|]. eapply nth_error_In; eauto.
Qed.

Lemma leveled_as_level (model : KMeansModel) (k n : nat) ih e :
  well_shaped model k n -> (k <= 3)%nat -> leveled_as model ih e ->
  In (level e) [s "H1"; s "H2"; s "H3"].
Proof.
  intros (Hc & _ & _) Hk (lbl & c & _ & Hcen & -> & _).
  apply fmt_level_upto_3.
  assert (Hex : Exists (fun c' => c' == c) (cluster_centers_ model)).
  { apply Exists_exists. exists c. split; [|reflexivity]. eapply nth_error_In; eauto. }
  pose proof (rank_desc_bounds Hex). lia.
Qed.

(** What a successful run of [_assign_heading_levels] returned. *)
Lemma assign_Ok_inv KMeans_fit hc out :
  _assign_heading_levels KMeans_fit hc = Ok out ->
  (hc = [] /\ out = []) \/
  (exists h pn, hc = [h] /\ page_num (original_block h) = Some pn /\
                out = [ {| level := s "H1"; e_text := f_text h;
                           page := pn; y_pos := None |} ]) \/
  ((2 <= length hc)%nat /\
   Forall2 (fun h e =>
              e_text e = f_text h /\
              page_num (original_block h) = Some (page e) /\
              y_pos e = Some (bbox_top (bbox (original_block h))))
           hc out).
Proof.
  intros H. destruct hc as [|h1 [|h2 hc]].
  - left. inversion H. auto.
  - right; left. simpl in H.
    destruct (page_num (original_block h1)) as [pn|] eqn:Epn; [|discriminate].
    exists h1, pn. inversion H. auto.
  - right; right. split; [simpl; lia|].
    unfold _assign_heading_levels in H.
    set (sizes := map f_font_size (h1 :: h2 :: hc)) in *.
    assert (Hk : (1 <= length (np_unique sizes))%nat)
      by (apply np_unique_count; discriminate).
    destruct (Nat.eqb_spec (Nat.min (length (np_unique sizes)) 3) 0) as [E|_]; [lia|].
    apply mapM_Ok_Forall2 in H.
    apply Forall2_combine_snd with (l1 := seq 0 (length (h1 :: h2 :: hc)));
      [apply length_seq|].
    eapply Forall2_impl; [|exact H]. intros [i h] e He. simpl.
    unfold leveled_entry in He.
    apply bind_Ok in He as (lbl & _ & He). apply bind_Ok in He as (c & _ & He).
    destruct (page_num (original_block h)) as [pn|] eqn:Epn; [|discriminate].
    inversion He; subst e. simpl. auto.
Qed.

Lemma dedup_sorted_In l x : In x (dedup_sorted l) -> In x l.
Proof.
  induction l as [|y l IH]; [auto|]. simpl.
  destruct l as [|z l]; [auto|].
  destruct (Qeq_bool y z).
  - intros H. right. now apply IH.
  - intros [H|H]; [now left | right; now apply IH].
Qed.

Lemma dedup_sorted_InA l x : InA Qeq x (dedup_sorted l) <-> InA Qeq x l.
Proof.
  induction l as [|y l IH]; [reflexivity|]. simpl.
  destruct l as [|z l]; [reflexivity|].
  destruct (Qeq_bool y z) eqn:E.
  - rewrite IH. apply Qeq_bool_iff in E. split; intros H.
    + now right.
    + inversion H as [? ? Hx|? ? Hx]; subst; [|exact Hx].
      left. now rewrite Hx.
  - split; intros H; inversion H as [? ? Hx|? ? Hx]; subst.
    + now left.
    + right. now apply IH.
    + now left.
    + right. now apply IH.
Qed.

Lemma dedup_sorted_strict l :
  StronglySorted Qle l -> StronglySorted Qlt (dedup_sorted l).
Proof.
  induction 1 as [|y l Hs IH Hall]; [constructor|]. simpl.
  destruct l as [|z l]; [repeat constructor|].
  destruct (Qeq_bool y z) eqn:E; [exact IH|].
  apply Qeq_bool_neq in E. constructor; [exact IH|].
  apply Forall_forall. intros w Hw. apply dedup_sorted_In in Hw.
  inversion Hall as [|? ? Hyz Hall']; subst.
  inversion Hs as [|? ? _ Hz]; subst.
  assert (Hzw : z <= w).
  { destruct Hw as [->|Hw]; [lra|]. rewrite Forall_forall in Hz. now apply Hz. }
  apply Qle_lteq in Hyz as [Hyz|Hyz]; [lra | contradiction].
Qed.

Lemma strict_NoDupA l : StronglySorted Qlt l -> NoDupA Qeq l.
Proof.
  induction 1 as [|y l _ IH Hall]; constructor; [|exact IH].
  intros Hin. apply InA_alt in Hin as (z & Hyz & Hz).
  rewrite Forall_forall in Hall. specialize (Hall z Hz). lra.
Qed.

(** [np.unique] lists every distinct value once. *)
Lemma np_unique_distinct xs :
  NoDupA Qeq (np_unique xs) /\
  forall x, InA Qeq x (np_unique xs) <-> InA Qeq x xs.
Proof.
  unfold np_unique. split.
  - apply strict_NoDupA, dedup_sorted_strict.
    assert (H : StronglySorted (le_by (fun x : Q => x) Qltb) (sorted (fun x => x) Qltb xs)).
    { apply sorted_StronglySorted; [intros a b H | intros a b c H1 H2]; qsolve. }
    induction H; constructor; [assumption|].
    eapply Forall_impl; [|eassumption]. intros b Hb. unfold le_by in Hb. qsolve.
  - intros x. rewrite dedup_sorted_InA, !InA_alt.
    pose proof (sorted_perm (fun x : Q => x) Qltb xs) as Hp.
    split; intros (y & Hy & Hin); exists y; split; try assumption.
    + eapply Permutation_in; eauto.
    + eapply Permutation_in; [symmetry|]; eauto.
Qed.

Lemma Qle_bool_false a b : b < a -> Qle_bool a b = false.
Proof.
  intros H. destruct (Qle_bool a b) eqn:E; [|reflexivity].
  apply Qle_bool_iff in E. lra.
Qed.

Lemma Qeq_bool_differ a b : ~ a == b -> Qeq_bool a b = false.
Proof.
  intros H. destruct (Qeq_bool a b) eqn:E; [|reflexivity].
  apply Qeq_bool_iff in E. contradiction.
Qed.

Lemma nth_error_3 {A : Type} (a b c : A) m x :
  nth_error [a; b; c] m = Some x ->
  (m = 0%nat /\ x = a) \/ (m = 1%nat /\ x = b) \/ (m = 2%nat /\ x = c).
Proof.
  destruct m as [|[|[|m]]]; simpl; intros H.
  - inversion H. auto.
  - inversion H. auto.
  - inversion H. auto.
  - destruct m; discriminate.
Qed.

Ltac decide_Qle :=
  repeat match goal with
  | |- context [Qle_bool ?x ?y] =>
      first [ rewrite (proj2 (Qle_bool_iff x y)) by lra
            | rewrite (@Qle_bool_false x y) by lra ]
  end.

(** Two or more candidates, under the documented shape of the model. *)
Lemma assign_levels_many :
  forall KMeans_fit hc,
     (2 <= length hc)%nat ->
     let sizes := map f_font_size hc in
     let k := Nat.min (length (np_unique sizes)) 3 in
     let model := KMeans_fit k sizes in
     well_shaped model k (length hc) ->
     Forall has_page hc ->
     (1 <= k <= 3)%nat /\
     exists out,
       _assign_heading_levels KMeans_fit hc = Ok out /\
       Forall2 (leveled_as model) (enumerate hc) out /\
       Forall (fun e => In (level e) [s "H1"; s "H2"; s "H3"]) out.
Proof.
  intros km hc Hlen sizes k model Hshape Hpages.
  assert (Hne : sizes <> []) by (unfold sizes; destruct hc; [simpl in Hlen; lia | discriminate]).
  pose proof (np_unique_count Hne) as Hcount.
  assert (Hk : (1 <= k <= 3)%nat) by (unfold k; lia).
  split; [exact Hk|].
  destruct (@mapM_total _ _
              (leveled_entry model
                 (size_to_level_of (sorted (fun x => x) Qgtb (cluster_centers_ model))) k)
              (leveled_as model) (enumerate hc)) as (out & Hout & Hall).
  { intros [i h] Hin. apply leveled_entry_Ok with (n := length hc); [exact Hshape| |].
    - simpl. eapply enumerate_index; eauto.
    - simpl. rewrite Forall_forall in Hpages. apply Hpages.
      unfold enumerate in Hin. now apply in_combine_r in Hin. }
  exists out. repeat apply conj; [|exact Hall|].
  - destruct hc as [|h1 [|h2 hc]]; [simpl in Hlen; lia | simpl in Hlen; lia|].
    unfold _assign_heading_levels. fold sizes. fold k.
    destruct (Nat.eqb_spec k 0) as [E|_]; [lia|]. exact Hout.
  - clear Hout. induction Hall as [|ih e l l' He _ IH]; constructor; [|exact IH].
    eapply leveled_as_level; eauto. lia.
Qed.

(** Level assignment for candidates that carry a page number: no
    candidate gives no entry; with two or more candidates the model is
    fitted with [k = min(number of distinct sizes, 3)] clusters (between 1
    and 3), and, when the fitted model has the documented shape, every
    candidate gets the level ["H"] followed by the rank of its cluster's
    center among the centers in descending order, which is one of
    ["H1"], ["H2"], ["H3"]; and three candidates of sizes 18, 14 and 10,
    each lying on its own center, get ["H1"], ["H2"], ["H3"]. *)
Lemma levels_follow_descending_centers :
  (forall KMeans_fit, _assign_heading_levels KMeans_fit [] = Ok []) /\
  (forall KMeans_fit hc,
     (2 <= length hc)%nat ->
     let sizes := map f_font_size hc in
     let k := Nat.min (length (np_unique sizes)) 3 in
     let model := KMeans_fit k sizes in
     well_shaped model k (length hc) ->
     Forall has_page hc ->
     (1 <= k <= 3)%nat /\
     NoDupA Qeq (np_unique sizes) /\
     (forall x, InA Qeq x (np_unique sizes) <-> InA Qeq x sizes) /\
     exists out,
       _assign_heading_levels KMeans_fit hc = Ok out /\
       Forall2 (leveled_as model) (enumerate hc) out /\
       Forall (fun e => In (level e) [s "H1"; s "H2"; s "H3"]) out) /\
  (forall KMeans_fit h1 h2 h3,
     f_font_size h1 == 18 -> f_font_size h2 == 14 -> f_font_size h3 == 10 ->
     let sizes := map f_font_size [h1; h2; h3] in
     let model := KMeans_fit 3%nat sizes in
     well_shaped model 3 3 ->
     fits_exactly model sizes ->
     Forall has_page [h1; h2; h3] ->
     exists out,
       _assign_heading_levels KMeans_fit [h1; h2; h3] = Ok out /\
       map level out = [s "H1"; s "H2"; s "H3"]).
Proof.
  pose proof assign_levels_many as Hmany.
  split; [reflexivity|]. split.
  - intros km hc Hlen sizes k model Hshape Hpages.
    destruct (Hmany km hc Hlen Hshape Hpages) as (Hk & Hout).
    destruct (np_unique_distinct sizes) as [Hnd Hin].
    split; [exact Hk | split; [exact Hnd | split; [exact Hin | exact Hout]]].
  - intros km h1 h2 h3 E1 E2 E3 sizes model Hshape Hfit Hpages.
    pose proof (Hmany km [h1; h2; h3]) as H. cbn [map] in H.
    assert (Hk : Nat.min (length (np_unique [f_font_size h1; f_font_size h2; f_font_size h3])) 3
                 = 3%nat).
    { unfold np_unique. cbn [sorted insert_sorted].
      assert (L1 : Qltb (f_font_size h3) (f_font_size h2) = true) by (apply Qltb_lt; lra).
      assert (L2 : Qltb (f_font_size h3) (f_font_size h1) = true) by (apply Qltb_lt; lra).
      assert (L3 : Qltb (f_font_size h2) (f_font_size h1) = true) by (apply Qltb_lt; lra).
      rewrite L1. cbn [insert_sorted]. rewrite L2. cbn [insert_sorted]. rewrite L3.
      cbn [insert_sorted dedup_sorted].
      assert (N1 : Qeq_bool (f_font_size h3) (f_font_size h2) = false)
        by (apply Qeq_bool_differ; lra).
      assert (N2 : Qeq_bool (f_font_size h2) (f_font_size h1) = false)
        by (apply Qeq_bool_differ; lra).
      rewrite N1, N2. reflexivity. }
    rewrite Hk in H.
    unfold model, sizes in *. cbn [map] in *. clear model sizes.
    set (model := km 3%nat [f_font_size h1; f_font_size h2; f_font_size h3]) in *.
    clearbody model.
    destruct H as (_ & out & Hout & Hall & _); [simpl; lia | exact Hshape | exact Hpages |].
    exists out. split; [exact Hout|].
    destruct model as [centers labels]. unfold leveled_as, fits_exactly in *.
    destruct Hshape as (Hc & Hl & _). simpl in *.
    inversion Hall as [|? e1 ? ? (l1 & c1 & Hl1 & Hc1 & Hv1 & _) Hall1]; subst.
    inversion Hall1 as [|? e2 ? ? (l2 & c2 & Hl2 & Hc2 & Hv2 & _) Hall2]; subst.
    inversion Hall2 as [|? e3 ? ? (l3 & c3 & Hl3 & Hc3 & Hv3 & _) Hall3]; subst.
    inversion Hall3; subst. simpl in *. rewrite Hv1, Hv2, Hv3.
    destruct labels as [|m1 [|m2 [|m3 [|]]]]; try discriminate.
    inversion Hfit as [|? ? ? ? (d1 & Hd1 & Hq1) Hfit1]; subst.
    inversion Hfit1 as [|? ? ? ? (d2 & Hd2 & Hq2) Hfit2]; subst.
    inversion Hfit2 as [|? ? ? ? (d3 & Hd3 & Hq3) _]; subst.
    simpl in Hl1, Hl2, Hl3.
    injection Hl1 as <-. injection Hl2 as <-. injection Hl3 as <-.
    rewrite Hc1 in Hd1. rewrite Hc2 in Hd2. rewrite Hc3 in Hd3.
    injection Hd1 as <-. injection Hd2 as <-. injection Hd3 as <-.
    destruct centers as [|a [|b [|c [|]]]]; try discriminate.
    apply nth_error_3 in Hc1 as [[-> ->] | [[-> ->] | [-> ->]]];
      apply nth_error_3 in Hc2 as [[-> ->] | [[-> ->] | [-> ->]]];
      apply nth_error_3 in Hc3 as [[-> ->] | [[-> ->] | [-> ->]]];
      try (exfalso; lra);
      unfold rank_desc; simpl; decide_Qle; reflexivity.
Qed.

End Levels.

(* ===================================================================== *)
(** * Final assembly: [build] *)
(* ===================================================================== *)

Module Build.
Import Py PdfProcessor HierarchyBuilder OutlineSpec PyFacts Candidates Title Levels.
Local Open Scope py_scope.
Local Open Scope Q_scope.


Lemma str_eqb_eq a : forall b, str_eqb a b = true <-> a = b.
Proof.
  induction a as [|x a IH]; intros [|y b]; simpl; split; try discriminate; auto.
  - intros H. apply andb_true_iff in H as [H1 H2].
    apply Ascii.eqb_eq in H1. apply IH in H2. now subst.
  - intros H. inversion H; subst. rewrite Ascii.eqb_refl. now apply IH.
Qed.

Lemma In_heading_candidates core pw ttl h :
  In h (heading_candidates_of core pw ttl) <->
  exists b, In b core /\ h = _get_block_features b pw /\
            _is_potential_heading h = true /\ f_text h <> ttl.
Proof.
  unfold heading_candidates_of. rewrite !filter_In, in_map_iff, negb_true_iff.
  split.
  - intros [[(b & <- & Hb) Hp] Hne]. exists b. repeat apply conj; auto.
    intros E. apply str_eqb_eq in E. congruence.
  - intros (b & Hb & -> & Hp & Hne). repeat apply conj; eauto.
    destruct (str_eqb _ ttl) eqn:E; [|reflexivity].
    apply str_eqb_eq in E. contradiction.
Qed.

Lemma mapM_pointwise {A B : Type} (f : A -> result B) (g : A -> B) l :
  (forall x, In x l -> f x = Ok (g x)) -> mapM f l = Ok (map g l).
Proof.
  induction l as [|x l IH]; intros H; simpl; [reflexivity|].
  rewrite (H x (or_introl eq_refl)). simpl.
  rewrite IH by (intros y Hy; apply H; now right). reflexivity.
Qed.

Lemma Forall2_length_eq {A B : Type} (P : A -> B -> Prop) l1 l2 :
  Forall2 P l1 l2 -> length l1 = length l2.
Proof. induction 1; simpl; congruence. Qed.

Lemma map_snd_combine {A B : Type} (l1 : list A) (l2 : list B) :
  length l1 = length l2 -> map snd (combine l1 l2) = l2.
Proof.
  revert l2. induction l1 as [|a l1 IH]; intros [|b l2] H; try discriminate.
  - reflexivity.
  - simpl. f_equal. apply IH. now inversion H.
Qed.

Lemma Forall2_In_r {A B : Type} (P : A -> B -> Prop) l1 l2 y :
  Forall2 P l1 l2 -> In y l2 -> exists x, In x l1 /\ P x y.
Proof.
  induction 1 as [|a b l1 l2 Hab _ IH]; intros Hin; [contradiction|].
  destruct Hin as [<-|Hin].
  - exists a. split; [now left | assumption].
  - destruct (IH Hin) as (x & Hx & Hp). exists x. split; [now right | assumption].
Qed.

Lemma Forall2_map_eq {A B C : Type} (f : A -> C) (g : B -> C) l1 l2 :
  Forall2 (fun a b => g b = f a) l1 l2 -> map g l2 = map f l1.
Proof. induction 1; simpl; congruence. Qed.

(** What [outline.sort(key=...)] returned: the items paired with their
    keys, in the order of the keys. *)
Lemma sort_outline_Ok items out :
  sort_outline items = Ok out ->
  exists sp : list ((Z * Q) * Entry),
    out = map snd sp /\
    Permutation (map snd sp) items /\
    StronglySorted (le_by fst outline_key_lt) sp /\
    Forall (fun kx => outline_key (snd kx) = Ok (fst kx)) sp.
Proof.
  unfold sort_outline. intros H. apply bind_Ok in H as (keys & Hkeys & H).
  inversion H; subst out. clear H. apply mapM_Ok_Forall2 in Hkeys.
  pose proof (sorted_perm fst outline_key_lt (combine keys items)) as Hperm.
  exists (sorted fst outline_key_lt (combine keys items)).
  repeat apply conj.
  - reflexivity.
  - rewrite Hperm. rewrite map_snd_combine; [reflexivity|].
    symmetry. eapply Forall2_length_eq; eauto.
  - apply sorted_StronglySorted; [exact pair_lt_ZQ_asym | exact pair_lt_ZQ_trans].
  - assert (Hall : Forall (fun kx => outline_key (snd kx) = Ok (fst kx))
                          (combine keys items)).
    { clear Hperm. induction Hkeys; simpl; constructor; assumption. }
    rewrite Forall_forall in *. intros kx Hin. apply Hall.
    eapply Permutation_in; eauto.
Qed.

Lemma outline_key_Ok x k :
  outline_key x = Ok k -> y_pos x = Some (snd k) /\ page x = fst k.
Proof.
  unfold outline_key. destruct (y_pos x); [|discriminate].
  intros H. inversion H. auto.
Qed.

Lemma del_y_pos_keyed x k : outline_key x = Ok k -> del_y_pos x = Ok (without_y_pos x).
Proof.
  intros H. apply outline_key_Ok in H as [H _]. unfold del_y_pos. now rewrite H.
Qed.

(** A single candidate makes the final sort fail: its item has no
    ["y_pos"]. *)
Lemma single_candidate_raises KMeans_fit page0 rest h :
  candidates_of (page0 :: rest) = [h] ->
  has_page h ->
  build KMeans_fit (page0 :: rest) = Raise (KeyError (s "y_pos")).
Proof.
  unfold candidates_of, extracted_title, core_of, page_width_of, build, has_page.
  intros -> Hp. simpl.
  destruct (page_num (original_block h)); [reflexivity | congruence].
Qed.

(** A single candidate whose block has no ["page_num"] fails earlier. *)
Lemma single_candidate_without_page KMeans_fit page0 rest h :
  candidates_of (page0 :: rest) = [h] ->
  page_num (original_block h) = None ->
  build KMeans_fit (page0 :: rest) = Raise (KeyError (s "page_num")).
Proof.
  unfold candidates_of, extracted_title, core_of, page_width_of, build.
  intros -> Hp. simpl. now rewrite Hp.
Qed.

Lemma single_candidate_never_returns KMeans_fit page0 rest h r :
  candidates_of (page0 :: rest) = [h] ->
  build KMeans_fit (page0 :: rest) <> Ok r.
Proof.
  intros Hc. destruct (page_num (original_block h)) as [pn|] eqn:E.
  - rewrite (@single_candidate_raises KMeans_fit _ _ h Hc); [discriminate|].
    unfold has_page. congruence.
  - rewrite (@single_candidate_without_page KMeans_fit _ _ h Hc E). discriminate.
Qed.

(** Everything a successful run of [build] returned. *)
Lemma build_Ok_spec KMeans_fit pages r :
  build KMeans_fit pages = Ok r ->
  pages <> [] ->
  exists sp : list ((Z * Q) * Entry),
    outline r = map (fun kx => without_y_pos (snd kx)) sp /\
    StronglySorted (le_by fst outline_key_lt) sp /\
    Forall (fun kx =>
              exists h, In h (candidates_of pages) /\
                        e_text (snd kx) = f_text h /\
                        page_num (original_block h) = Some (page (snd kx)) /\
                        fst kx = (page (snd kx),
                                  bbox_top (bbox (original_block h)))) sp /\
    Permutation (map e_text (outline r)) (map f_text (candidates_of pages)) /\
    title r = replace_char newline space (extracted_title pages) /\
    length (candidates_of pages) <> 1%nat.
Proof.
  intros H Hne. destruct pages as [|page0 rest]; [congruence|]. clear Hne.
  destruct (candidates_of (page0 :: rest)) as [|h1 [|h2 hc]] eqn:Ehc.
  2:{ exfalso. exact (@single_candidate_never_returns KMeans_fit _ _ _ _ Ehc H). }
  - unfold candidates_of, extracted_title, core_of, page_width_of in Ehc.
    unfold build in H. rewrite Ehc in H. simpl in H. inversion H; subst r. simpl.
    exists []. repeat apply conj; try constructor; try reflexivity.
    + unfold extracted_title. simpl.
      apply trimmed_strip, replace_trimmed, extract_title_trimmed.
    + discriminate.
  - rewrite <- Ehc.
    unfold build in H. fold (core_of (page0 :: rest)) in H.
    fold (page_width_of (page0 :: rest)) in H.
    fold (extracted_title (page0 :: rest)) in H.
    fold (candidates_of (page0 :: rest)) in H.
    apply bind_Ok in H as (leveled & Hassign & H).
    apply bind_Ok in H as (sorted_items & Hsort & H).
    apply bind_Ok in H as (cleaned & Hdel & H). inversion H; subst r. clear H. simpl.
    apply assign_Ok_inv in Hassign as [[E _]|[(h & pn & E & _)|[_ Hall]]];
      [rewrite Ehc in E; discriminate | rewrite Ehc in E; discriminate |].
    apply sort_outline_Ok in Hsort as (sp & -> & Hperm & Hsorted & Hkeys).
    assert (Hclean : cleaned = map without_y_pos (map snd sp)).
    { rewrite mapM_pointwise with (g := without_y_pos) in Hdel; [now inversion Hdel|].
      intros x Hx. apply in_map_iff in Hx as (kx & <- & Hkx).
      rewrite Forall_forall in Hkeys. eapply del_y_pos_keyed, Hkeys, Hkx. }
    exists sp. repeat apply conj.
    + rewrite Hclean. now rewrite map_map.
    + exact Hsorted.
    + rewrite Forall_forall in *. intros kx Hin.
      assert (Hx : In (snd kx) leveled).
      { eapply Permutation_in; [exact Hperm|]. now apply in_map. }
      destruct (@Forall2_In_r _ _ _ _ _ _ Hall Hx) as (h & Hh & Ht & Hp & Hy).
      exists h. repeat apply conj; auto.
      specialize (Hkeys kx Hin). apply outline_key_Ok in Hkeys as [Hk1 Hk2].
      rewrite Hy in Hk1. inversion Hk1.
      destruct kx as [[kp ky] x]. simpl in *. congruence.
    + rewrite Hclean, !map_map. simpl.
      rewrite <- (map_map snd e_text). rewrite Hperm.
      erewrite Forall2_map_eq; [reflexivity|].
      eapply Forall2_impl; [|exact Hall]. intros a b (Ht & _). exact Ht.
    + apply trimmed_strip, replace_trimmed, extract_title_trimmed.
    + rewrite Ehc. simpl. lia.
Qed.

Lemma reading_order_key p q :
  outline_key_lt q p = false <-> reading_order_le p q.
Proof.
  destruct p as [p1 p2], q as [q1 q2].
  unfold outline_key_lt, pair_lt, reading_order_le. simpl.
  destruct (Z.eqb_spec q1 p1) as [->|Hne].
  - rewrite Qltb_ge. split; [intros H; right; auto | intros [H|[_ H]]; [lia | exact H]].
  - rewrite Z.ltb_ge. split; [intros H; left; lia | intros [H|[H _]]; lia].
Qed.

Lemma StronglySorted_map {A B : Type} (R : B -> B -> Prop) (f : A -> B) l :
  StronglySorted (fun a b => R (f a) (f b)) l -> StronglySorted R (map f l).
Proof.
  induction 1 as [|a l _ IH Hall]; simpl; constructor; [exact IH|].
  apply Forall_map. exact Hall.
Qed.

Lemma build_empty_outline KMeans_fit r :
  build KMeans_fit [] = Ok r -> outline r = [].
Proof. intros H. inversion H. reflexivity. Qed.

(** C4. With no pages, [build] returns the sentinel result. *)
Theorem build_no_pages :
  forall KMeans_fit,
    build KMeans_fit [] = Ok {| title := s "No Content Found"; outline := [] |}.
Proof. intros KMeans_fit. unfold build. reflexivity. Qed.

Lemma StronglySorted_with {A : Type} (R : A -> A -> Prop) (P : A -> Prop) l :
  StronglySorted R l -> Forall P l ->
  StronglySorted (fun a b => R a b /\ P a /\ P b) l.
Proof.
  induction 1 as [|a l _ IH Hall]; intros HP; [constructor|].
  inversion HP as [|? ? Ha Hl]; subst. constructor; [now apply IH|].
  rewrite Forall_forall in *. intros b Hb. auto.
Qed.

Lemma StronglySorted_impl {A : Type} (R S : A -> A -> Prop) l :
  (forall a b, R a b -> S a b) -> StronglySorted R l -> StronglySorted S l.
Proof.
  intros HRS. induction 1 as [|a l _ IH Hall]; constructor; [exact IH|].
  eapply Forall_impl; [|exact Hall]. intros b. apply HRS.
Qed.

Lemma candidates_from_blocks pages h :
  In h (candidates_of pages) ->
  In (original_block h) (blocks_of_pages pages) /\
  f_text h = strip (text (original_block h)).
Proof.
  intros Hh. apply In_heading_candidates in Hh as (b & Hb & -> & _).
  split; [|reflexivity]. simpl.
  destruct pages as [|page0 rest]; [contradiction|].
  unfold core_of in Hb. rewrite core_content_blocks_zone in Hb.
  now apply filter_In in Hb as [Hb _].
Qed.

(** The entries of a returned outline, as they stood before the sort. *)
Lemma build_Ok_ordered KMeans_fit pages r :
  build KMeans_fit pages = Ok r ->
  exists leveled ordered : list Entry,
    _assign_heading_levels KMeans_fit (candidates_of pages) = Ok leveled /\
    Forall2 made_of (candidates_of pages) leveled /\
    Permutation ordered leveled /\
    StronglySorted reads_before ordered /\
    outline r = map without_y_pos ordered.
Proof.
  intros H. destruct pages as [|page0 rest].
  { inversion H. exists [], []. repeat apply conj; constructor. }
  destruct (candidates_of (page0 :: rest)) as [|h1 [|h2 hc]] eqn:Ehc.
  2:{ exfalso. exact (@single_candidate_never_returns KMeans_fit _ _ _ _ Ehc H). }
  - unfold candidates_of, extracted_title, core_of, page_width_of in Ehc.
    unfold build in H. rewrite Ehc in H. simpl in H. inversion H; subst r. simpl.
    exists [], []. repeat apply conj; constructor.
  - rewrite <- Ehc.
    unfold build in H. fold (core_of (page0 :: rest)) in H.
    fold (page_width_of (page0 :: rest)) in H.
    fold (extracted_title (page0 :: rest)) in H.
    fold (candidates_of (page0 :: rest)) in H.
    apply bind_Ok in H as (leveled & Hassign & H).
    apply bind_Ok in H as (sorted_items & Hsort & H).
    apply bind_Ok in H as (cleaned & Hdel & H). inversion H; subst r. clear H. simpl.
    pose proof Hassign as Hinv.
    apply assign_Ok_inv in Hinv as [[E _]|[(h & pn & E & _)|[_ Hall]]];
      [rewrite Ehc in E; discriminate | rewrite Ehc in E; discriminate |].
    apply sort_outline_Ok in Hsort as (sp & -> & Hperm & Hsorted & Hkeys).
    exists leveled, (map snd sp). repeat apply conj.
    + exact Hassign.
    + exact Hall.
    + exact Hperm.
    + apply StronglySorted_map.
      apply (StronglySorted_with Hsorted) in Hkeys.
      eapply StronglySorted_impl; [|exact Hkeys].
      intros [[p1 y1] e1] [[p2 y2] e2] (Hle & K1 & K2). simpl in *.
      apply outline_key_Ok in K1 as [Y1 P1]. apply outline_key_Ok in K2 as [Y2 P2].
      simpl in *. exists y1, y2. repeat apply conj; [assumption | assumption |].
      rewrite P1, P2. apply reading_order_key. exact Hle.
    + rewrite mapM_pointwise with (g := without_y_pos) in Hdel; [now inversion Hdel|].
      intros x Hx. apply in_map_iff in Hx as (kx & <- & Hkx).
      rewrite Forall_forall in Hkeys. eapply del_y_pos_keyed, Hkeys, Hkx.
Qed.

(** C5. In every result of [build], the entries come in reading order.
    Level assignment makes one entry of every heading candidate, in the
    order of the candidates; that entry carries the candidate's text, the
    page of the candidate's block and, as ["y_pos"], the top of that
    block, which is a block of the input pages.  The returned outline is
    these very entries, rearranged so that their pairs of page and
    ["y_pos"] ascend lexicographically, and with the key ["y_pos"] removed
    from each. *)
Theorem outline_in_reading_order KMeans_fit pages r :
  build KMeans_fit pages = Ok r ->
  Forall (fun e => y_pos e = None) (outline r) /\
  Forall (fun h => In (original_block h) (blocks_of_pages pages) /\
                   f_text h = strip (text (original_block h)))
         (candidates_of pages) /\
  exists leveled ordered : list Entry,
    _assign_heading_levels KMeans_fit (candidates_of pages) = Ok leveled /\
    Forall2 made_of (candidates_of pages) leveled /\
    Permutation ordered leveled /\
    StronglySorted reads_before ordered /\
    outline r = map without_y_pos ordered.
Proof.
  intros H.
  destruct (build_Ok_ordered _ _ H) as (leveled & ordered & Ha & Hm & Hp & Hs & Ho).
  split; [|split].
  - rewrite Ho. apply Forall_map. apply Forall_forall. reflexivity.
  - apply Forall_forall. intros h Hh. now apply candidates_from_blocks.
  - exists leveled, ordered. auto.
Qed.

(** C6 (the code fails). The title block holds a newline; [build] compares
    the candidates with the title as extracted, replaces the newline by a
    space only afterwards, and so returns the title ["Annual Report"]
    together with an outline entry of exactly that text, for every
    clustering with which [build] returns. *)
Theorem newline_title_repeated_in_outline :
  extracted_title newline_title_pages = s "Annual" ++ [newline] ++ s "Report" /\
  (exists r,
     build reference_fit newline_title_pages = Ok r /\
     title r = s "Annual Report" /\
     map e_text (outline r) = [s "Annual Report"; s "Chapter One"]) /\
  (forall KMeans_fit r,
     build KMeans_fit newline_title_pages = Ok r ->
     title r = s "Annual Report" /\ In (title r) (map e_text (outline r))).
Proof.
  split; [vm_compute; reflexivity|]. split.
  - eexists. split; [vm_compute; reflexivity|]. split; reflexivity.
  - intros km r H.
    destruct (@build_Ok_spec _ _ _ H) as (_ & _ & _ & _ & Hperm & Ht & _); [discriminate|].
    split; [rewrite Ht; vm_compute; reflexivity|].
    rewrite Ht. eapply Permutation_in; [symmetry; exact Hperm|].
    vm_compute. left. reflexivity.
Qed.

(** C7 (the code fails). A page with a title, one further heading and a
    paragraph leaves exactly one heading candidate; its outline item is
    built without ["y_pos"], and the final sort raises [KeyError]. *)
Theorem single_heading_build_raises :
  length (candidates_of single_heading_pages) = 1%nat /\
  forall KMeans_fit,
    build KMeans_fit single_heading_pages = Raise (KeyError (s "y_pos")).
Proof.
  split; [vm_compute; reflexivity|]. intros KMeans_fit.
  assert (H : exists h, candidates_of single_heading_pages = [h] /\ has_page h).
  { eexists. split; [vm_compute; reflexivity | unfold has_page; simpl; discriminate]. }
  destruct H as (h & E & Hp). unfold single_heading_pages in *.
  exact (@single_candidate_raises KMeans_fit _ _ _ E Hp).
Qed.

(** C3 (the code fails). A page with a title, one numbered heading and a
    paragraph leaves exactly one heading candidate.  Level assignment
    gives it ["H1"], as the design document asks, but builds the entry
    without ["y_pos"]; the final sort of [build] then raises [KeyError],
    so the level never reaches an outline. *)
Theorem lone_candidate_level_is_lost :
  exists h,
    candidates_of lone_heading_pages = [h] /\
    (forall KMeans_fit,
       _assign_heading_levels KMeans_fit [h]
       = Ok [mkEntry (s "H1") (s "1.2 Scope") 1 None]) /\
    (forall KMeans_fit,
       build KMeans_fit lone_heading_pages = Raise (KeyError (s "y_pos"))).
Proof.
  eexists. split; [vm_compute; reflexivity|]. split.
  - intros km. reflexivity.
  - intros km. unfold lone_heading_pages.
    eapply single_candidate_raises; [vm_compute; reflexivity|].
    unfold has_page. discriminate.
Qed.

(** C10. Every entry of a returned outline has non-empty text of fewer
    than 15 words. *)
Theorem outline_entries_are_short KMeans_fit pages r :
  build KMeans_fit pages = Ok r ->
  Forall (fun e => e_text e <> [] /\ (length (split (e_text e)) < 15)%nat) (outline r).
Proof.
  intros H. destruct pages as [|page0 rest].
  - rewrite (@build_empty_outline _ _ H). constructor.
  - destruct (@build_Ok_spec _ _ _ H) as (sp & -> & _ & Hfrom & _); [discriminate|].
    apply Forall_map. eapply Forall_impl; [|exact Hfrom].
    intros kx (h & Hh & Ht & _). simpl. rewrite Ht.
    apply In_heading_candidates in Hh as (b & _ & -> & Hp & _).
    apply potential_heading_bounds in Hp. exact Hp.
Qed.

(** [build] returns whenever the candidates are none, or two or more,
    each with a page number, with a model of the documented shape. *)
Lemma build_returns_unless_single KMeans_fit pages :
  let hc := candidates_of pages in
  let sizes := map f_font_size hc in
  let k := Nat.min (length (np_unique sizes)) 3 in
  hc = [] \/ ((2 <= length hc)%nat /\ well_shaped (KMeans_fit k sizes) k (length hc)
              /\ Forall has_page hc) ->
  exists r, build KMeans_fit pages = Ok r.
Proof.
  intros hc sizes k Hcase. destruct pages as [|page0 rest]; [eexists; reflexivity|].
  unfold build. fold (core_of (page0 :: rest)). fold (page_width_of (page0 :: rest)).
  fold (extracted_title (page0 :: rest)). fold (candidates_of (page0 :: rest)).
  fold hc. destruct Hcase as [->|(Hlen & Hshape & Hpages)]; [eexists; reflexivity|].
  destruct (@assign_levels_many KMeans_fit hc Hlen Hshape Hpages) as (_ & out & -> & Hall & _).
  simpl.
  assert (Hy : Forall (fun e => outline_key e = Ok (page e, get (y_pos e) 0)) out).
  { clear Hshape. induction Hall as [|ih e l l' (lbl & c & _ & _ & _ & _ & _ & Hy) _ IH];
      constructor; [|exact IH].
    unfold outline_key. now rewrite Hy. }
  unfold sort_outline.
  rewrite mapM_pointwise with (g := fun e => (page e, get (y_pos e) 0))
    by (apply Forall_forall; exact Hy).
  simpl.
  set (keys := map (fun e => (page e, get (y_pos e) 0)) out).
  rewrite mapM_pointwise with (g := without_y_pos); [eexists; reflexivity|].
  intros x Hx. apply in_map_iff in Hx as (kx & <- & Hkx).
  apply (Permutation_in _ (sorted_perm fst outline_key_lt (combine keys out))) in Hkx.
  destruct kx as [key x]. apply in_combine_r in Hkx. rewrite Forall_forall in Hy.
  eapply del_y_pos_keyed, Hy, Hkx.
Qed.

(** The title of the two-heading page: of the four candidates, the first
    scores most. *)
Lemma title_is_first_best_candidate_witness :
  build reference_fit [two_heading_page] = Ok two_heading_result /\
  let pw := get (width two_heading_page) 595 in
  let h := get (height two_heading_page) 842 in
  let candidates :=
    filter (fun b => content_zone h b && is_title_candidate b)
           (blocks_of_pages [two_heading_page]) in
  (candidates = [] -> title two_heading_result = s "Untitled Document") /\
  (candidates <> [] ->
   exists before c after,
     candidates = before ++ c :: after /\
     title two_heading_result = replace_char newline space (strip (text c)) /\
     (forall x, In x before -> below (score_of x pw) (score_of c pw)) /\
     (forall x, In x after -> at_most (score_of x pw) (score_of c pw))).
Proof.
  split; [vm_compute; reflexivity|].
  apply (proj1 title_is_first_best_candidate reference_fit two_heading_page []).
  vm_compute; reflexivity.
Defined.

(** The two-heading page: the heading at top 200 precedes the one at top
    300, although the input lists them the other way round. *)
Lemma outline_in_reading_order_witness :
  build reference_fit two_heading_pages = Ok two_heading_result /\
  Forall (fun e => y_pos e = None) (outline two_heading_result) /\
  Forall (fun h => In (original_block h) (blocks_of_pages two_heading_pages) /\
                   f_text h = strip (text (original_block h)))
         (candidates_of two_heading_pages) /\
  exists leveled ordered : list Entry,
    _assign_heading_levels reference_fit (candidates_of two_heading_pages) = Ok leveled /\
    Forall2 made_of (candidates_of two_heading_pages) leveled /\
    Permutation ordered leveled /\
    StronglySorted reads_before ordered /\
    outline two_heading_result = map without_y_pos ordered.
Proof.
  split; [vm_compute; reflexivity|].
  apply (@outline_in_reading_order reference_fit two_heading_pages two_heading_result).
  vm_compute; reflexivity.
Defined.

(** The two-heading page: both entries are short. *)
Lemma outline_entries_are_short_witness :
  build reference_fit two_heading_pages = Ok two_heading_result /\
  Forall (fun e => e_text e <> [] /\ (length (split (e_text e)) < 15)%nat)
         (outline two_heading_result).
Proof.
  split; [vm_compute; reflexivity|].
  apply (@outline_entries_are_short reference_fit two_heading_pages two_heading_result).
  vm_compute; reflexivity.
Defined.

End Build.

(* ===================================================================== *)
(** * What the two patterns match *)
(* ===================================================================== *)

Module Patterns.
Import Py Regex RegexFacts PdfProcessor HierarchyBuilder OutlineSpec ExtraSpec Candidates.
Local Open Scope Q_scope.

Lemma lang_class_inv p t : lang (Class p) t -> exists c, t = [c] /\ p c = true.
Proof. inversion 1; subst. eauto. Qed.

Lemma lang_cat_inv a b t :
  lang (Cat a b) t -> exists t1 t2, t = t1 ++ t2 /\ lang a t1 /\ lang b t2.
Proof. inversion 1; subst. eauto. Qed.

Lemma lang_star_class_inv p t :
  lang (Star (Class p)) t -> Forall (fun c => p c = true) t.
Proof.
  intros H. remember (Star (Class p)) as r eqn:Er.
  induction H; try discriminate; [constructor|].
  inversion Er; subst. apply lang_class_inv in H as (c & -> & Hc).
  simpl. constructor; [exact Hc | now apply IHlang2].
Qed.

Lemma lang_plus_class_inv p t :
  lang (Plus (Class p)) t -> t <> [] /\ Forall (fun c => p c = true) t.
Proof.
  intros H. apply lang_cat_inv in H as (t1 & t2 & -> & H1 & H2).
  apply lang_class_inv in H1 as (c & -> & Hc). apply lang_star_class_inv in H2.
  split; [discriminate | now constructor].
Qed.

Lemma lit_true c x : Ascii.eqb c x = true -> x = c.
Proof. intros H. apply Ascii.eqb_eq in H. now subst. Qed.

Lemma lang_dot_groups_inv u :
  lang (Star (Cat (Lit ".") (Plus (Class isdecimal)))) u ->
  exists groups,
    u = concat (map (fun g => "."%char :: g) groups) /\
    Forall (fun g => g <> [] /\ Forall (fun c => isdecimal c = true) g) groups.
Proof.
  intros H. remember (Star (Cat (Lit ".") (Plus (Class isdecimal)))) as r eqn:Er.
  induction H; try discriminate.
  - exists []. split; [reflexivity | constructor].
  - inversion Er; subst. destruct (IHlang2 eq_refl) as (groups & -> & Hg).
    apply lang_cat_inv in H as (d & g & -> & Hd & Hgd).
    apply lang_class_inv in Hd as (c & -> & Hc). apply lit_true in Hc. subst c.
    apply lang_plus_class_inv in Hgd.
    exists (g :: groups). split; [reflexivity | now constructor].
Qed.

Lemma re_match_inv r t :
  re_match r t = true -> exists pre rest, t = pre ++ rest /\ lang r pre.
Proof.
  intros H. apply accepts_lang in H.
  apply lang_cat_inv in H as (pre & rest & -> & Hpre & _). eauto.
Qed.

Lemma match_numbered_prefix t :
  re_match outline_number_pattern t = true -> numbered_prefix t.
Proof.
  intros H. apply re_match_inv in H as (pre & rest & -> & H).
  apply lang_cat_inv in H as (d & u0 & -> & Hd & H).
  apply lang_cat_inv in H as (g & sp & -> & Hg & Hsp).
  apply lang_plus_class_inv in Hd as [Hd1 Hd2].
  apply lang_dot_groups_inv in Hg as (groups & -> & Hg).
  apply lang_plus_class_inv in Hsp as [Hs1 Hs2].
  exists d, groups, sp, rest. rewrite <- !app_assoc. repeat apply conj; auto.
Qed.

Lemma lang_at_least c n t :
  lang (AtLeast n (Lit c)) t <-> exists m, (n <= m)%nat /\ t = repeat c m.
Proof.
  revert t. induction n as [|n IH]; intros t; simpl.
  - split.
    + intros H. apply lang_star_class_inv in H. exists (length t). split; [lia|].
      induction H as [|x t Hx _ IHt]; [reflexivity|].
      apply lit_true in Hx. simpl. now rewrite <- IHt, Hx.
    + intros (m & _ & ->). apply lang_star_all.
      induction m; simpl; constructor; [apply Ascii.eqb_refl | assumption].
  - split.
    + intros H. apply lang_cat_inv in H as (t1 & t2 & -> & H1 & H2).
      apply lang_class_inv in H1 as (x & -> & Hx). apply lit_true in Hx. subst x.
      apply IH in H2 as (m & Hm & ->). exists (S m). split; [lia | reflexivity].
    + intros (m & Hm & ->). destruct m as [|m]; [lia|]. simpl.
      change (c :: repeat c m) with ([c] ++ repeat c m). constructor.
      * constructor. apply Ascii.eqb_refl.
      * apply IH. exists m. split; [lia | reflexivity].
Qed.

Lemma toc_shape_matches t : toc_shape t -> _is_toc_entry t = true.
Proof.
  intros (pre & n & sp & d & tr & -> & Hn & Hsp & Hd1 & Hd2 & Htr).
  apply accepts_lang. constructor; [apply lang_star_any|].
  rewrite <- (app_nil_r (repeat "."%char n ++ sp ++ d ++ tr)).
  constructor; [|apply lang_alt_r; constructor].
  unfold toc_pattern. constructor.
  - apply lang_at_least. exists n. split; [exact Hn | reflexivity].
  - constructor; [now apply lang_star_all|].
    constructor; [now apply lang_plus_all | now apply lang_star_all].
Qed.

Lemma toc_match_shape t : _is_toc_entry t = true -> toc_shape t.
Proof.
  intros H. apply accepts_lang in H.
  apply lang_cat_inv in H as (pre & u0 & -> & _ & H).
  apply lang_cat_inv in H as (body & tail & -> & H & Htail).
  apply lang_cat_inv in H as (dots & u1 & -> & Hdots & H).
  apply lang_cat_inv in H as (sp & u2 & -> & Hsp & H).
  apply lang_cat_inv in H as (d & tr & -> & Hd & Htr).
  apply lang_at_least in Hdots as (n & Hn & ->).
  apply lang_star_class_inv in Hsp. apply lang_plus_class_inv in Hd as [Hd1 Hd2].
  apply lang_star_class_inv in Htr.
  exists pre, n, sp, d, (tr ++ tail). rewrite <- !app_assoc.
  repeat apply conj; auto.
  apply Forall_app. split; [exact Htr|].
  inversion Htail as [| | |? ? ? Hl|? ? ? Hr| |]; subst.
  - apply lang_class_inv in Hl as (c & -> & Hc). apply lit_true in Hc. subst c.
    constructor; [reflexivity | constructor].
  - inversion Hr. constructor.
Qed.

(** X1. The flag [starts_with_number] holds exactly for the texts that begin
    with digits, then any number of groups of a dot and digits, then
    whitespace. *)
Theorem starts_with_number_iff_numbered_prefix (b : Block) (page_width : Q) :
  let f := _get_block_features b page_width in
  starts_with_number f = true <-> numbered_prefix (f_text f).
Proof.
  intros f. unfold f. simpl. split.
  - apply match_numbered_prefix.
  - apply numbered_prefix_matches.
Qed.

(** X2. [_is_toc_entry] holds exactly for the texts that end with four or more
    dots, optional whitespace, digits and optional whitespace. *)
Theorem toc_entry_iff_toc_shape (t : str) :
  _is_toc_entry t = true <-> toc_shape t.
Proof.
  split.
  - apply toc_match_shape.
  - apply toc_shape_matches.
Qed.

End Patterns.

(* ===================================================================== *)
(** * More on the grouper *)
(* ===================================================================== *)

Module GrouperFacts.
Import Py PdfProcessor HierarchyBuilder GrouperSpec OutlineSpec ExtraSpec.
Import PyFacts LineAssembly BlockAssembly Title.
Local Open Scope py_scope.
Local Open Scope Q_scope.

Lemma py_min_le_start xs : forall x, py_min x xs <= x.
Proof.
  unfold py_min. induction xs as [|y xs IH]; intros x; simpl; [lra|].
  destruct (Qltb y x) eqn:E; qreflect.
  - specialize (IH y). lra.
  - apply IH.
Qed.

Lemma py_min_le xs : forall x y, In y (x :: xs) -> py_min x xs <= y.
Proof.
  induction xs as [|z xs IH]; intros x y Hin.
  - destruct Hin as [<-|[]]. unfold py_min. simpl. lra.
  - change (py_min x (z :: xs)) with (py_min (if Qltb z x then z else x) xs).
    destruct (Qltb z x) eqn:E; qreflect; destruct Hin as [<-|[<-|Hin]].
    + pose proof (py_min_le_start xs z). lra.
    + apply py_min_le_start.
    + apply IH. now right.
    + apply py_min_le_start.
    + pose proof (py_min_le_start xs x). lra.
    + apply IH. now right.
Qed.

Lemma py_min_In xs : forall x, In (py_min x xs) (x :: xs).
Proof.
  induction xs as [|z xs IH]; intros x; [now left|].
  change (py_min x (z :: xs)) with (py_min (if Qltb z x then z else x) xs).
  destruct (Qltb z x).
  - right. apply IH.
  - destruct (IH x) as [H|H]; [left | right; right]; assumption.
Qed.

Lemma py_max_ge_start xs : forall x, x <= py_max x xs.
Proof.
  unfold py_max. induction xs as [|y xs IH]; intros x; simpl; [lra|].
  destruct (Qltb x y) eqn:E; qreflect.
  - specialize (IH y). lra.
  - apply IH.
Qed.

Lemma py_max_ge xs : forall x y, In y (x :: xs) -> y <= py_max x xs.
Proof.
  induction xs as [|z xs IH]; intros x y Hin.
  - destruct Hin as [<-|[]]. unfold py_max. simpl. lra.
  - change (py_max x (z :: xs)) with (py_max (if Qltb x z then z else x) xs).
    destruct (Qltb x z) eqn:E; qreflect; destruct Hin as [<-|[<-|Hin]].
    + pose proof (py_max_ge_start xs z). lra.
    + apply py_max_ge_start.
    + apply IH. now right.
    + apply py_max_ge_start.
    + pose proof (py_max_ge_start xs x). lra.
    + apply IH. now right.
Qed.

Lemma py_max_In xs : forall x, In (py_max x xs) (x :: xs).
Proof.
  induction xs as [|z xs IH]; intros x; [now left|].
  change (py_max x (z :: xs)) with (py_max (if Qltb x z then z else x) xs).
  destruct (Qltb x z).
  - right. apply IH.
  - destruct (IH x) as [H|H]; [left | right; right]; assumption.
Qed.

Lemma In_map_cons {A B : Type} (f : A -> B) y x xs :
  In y (f x :: map f xs) -> exists a, In a (x :: xs) /\ y = f a.
Proof.
  change (f x :: map f xs) with (map f (x :: xs)).
  intros H. apply in_map_iff in H as (a & <- & Ha). eauto.
Qed.

Lemma unify_encloses b bs x : In x (b :: bs) -> encloses (_unify_bbox (b :: bs)) x.
Proof.
  intros Hx. unfold _unify_bbox, encloses.
  unfold bbox_x0 at 1, bbox_top at 1, bbox_x1 at 2, bbox_bottom at 2. simpl.
  repeat apply conj.
  - apply py_min_le. change (In (bbox_x0 x) (map bbox_x0 (b :: bs))). now apply in_map.
  - apply py_min_le. change (In (bbox_top x) (map bbox_top (b :: bs))). now apply in_map.
  - apply py_max_ge. change (In (bbox_x1 x) (map bbox_x1 (b :: bs))). now apply in_map.
  - apply py_max_ge. change (In (bbox_bottom x) (map bbox_bottom (b :: bs))). now apply in_map.
Qed.

Lemma unify_attained b bs :
  let u := _unify_bbox (b :: bs) in
  (exists x, In x (b :: bs) /\ bbox_x0 u = bbox_x0 x) /\
  (exists x, In x (b :: bs) /\ bbox_top u = bbox_top x) /\
  (exists x, In x (b :: bs) /\ bbox_x1 u = bbox_x1 x) /\
  (exists x, In x (b :: bs) /\ bbox_bottom u = bbox_bottom x).
Proof.
  intros u. unfold u, _unify_bbox.
  unfold bbox_x0 at 1, bbox_top at 1, bbox_x1 at 1, bbox_bottom at 1.
  simpl. repeat apply conj.
  - destruct (@In_map_cons _ _ bbox_x0 _ b bs (py_min_In (map bbox_x0 bs) (bbox_x0 b))) as (a & Ha & E); eauto.
  - destruct (@In_map_cons _ _ bbox_top _ b bs (py_min_In (map bbox_top bs) (bbox_top b))) as (a & Ha & E); eauto.
  - destruct (@In_map_cons _ _ bbox_x1 _ b bs (py_max_In (map bbox_x1 bs) (bbox_x1 b))) as (a & Ha & E); eauto.
  - destruct (@In_map_cons _ _ bbox_bottom _ b bs (py_max_In (map bbox_bottom bs) (bbox_bottom b))) as (a & Ha & E); eauto.
Qed.

(** X3. [_unify_bbox]: the box of no boxes is all zeros; otherwise the result
    contains every given box, and each of its four sides is the side of
    one of them. *)
Theorem unify_bbox_is_the_hull :
  _unify_bbox [] = (0, 0, 0, 0) /\
  forall b bs,
    let u := _unify_bbox (b :: bs) in
    (forall x, In x (b :: bs) -> encloses u x) /\
    (exists x, In x (b :: bs) /\ bbox_x0 u = bbox_x0 x) /\
    (exists x, In x (b :: bs) /\ bbox_top u = bbox_top x) /\
    (exists x, In x (b :: bs) /\ bbox_x1 u = bbox_x1 x) /\
    (exists x, In x (b :: bs) /\ bbox_bottom u = bbox_bottom x).
Proof.
  split; [reflexivity|]. intros b bs u. split.
  - intros x Hx. now apply unify_encloses.
  - apply unify_attained.
Qed.

Lemma is_new_block_breaks p0 l0 : is_new_block p0 l0 = true <-> breaks_block p0 l0.
Proof.
  unfold is_new_block, breaks_block, below, at_most, fgt.
  rewrite !orb_true_iff, !negb_true_iff.
  assert (Hname : str_eqb (w_fontname l0) (w_fontname p0) = false
                  <-> w_fontname l0 <> w_fontname p0).
  { destruct (str_eqb (w_fontname l0) (w_fontname p0)) eqn:E.
    - apply Build.str_eqb_eq in E. split; [discriminate | congruence].
    - split; [|reflexivity]. intros _ Heq. apply Build.str_eqb_eq in Heq. congruence. }
  rewrite Hname.
  rewrite (@flt_ge (fabs (fsub (Fin (w_size l0)) (Fin (w_size p0)))) (Fin 1));
    [tauto | apply fabs_number, fsub_number | discriminate].
Qed.

Lemma is_new_block_continues p0 l0 : is_new_block p0 l0 = false <-> ~ breaks_block p0 l0.
Proof.
  rewrite <- is_new_block_breaks. destruct (is_new_block p0 l0); split; congruence.
Qed.

(** The block loop with its rule, from any state whose current block has
    lines. *)
Lemma block_loop_rule (pg : Z) lines :
  forall blocks cur,
    cur <> [] -> Forall (fun l => l <> []) cur -> Forall (fun l => l <> []) lines ->
    Sorted continues cur ->
    exists groups cur' bs,
      foldM (block_step pg) lines (blocks, cur) = Ok (blocks ++ bs, cur') /\
      mapM (fun g => make_block g pg) groups = Ok bs /\
      concat (groups ++ [cur']) = cur ++ lines /\
      Forall (fun g => g <> [] /\ Forall (fun l => l <> []) g /\ Sorted continues g)
             (groups ++ [cur']) /\
      Sorted block_boundary (groups ++ [cur']) /\
      exists t, hd [] (groups ++ [cur']) = cur ++ t.
Proof.
  induction lines as [|ln lines IH]; intros blocks cur Hne Hcur Hlines Hs.
  - exists [], cur, []. simpl. rewrite !app_nil_r.
    repeat apply conj; auto; try solve [repeat constructor; auto].
    exists []. now rewrite app_nil_r.
  - inversion Hlines as [|? ? Hln Hlines']; subst.
    destruct (subscript_last_nonempty Hne) as (p & prev & -> & Hlast).
    assert (Hprev : prev <> []).
    { apply Forall_app in Hcur as [_ Hp]. now inversion Hp. }
    simpl. rewrite Hlast. simpl.
    destruct ln as [|l0 ln']; [congruence|].
    destruct prev as [|p0 prev']; [congruence|]. simpl.
    destruct (is_new_block p0 l0) eqn:E; simpl.
    + apply is_new_block_breaks in E.
      destruct (@make_block_Ok (p ++ [p0 :: prev']) pg Hne Hcur) as (b & Hb & _).
      rewrite Hb. simpl.
      destruct (IH (blocks ++ [b]) [l0 :: ln'])
        as (groups & cur' & bs & Hrun & Hmk & Hcat & Hall & Hbd & t & Ht);
        [discriminate | now repeat constructor | assumption | repeat constructor |].
      exists ((p ++ [p0 :: prev']) :: groups), cur', (b :: bs).
      repeat apply conj.
      * rewrite Hrun. now rewrite <- app_assoc.
      * simpl. now rewrite Hb, Hmk.
      * simpl. now rewrite Hcat.
      * simpl. constructor; [repeat apply conj; assumption | assumption].
      * simpl. constructor; [assumption|].
        destruct (groups ++ [cur']) as [|g gs] eqn:Eg; [constructor|].
        constructor. simpl in Ht. subst g.
        exists p, (p0 :: prev'), (l0 :: ln'), t, p0, l0. auto.
      * exists []. simpl. now rewrite app_nil_r.
    + apply is_new_block_continues in E.
      destruct (IH blocks ((p ++ [p0 :: prev']) ++ [l0 :: ln']))
        as (groups & cur' & bs & Hrun & Hmk & Hcat & Hall & Hbd & t & Ht).
      { now destruct p. }
      { apply Forall_app. split; [assumption | now repeat constructor]. }
      { assumption. }
      { apply Sorted_snoc; [assumption|]. exists p0, l0. auto. }
      exists groups, cur', bs. repeat apply conj; auto.
      * rewrite Hcat. now rewrite <- app_assoc.
      * exists ((l0 :: ln') :: t). rewrite Ht. now rewrite <- app_assoc.
Qed.

Lemma sort_line_x0 l : StronglySorted x0_le (sort_line l).
Proof.
  assert (H : StronglySorted (le_by w_x0 Qltb) (sort_line l)).
  { apply sorted_StronglySorted; [intros a b H | intros a b c H1 H2]; qsolve. }
  induction H; constructor; [assumption|].
  eapply Forall_impl; [|eassumption]. intros b Hb. unfold le_by in Hb. unfold x0_le. qsolve.
Qed.

(** How the grouper's result is built: runs of the sorted fragments, each
    sorted by [x0], are the lines; runs of the lines are the groups; each
    group makes one block. *)
Lemma group_structure (words : list Word) (pg : Z) :
  words <> [] ->
  exists raw groups blocks,
    line_assembly words = Ok (map sort_line raw) /\
    concat raw = sort_words words /\
    Forall (fun l => l <> []) raw /\
    concat groups = map sort_line raw /\
    Forall (fun g => g <> [] /\ Forall (fun l => l <> []) g /\ Sorted continues g) groups /\
    Sorted block_boundary groups /\
    mapM (fun g => make_block g pg) groups = Ok blocks /\
    _group_words_into_blocks words pg = Ok blocks.
Proof.
  intros Hne.
  pose proof (sorted_nonempty word_key word_key_lt Hne) as Hs.
  fold (sort_words words) in Hs.
  assert (Hraw : exists raw, line_assembly words = Ok (map sort_line raw) /\
                             concat raw = sort_words words /\
                             Forall (fun l => l <> []) raw).
  { unfold line_assembly. destruct (sort_words words) as [|w0 ws] eqn:E; [congruence|].
    simpl. destruct (@line_loop_spec ws [] [w0]) as (raw & cur' & Hrun & Hcat & Hall & _);
      [discriminate | repeat constructor |].
    rewrite Hrun. simpl. exists (raw ++ [cur']). rewrite map_app.
    repeat apply conj; auto.
    eapply Forall_impl; [|exact Hall]. now intros l [H _]. }
  destruct Hraw as (raw & Hlines & Hcat & Hall).
  assert (Hall' : Forall (fun l : list Word => l <> []) (map sort_line raw)).
  { apply Forall_map. eapply Forall_impl; [|exact Hall].
    intros l Hl. now apply sorted_nonempty. }
  unfold _group_words_into_blocks. destruct words as [|w0 ws]; [congruence|].
  rewrite Hlines. simpl. unfold block_assembly.
  destruct (map sort_line raw) as [|first rest] eqn:Em.
  { exfalso. destruct raw; [|discriminate]. apply Hs. symmetry. exact Hcat. }
  inversion Hall' as [|? ? Hfirst Hrest]; subst.
  destruct (@block_loop_rule pg rest [] [first])
    as (groups & cur' & bs & Hrun & Hmk & Hcat' & Hg & Hbd & _);
    [discriminate | now repeat constructor | assumption | repeat constructor |].
  rewrite Hrun. simpl.
  assert (Hcur : cur' <> [] /\ Forall (fun l => l <> []) cur').
  { apply Forall_app in Hg as [_ Hc]. inversion Hc as [|? ? (H1 & H2 & _) _]. auto. }
  destruct Hcur as [Hc1 Hc2].
  destruct (@make_block_Ok cur' pg Hc1 Hc2) as (b & Hb & _).
  rewrite Hb. simpl.
  exists raw, (groups ++ [cur']), (bs ++ [b]). rewrite Em.
  repeat apply conj; auto.
  apply Forall2_mapM_Ok. apply Forall2_app.
  - now apply mapM_Ok_Forall2.
  - now repeat constructor.
Qed.

Lemma make_block_fields g pg b :
  make_block g pg = Ok b ->
  exists w0 rest,
    concat g = w0 :: rest /\
    text b = block_text g /\
    bbox b = _unify_bbox (map word_bbox (concat g)) /\
    font_name b = Some (w_fontname w0) /\
    font_size b = Some (round2 (w_size w0)) /\
    page_num b = Some pg.
Proof.
  unfold make_block. destruct (concat g) as [|w0 rest]; simpl; [discriminate|].
  intros H. inversion H; subst b. simpl. exists w0, rest. repeat apply conj; reflexivity.
Qed.

Lemma Forall2_with_left {A B : Type} (P : A -> Prop) (R : A -> B -> Prop) l1 l2 :
  Forall P l1 -> Forall2 R l1 l2 -> Forall2 (fun a b => P a /\ R a b) l1 l2.
Proof.
  intros HP HR. induction HR; inversion HP; subst; constructor; auto.
Qed.

Lemma lines_of_groups_sorted raw groups :
  concat groups = map sort_line raw ->
  Forall (fun g => Forall (StronglySorted x0_le) g) groups.
Proof.
  intros Hg. apply Forall_forall. intros g Hin. apply Forall_forall. intros l Hl.
  assert (H : In l (concat groups)) by (apply in_concat; eauto).
  rewrite Hg in H. apply in_map_iff in H as (r & <- & _). apply sort_line_x0.
Qed.

Lemma group_fragments_perm raw groups words :
  concat raw = sort_words words ->
  concat groups = map sort_line raw ->
  Permutation (concat (concat groups)) words.
Proof.
  intros Hcat Hg. rewrite Hg. rewrite concat_map_perm by (intros l; apply sorted_perm).
  rewrite Hcat. apply sorted_perm.
Qed.

(** The runs of the block loop and the block made of each. *)
Lemma group_runs (words : list Word) (pg : Z) :
  words <> [] ->
  exists lines groups blocks,
    line_assembly words = Ok lines /\
    _group_words_into_blocks words pg = Ok blocks /\
    block_runs lines groups blocks /\
    Forall2 (fun g b =>
               make_block g pg = Ok b /\
               Forall (fun l => l <> []) g /\
               Forall (StronglySorted x0_le) g)
            groups blocks.
Proof.
  intros Hne.
  destruct (@group_structure words pg Hne)
    as (raw & groups & blocks & Hl & _ & _ & Hcat & Hg & Hbd & Hmk & Hgrp).
  exists (map sort_line raw), groups, blocks.
  pose proof (lines_of_groups_sorted _ _ Hcat) as Hsorted.
  apply mapM_Ok_Forall2 in Hmk.
  apply (Forall2_with_left Hsorted) in Hmk. apply (Forall2_with_left Hg) in Hmk.
  repeat apply conj; auto.
  - eapply Forall_impl; [|exact Hg]. intros g (H1 & _ & H3). auto.
  - eapply Forall2_impl; [|exact Hmk]. intros g b ((_ & Hlines & _) & _ & Hb).
    apply make_block_fields in Hb as (w0 & rest & _ & Ht & _).
    rewrite Ht. now apply block_text_flat.
  - eapply Forall2_impl; [|exact Hmk]. intros g b ((_ & Hlines & _) & Hs & Hb). auto.
Qed.

(** X4. Block assembly cuts the lines into consecutive non-empty runs and
    makes one block of each run, in order: a line stays in the current
    block exactly when, against the block's last line, the first fragments
    show no gap of more than 1.6 times the previous size, the same font
    name and sizes less than 1 apart; otherwise it starts the next block.
    The gap, the product and the difference of the sizes are the double
    ones. *)
Theorem block_assembly_breaks_on_gap_or_font (words : list Word) (pg : Z) :
  words <> [] ->
  (forall p0 l0, is_new_block p0 l0 = true <-> breaks_block p0 l0) /\
  exists lines groups blocks,
    line_assembly words = Ok lines /\
    _group_words_into_blocks words pg = Ok blocks /\
    block_runs lines groups blocks.
Proof.
  intros Hne. split; [apply is_new_block_breaks|].
  destruct (@group_runs words pg Hne) as (lines & groups & blocks & Hl & Hg & Hr & _).
  exists lines, groups, blocks. auto.
Qed.

(** The rule at the stacked lines: the second line starts a block because
    the double gap [72.4 - 50] exceeds the double product [14 * 1.6], the
    third goes on in that block, the fourth starts a block for its size. *)
Lemma block_assembly_breaks_on_gap_or_font_witness :
  (exists blocks,
     _group_words_into_blocks stacked_words 1 = Ok blocks /\
     map text blocks = [s "Heading"; s "Body more"; s "Note"]) /\
  (forall p0 l0, is_new_block p0 l0 = true <-> breaks_block p0 l0) /\
  exists lines groups blocks,
    line_assembly stacked_words = Ok lines /\
    _group_words_into_blocks stacked_words 1 = Ok blocks /\
    block_runs lines groups blocks.
Proof.
  split; [eexists; split; vm_compute; reflexivity|].
  apply (@block_assembly_breaks_on_gap_or_font stacked_words 1%Z). discriminate.
Defined.

Lemma hundredth_close x : Qabs (hundredth x - x) <= 1 # 200.
Proof.
  unfold hundredth, round_half_even.
  pose proof (Qfloor_le (x * 100)) as Hlo.
  pose proof (Qlt_floor (x * 100)) as Hhi.
  rewrite inject_Z_plus in Hhi. change (inject_Z 1) with 1 in Hhi.
  set (f := Qfloor (x * 100)) in *.
  apply Qabs_Qle_condition. unfold Qdiv. change (/ 100) with (1 # 100).
  destruct (Qltb (x * 100 - inject_Z f) (1 # 2)) eqn:E1.
  - qreflect. split; lra.
  - destruct (Qltb (1 # 2) (x * 100 - inject_Z f)) eqn:E2.
    + qreflect. rewrite inject_Z_plus. change (inject_Z 1) with 1. split; lra.
    + qreflect.
      destruct (Z.even f); [|rewrite inject_Z_plus; change (inject_Z 1) with 1];
        split; lra.
Qed.

Lemma hundredth_half_even x :
  Qabs (hundredth x - x) == 1 # 200 -> Z.even (round_half_even (x * 100)) = true.
Proof.
  unfold hundredth. intros H. apply rhe_half_even.
  set (z := inject_Z (round_half_even (x * 100))) in *.
  assert (E : z - x * 100 == (z / 100 - x) * 100) by (field).
  rewrite E, Qabs_Qmult, H. reflexivity.
Qed.

Lemma In_word_bbox x ws :
  In x (map word_bbox ws) -> exists w, In w ws /\ x = word_bbox w.
Proof. intros H. apply in_map_iff in H as (w & <- & Hw). eauto. Qed.

(** X5. Every block returned by the grouper is made of one run of lines,
    and its box is the smallest box around the fragments of that run: it
    contains the box of each of them, and each of its four sides is the
    side of one of them. *)
Theorem block_bbox_contains_its_fragments (words : list Word) (pg : Z) :
  words <> [] ->
  exists lines groups blocks,
    line_assembly words = Ok lines /\
    _group_words_into_blocks words pg = Ok blocks /\
    block_runs lines groups blocks /\
    Forall2 (fun g b =>
               (forall w, In w (concat g) -> encloses (bbox b) (word_bbox w)) /\
               (exists w, In w (concat g) /\ bbox_x0 (bbox b) = w_x0 w) /\
               (exists w, In w (concat g) /\ bbox_top (bbox b) = w_top w) /\
               (exists w, In w (concat g) /\ bbox_x1 (bbox b) = w_x1 w) /\
               (exists w, In w (concat g) /\ bbox_bottom (bbox b) = w_bottom w))
            groups blocks.
Proof.
  intros Hne.
  destruct (@group_runs words pg Hne) as (lines & groups & blocks & Hl & Hg & Hr & Hmk).
  exists lines, groups, blocks.
  split; [exact Hl|]. split; [exact Hg|]. split; [exact Hr|].
  eapply Forall2_impl; [|exact Hmk].
  intros g b (Hb & _ & _).
  apply make_block_fields in Hb as (w0 & rest & Hc & _ & Hbox & _).
  rewrite Hbox, Hc. cbn [map].
  destruct (unify_attained (word_bbox w0) (map word_bbox rest)) as (A1 & A2 & A3 & A4).
  change (word_bbox w0 :: map word_bbox rest) with (map word_bbox (w0 :: rest)) in *.
  repeat apply conj.
  - intros w Hw. apply unify_encloses.
    change (In (word_bbox w) (map word_bbox (w0 :: rest))). now apply in_map.
  - destruct A1 as (x & Hx & E). apply In_word_bbox in Hx as (w & Hw & ->). eauto.
  - destruct A2 as (x & Hx & E). apply In_word_bbox in Hx as (w & Hw & ->). eauto.
  - destruct A3 as (x & Hx & E). apply In_word_bbox in Hx as (w & Hw & ->). eauto.
  - destruct A4 as (x & Hx & E). apply In_word_bbox in Hx as (w & Hw & ->). eauto.
Qed.

(** The boxes at the stacked lines. *)
Lemma block_bbox_contains_its_fragments_witness :
  (exists blocks,
     _group_words_into_blocks stacked_words 1 = Ok blocks /\
     map bbox blocks = [(72, 50, 132, 64); (72, lit 72.4, 200, 104); (72, 100, 132, 110)]) /\
  exists lines groups blocks,
    line_assembly stacked_words = Ok lines /\
    _group_words_into_blocks stacked_words 1 = Ok blocks /\
    block_runs lines groups blocks /\
    Forall2 (fun g b =>
               (forall w, In w (concat g) -> encloses (bbox b) (word_bbox w)) /\
               (exists w, In w (concat g) /\ bbox_x0 (bbox b) = w_x0 w) /\
               (exists w, In w (concat g) /\ bbox_top (bbox b) = w_top w) /\
               (exists w, In w (concat g) /\ bbox_x1 (bbox b) = w_x1 w) /\
               (exists w, In w (concat g) /\ bbox_bottom (bbox b) = w_bottom w))
            groups blocks.
Proof.
  split; [eexists; split; vm_compute; reflexivity|].
  apply (@block_bbox_contains_its_fragments stacked_words 1%Z). discriminate.
Defined.

(** X6. Every block returned by the grouper is made of one run of lines,
    and its font is that of the leftmost fragment of the run's first line:
    the font name is that fragment's, and the font size is that fragment's
    size rounded to a hundredth at most 0.005 away (the even hundredth when
    two are that near), held as the double nearest to that hundredth. *)
Theorem block_font_is_first_fragments (words : list Word) (pg : Z) :
  words <> [] ->
  exists lines groups blocks,
    line_assembly words = Ok lines /\
    _group_words_into_blocks words pg = Ok blocks /\
    block_runs lines groups blocks /\
    Forall2 (fun g b =>
               exists w0 ws others,
                 g = (w0 :: ws) :: others /\
                 (forall w, In w ws -> w_x0 w0 <= w_x0 w) /\
                 font_name b = Some (w_fontname w0) /\
                 exists z : Z,
                   Qabs (inject_Z z / 100 - w_size w0) <= 1 # 200 /\
                   (Qabs (inject_Z z / 100 - w_size w0) == 1 # 200 -> Z.even z = true) /\
                   font_size b = Some (nearest (inject_Z z / 100)))
            groups blocks.
Proof.
  intros Hne.
  destruct (@group_runs words pg Hne) as (lines & groups & blocks & Hl & Hg & Hr & Hmk).
  exists lines, groups, blocks.
  split; [exact Hl|]. split; [exact Hg|]. split; [exact Hr|].
  eapply Forall2_impl; [|exact Hmk].
  intros g b (Hb & Hlines & Hs).
  destruct g as [|first others]; [apply make_block_fields in Hb as (? & ? & ? & _); discriminate|].
  inversion Hlines as [|? ? Hfirst _]; subst.
  destruct first as [|w0 ws]; [congruence|].
  apply make_block_fields in Hb as (w0' & rest & Hc & _ & _ & Hname & Hsize & _).
  simpl in Hc. inversion Hc; subst w0'.
  exists w0, ws, others. repeat apply conj; auto.
  - inversion Hs as [|? ? Hsl _]; subst. inversion Hsl as [|? ? _ Hall]; subst.
    rewrite Forall_forall in Hall. exact Hall.
  - exists (round_half_even (w_size w0 * 100)).
    split; [apply hundredth_close | split; [apply hundredth_half_even | exact Hsize]].
Qed.

(** The fonts at the stacked lines. *)
Lemma block_font_is_first_fragments_witness :
  (exists blocks,
     _group_words_into_blocks stacked_words 1 = Ok blocks /\
     map font_size blocks = [Some 14; Some 14; Some 10]) /\
  exists lines groups blocks,
    line_assembly stacked_words = Ok lines /\
    _group_words_into_blocks stacked_words 1 = Ok blocks /\
    block_runs lines groups blocks /\
    Forall2 (fun g b =>
               exists w0 ws others,
                 g = (w0 :: ws) :: others /\
                 (forall w, In w ws -> w_x0 w0 <= w_x0 w) /\
                 font_name b = Some (w_fontname w0) /\
                 exists z : Z,
                   Qabs (inject_Z z / 100 - w_size w0) <= 1 # 200 /\
                   (Qabs (inject_Z z / 100 - w_size w0) == 1 # 200 -> Z.even z = true) /\
                   font_size b = Some (nearest (inject_Z z / 100)))
            groups blocks.
Proof.
  split; [eexists; split; vm_compute; reflexivity|].
  apply (@block_font_is_first_fragments stacked_words 1%Z). discriminate.
Defined.

Lemma StronglySorted_app_inv {A : Type} (R : A -> A -> Prop) l m :
  StronglySorted R (l ++ m) ->
  StronglySorted R m /\ forall a b, In a l -> In b m -> R a b.
Proof.
  induction l as [|x l IH]; simpl; intros H.
  - split; [exact H | intros a b []].
  - inversion H as [|? ? Hs Hall]; subst. destruct (IH Hs) as [Hm Hlm].
    split; [exact Hm|]. intros a b [<-|Ha] Hb.
    + rewrite Forall_forall in Hall. apply Hall. apply in_or_app. now right.
    + now apply Hlm.
Qed.

Lemma StronglySorted_concat {A : Type} (R : A -> A -> Prop) (ls : list (list A)) :
  StronglySorted R (concat ls) ->
  StronglySorted (fun l1 l2 => forall a b, In a l1 -> In b l2 -> R a b) ls.
Proof.
  induction ls as [|l ls IH]; simpl; intros H; [constructor|].
  apply StronglySorted_app_inv in H as [Hs Hlm]. constructor; [now apply IH|].
  apply Forall_forall. intros l2 Hl2 a b Ha Hb. apply Hlm; [exact Ha|].
  apply in_concat. eauto.
Qed.

(** X7. The lines come top to bottom, and the fragments of each line left to
    right: no fragment of a line has a greater top than a fragment of a
    later line, and within a line [x0] never decreases. *)
Theorem lines_read_left_to_right_top_to_bottom (words : list Word) :
  words <> [] ->
  exists lines,
    line_assembly words = Ok lines /\
    Forall (StronglySorted x0_le) lines /\
    StronglySorted above lines.
Proof.
  intros Hne.
  destruct (@group_structure words 1%Z Hne) as (raw & _ & _ & Hl & Hcat & _).
  exists (map sort_line raw). repeat apply conj; [exact Hl | |].
  - apply Forall_map. apply Forall_forall. intros l _. apply sort_line_x0.
  - destruct (sort_words_spec words) as [_ Hs]. rewrite <- Hcat in Hs.
    apply StronglySorted_concat in Hs. apply Build.StronglySorted_map.
    clear Hl Hcat. induction Hs as [|l ls _ IH Hall]; [constructor|].
    constructor; [exact IH|].
    eapply Forall_impl; [|exact Hall]. intros l2 H a b Ha Hb.
    assert (Hab : word_le a b).
    { apply H; [eapply Permutation_in; [apply sorted_perm | exact Ha]
               | eapply Permutation_in; [apply sorted_perm | exact Hb]]. }
    destruct Hab as [Hlt|[Heq _]]; lra.
Qed.

(** The order of the lines at the drifting fragments. *)
Lemma lines_read_left_to_right_top_to_bottom_witness :
  exists lines,
    line_assembly drift_words = Ok lines /\
    Forall (StronglySorted x0_le) lines /\
    StronglySorted above lines.
Proof.
  apply (@lines_read_left_to_right_top_to_bottom drift_words). discriminate.
Defined.

Lemma split_from_word p : forall cur rest,
  Forall (fun c => isspace c = false) p ->
  split_from cur (p ++ rest) = split_from (cur ++ p) rest.
Proof.
  induction p as [|c p IH]; intros cur rest Hp; simpl.
  - now rewrite app_nil_r.
  - inversion Hp as [|? ? Hc Hp']; subst. rewrite Hc.
    rewrite IH by assumption. now rewrite <- app_assoc.
Qed.

(** Splitting the single-space join of clean texts gives the texts back. *)
Lemma split_join parts :
  Forall clean_text parts -> split (join (s " ") parts) = parts.
Proof.
  unfold split. induction 1 as [|p parts [Hne Hp] Hall IH]; [reflexivity|].
  destruct parts as [|q parts].
  - simpl. rewrite <- (app_nil_r p) at 1. rewrite split_from_word by assumption.
    simpl. destruct p; [congruence | reflexivity].
  - change (join (s " ") (p :: q :: parts))
      with (p ++ " "%char :: join (s " ") (q :: parts)).
    rewrite split_from_word by assumption. simpl.
    destruct p as [|c p]; [congruence|]. f_equal. exact IH.
Qed.

Lemma rev_head_In {A : Type} (t : list A) c r : rev t = c :: r -> In c t.
Proof. intros H. apply in_rev. rewrite H. now left. Qed.

Lemma join_clean_last parts :
  parts <> [] -> Forall clean_text parts ->
  exists c r, rev (join (s " ") parts) = c :: r /\ isspace c = false.
Proof.
  intros Hne Hall. induction Hall as [|p parts [Hp1 Hp2] Hall IH]; [congruence|].
  destruct parts as [|q parts].
  - simpl. destruct (rev p) as [|c r] eqn:E.
    + exfalso. apply Hp1. apply (f_equal (@rev ascii)) in E.
      now rewrite rev_involutive in E.
    + exists c, r. split; [reflexivity|].
      rewrite Forall_forall in Hp2. apply Hp2. eapply rev_head_In; eauto.
  - destruct IH as (c & r & E & Hc); [discriminate|].
    change (join (s " ") (p :: q :: parts))
      with (p ++ s " " ++ join (s " ") (q :: parts)).
    rewrite !rev_app_distr, E. simpl. eauto.
Qed.

Lemma join_clean_trimmed parts :
  parts <> [] -> Forall clean_text parts -> trimmed (join (s " ") parts).
Proof.
  intros Hne Hall. split.
  - destruct parts as [|p parts]; [congruence|].
    inversion Hall as [|? ? [Hp1 Hp2] _]; subst.
    destruct p as [|c p]; [congruence|]. inversion Hp2; subst.
    destruct parts; simpl; assumption.
  - destruct (join_clean_last Hne Hall) as (c & r & -> & Hc). exact Hc.
Qed.

(** X8. When every fragment text is non-empty and free of whitespace, the
    classifier sees the block as the grouper made it: the trimmed text is
    the block's text, its words are the texts of the block's fragments in
    order, and the word count is the number of fragments. *)
Theorem clean_fragments_are_the_words (words : list Word) (pg : Z) :
  words <> [] ->
  Forall (fun w => clean_text (w_text w)) words ->
  exists groups blocks,
    _group_words_into_blocks words pg = Ok blocks /\
    Permutation (concat (concat groups)) words /\
    Forall2 (fun g b =>
               forall page_width,
                 let f := _get_block_features b page_width in
                 f_text f = text b /\
                 split (f_text f) = map w_text (concat g) /\
                 word_count f = length (concat g))
            groups blocks.
Proof.
  intros Hne Hclean.
  destruct (@group_structure words pg Hne)
    as (raw & groups & blocks & _ & Hcat & _ & Hg & Hgs & _ & Hmk & Hgrp).
  pose proof (@group_fragments_perm raw groups words Hcat Hg) as Hperm.
  exists groups, blocks. repeat apply conj; [exact Hgrp | exact Hperm |].
  assert (Hall : Forall (fun g => Forall (fun w => clean_text (w_text w)) (concat g)) groups).
  { apply Forall_forall. intros g Hin. apply Forall_forall. intros w Hw.
    rewrite Forall_forall in Hclean. apply Hclean.
    eapply Permutation_in; [exact Hperm|].
    apply in_concat in Hw as (l & Hl & Hw).
    apply in_concat. exists l. split; [|exact Hw]. apply in_concat. eauto. }
  apply mapM_Ok_Forall2 in Hmk.
  apply (Forall2_with_left Hall) in Hmk. apply (Forall2_with_left Hgs) in Hmk.
  eapply Forall2_impl; [|exact Hmk].
  intros g b ((Hg1 & Hg2 & _) & Hcl & Hb) pw f.
  apply make_block_fields in Hb as (w0 & rest & Hc & Ht & _).
  assert (Hparts : Forall clean_text (map w_text (concat g))) by now apply Forall_map.
  assert (Hflat : text b = join (s " ") (map w_text (concat g))).
  { rewrite Ht. now apply block_text_flat. }
  assert (Htrim : f_text f = text b).
  { unfold f. simpl. apply trimmed_strip. rewrite Hflat.
    apply join_clean_trimmed; [rewrite Hc; discriminate | exact Hparts]. }
  assert (Hsplit : split (f_text f) = map w_text (concat g)).
  { rewrite Htrim, Hflat. now apply split_join. }
  repeat apply conj; [exact Htrim | exact Hsplit |].
  unfold f in *. simpl in *. rewrite Hsplit. apply length_map.
Qed.

(** The words of the block made from the drifting fragments. *)
Lemma clean_fragments_are_the_words_witness :
  exists groups blocks,
    _group_words_into_blocks drift_words 1 = Ok blocks /\
    Permutation (concat (concat groups)) drift_words /\
    Forall2 (fun g b =>
               forall page_width,
                 let f := _get_block_features b page_width in
                 f_text f = text b /\
                 split (f_text f) = map w_text (concat g) /\
                 word_count f = length (concat g))
            groups blocks.
Proof.
  apply (@clean_fragments_are_the_words drift_words 1%Z); [discriminate|].
  repeat constructor; try discriminate.
Defined.

End GrouperFacts.

(* ===================================================================== *)
(** * More on the classifier *)
(* ===================================================================== *)

Module BuildFacts.
Import Py Regex PdfProcessor HierarchyBuilder OutlineSpec ExtraSpec.
Import PyFacts Candidates Title Levels Build Patterns.
Local Open Scope py_scope.
Local Open Scope Q_scope.

(** What a heading candidate passed. *)
Lemma potential_heading_passed f :
  _is_potential_heading f = true ->
  is_toc f = false /\ isdigit (f_text f) = false /\ has_heading_signal f.
Proof.
  unfold _is_potential_heading, disqualified, has_heading_signal.
  destruct (is_empty (f_text f)); simpl; [discriminate|].
  destruct (20 <? word_count f)%nat; simpl; [discriminate|].
  destruct (is_toc f); simpl; [discriminate|].
  destruct (isdigit (f_text f)); [discriminate|].
  intros H. split; [reflexivity|]. split; [reflexivity|].
  destruct (Qgtb (f_font_size f) 14) eqn:E1; [left; now apply Qgtb_gt|].
  destruct (starts_with_number f); [right; left; reflexivity|].
  destruct (is_bold f); [right; right; left; reflexivity|].
  destruct (is_all_caps f); simpl in H; [|discriminate].
  destruct (Qgtb (f_font_size f) 11) eqn:E2; simpl in H; [|discriminate].
  right; right; right. split; [reflexivity | now apply Qgtb_gt].
Qed.

(** Each entry of a returned outline and the block it stems from. *)
Lemma outline_sources KMeans_fit pages r :
  build KMeans_fit pages = Ok r ->
  Forall (fun e =>
            exists b, In b (core_of pages) /\
                      e_text e = strip (text b) /\
                      page_num b = Some (page e) /\
                      _is_potential_heading
                        (_get_block_features b (page_width_of pages)) = true /\
                      strip (text b) <> extracted_title pages)
         (outline r).
Proof.
  intros H. destruct pages as [|page0 rest].
  - rewrite (@build_empty_outline _ _ H). constructor.
  - destruct (@build_Ok_spec _ _ _ H) as (sp & -> & _ & Hfrom & _); [discriminate|].
    apply Forall_map. eapply Forall_impl; [|exact Hfrom].
    intros kx (h & Hh & Ht & Hp & _). simpl.
    apply In_heading_candidates in Hh as (b & Hb & -> & Hpot & Hne).
    exists b. simpl in *. repeat apply conj; auto.
Qed.

(** X9. No entry of a returned outline is a table-of-contents line (four or
    more dots, then digits, at the end of the text), and none is purely
    numeric. *)
Theorem outline_has_no_toc_line_or_number KMeans_fit pages r :
  build KMeans_fit pages = Ok r ->
  Forall (fun e => ~ toc_shape (e_text e) /\ isdigit (e_text e) = false) (outline r).
Proof.
  intros H. eapply Forall_impl; [|exact (@outline_sources _ _ _ H)].
  intros e (b & _ & Ht & _ & Hpot & _).
  apply potential_heading_passed in Hpot as (Htoc & Hnum & _).
  simpl in Htoc, Hnum. rewrite Ht. split; [|exact Hnum].
  intros Hshape. apply toc_shape_matches in Hshape. congruence.
Qed.

(** The two-heading page has no such entry. *)
Lemma outline_has_no_toc_line_or_number_witness :
  Forall (fun e => ~ toc_shape (e_text e) /\ isdigit (e_text e) = false)
         (outline two_heading_result).
Proof.
  apply (@outline_has_no_toc_line_or_number reference_fit two_heading_pages).
  vm_compute; reflexivity.
Defined.

(** X10. Every entry of a returned outline stems from a block, outside the
    header and footer zones, that shows a heading signal: a font size above
    14, a numbered prefix, a bold font, or capitals with a size above 11. *)
Theorem outline_entries_show_a_signal KMeans_fit pages r :
  build KMeans_fit pages = Ok r ->
  Forall (fun e =>
            exists b, In b (core_of pages) /\
                      e_text e = strip (text b) /\
                      page_num b = Some (page e) /\
                      has_heading_signal (_get_block_features b (page_width_of pages)))
         (outline r).
Proof.
  intros H. eapply Forall_impl; [|exact (@outline_sources _ _ _ H)].
  intros e (b & Hb & Ht & Hp & Hpot & _).
  apply potential_heading_passed in Hpot as (_ & _ & Hsig). eauto 6.
Qed.

(** The signals of the two-heading page. *)
Lemma outline_entries_show_a_signal_witness :
  Forall (fun e =>
            exists b, In b (core_of two_heading_pages) /\
                      e_text e = strip (text b) /\
                      page_num b = Some (page e) /\
                      has_heading_signal
                        (_get_block_features b (page_width_of two_heading_pages)))
         (outline two_heading_result).
Proof.
  apply (@outline_entries_show_a_signal reference_fit two_heading_pages).
  vm_compute; reflexivity.
Defined.

Lemma core_in_zone pages b :
  In b (core_of pages) ->
  In b (all_blocks_of pages) /\ in_content_zone b (page_height_of pages).
Proof.
  destruct pages as [|page0 rest]; [intros []|].
  unfold core_of, core_content_blocks_of. rewrite filter_In, header_or_footer_zone.
  unfold content_zone, in_content_zone, at_most, page_height_of.
  rewrite andb_true_iff. intros (Hin & H1 & H2). auto.
Qed.

(** Where the title comes from. *)
Lemma extract_title_source blocks pw :
  _extract_title blocks pw = s "Untitled Document" \/
  exists c, In c blocks /\ is_title_candidate c = true /\
            _extract_title blocks pw = strip (text c).
Proof.
  unfold _extract_title.
  destruct (filter on_first_page blocks) as [|b0 bs] eqn:E; [now left|].
  rewrite <- E, (title_loop pw blocks []). simpl.
  destruct (map (title_pair pw) (filter is_title_candidate blocks)) as [|c cs] eqn:Ec;
    [now left|].
  right. pose proof (max_from_In fst cs c) as Hin. rewrite <- Ec in Hin.
  apply in_map_iff in Hin as (b & Hb & Hin). apply filter_In in Hin as [Hin Hc].
  exists b. repeat apply conj; auto. now rewrite <- Hb.
Qed.

(** X11. Blocks in the header and footer zones never show up: every entry of a
    returned outline, and the title unless it is ["Untitled Document"],
    stems from a block whose top is neither below the double product
    [h * 0.08] nor above the double product [h * 0.92], where [h] is the
    height of the first page; the title's block is on page 1 or carries no
    page number. *)
Theorem zones_are_left_out KMeans_fit page0 rest r :
  let pages := page0 :: rest in
  build KMeans_fit pages = Ok r ->
  Forall (fun e =>
            exists b, In b (all_blocks_of pages) /\
                      in_content_zone b (page_height_of pages) /\
                      e_text e = strip (text b) /\ page_num b = Some (page e))
         (outline r) /\
  (title r = s "Untitled Document" \/
   exists b, In b (all_blocks_of pages) /\
             in_content_zone b (page_height_of pages) /\
             on_page_1 b = true /\
             title r = replace_char newline space (strip (text b))).
Proof.
  intros pages H. split.
  - eapply Forall_impl; [|exact (@outline_sources _ _ _ H)].
    intros e (b & Hb & Ht & Hp & _). apply core_in_zone in Hb as [Hin Hz]. eauto 6.
  - destruct (@build_Ok_spec _ _ _ H) as (_ & _ & _ & _ & _ & -> & _); [discriminate|].
    unfold extracted_title.
    destruct (extract_title_source (core_of pages) (page_width_of pages))
      as [->|(c & Hc & Hcand & ->)]; [left; reflexivity|].
    right. apply core_in_zone in Hc as [Hin Hz]. exists c.
    split; [exact Hin | split; [exact Hz | split; [|reflexivity]]].
    unfold is_title_candidate in Hcand. rewrite !andb_true_iff in Hcand.
    destruct Hcand as [[[Hp _] _] _]. exact Hp.
Qed.

(** The zones at the two-heading page. *)
Lemma zones_are_left_out_witness :
  Forall (fun e =>
            exists b, In b (all_blocks_of two_heading_pages) /\
                      in_content_zone b (page_height_of two_heading_pages) /\
                      e_text e = strip (text b) /\ page_num b = Some (page e))
         (outline two_heading_result) /\
  (title two_heading_result = s "Untitled Document" \/
   exists b, In b (all_blocks_of two_heading_pages) /\
             in_content_zone b (page_height_of two_heading_pages) /\
             on_page_1 b = true /\
             title two_heading_result = replace_char newline space (strip (text b))).
Proof.
  apply (@zones_are_left_out reference_fit two_heading_page [] two_heading_result).
  vm_compute; reflexivity.
Defined.

Lemma replace_has_no_newline t : has_newline (replace_char newline space t) = false.
Proof.
  unfold has_newline, replace_char. induction t as [|c t IH]; [reflexivity|].
  cbn [map existsb]. rewrite IH, orb_false_r.
  destruct (Ascii.eqb_spec c newline) as [->|Hne]; [reflexivity|].
  apply Ascii.eqb_neq. congruence.
Qed.

Lemma extract_title_nonempty blocks pw : _extract_title blocks pw <> [].
Proof.
  destruct (extract_title_source blocks pw) as [->|(c & _ & Hc & ->)]; [discriminate|].
  unfold is_title_candidate in Hc. rewrite !andb_true_iff in Hc.
  destruct Hc as [[[_ Hne] _] _]. apply negb_true_iff in Hne.
  destruct (strip (text c)); [discriminate Hne | discriminate].
Qed.

(** X12. The returned title is never empty, neither begins nor ends with
    whitespace, and holds no newline. *)
Theorem returned_title_is_one_clean_line KMeans_fit pages r :
  build KMeans_fit pages = Ok r ->
  title r <> [] /\ trimmed (title r) /\ has_newline (title r) = false.
Proof.
  intros H. destruct pages as [|page0 rest].
  - inversion H. simpl. repeat apply conj; [discriminate | reflexivity | reflexivity | reflexivity].
  - destruct (@build_Ok_spec _ _ _ H) as (_ & _ & _ & _ & _ & -> & _); [discriminate|].
    repeat apply conj.
    + unfold replace_char. intros E. apply map_eq_nil in E.
      revert E. apply extract_title_nonempty.
    + apply replace_trimmed, extract_title_trimmed.
    + apply replace_trimmed, extract_title_trimmed.
    + apply replace_has_no_newline.
Qed.

(** The title of the two-heading page. *)
Lemma returned_title_is_one_clean_line_witness :
  title two_heading_result <> [] /\ trimmed (title two_heading_result) /\
  has_newline (title two_heading_result) = false.
Proof.
  apply (@returned_title_is_one_clean_line reference_fit two_heading_pages).
  vm_compute; reflexivity.
Defined.

(** X13. A returned outline lists every heading candidate other than the title
    once and nothing else: its texts are a rearrangement of the texts of
    the blocks, outside the zones, that pass [_is_potential_heading] and
    differ from the extracted title. *)
Theorem outline_lists_every_candidate_once KMeans_fit pages r :
  build KMeans_fit pages = Ok r ->
  Permutation (map e_text (outline r)) (map f_text (candidates_of pages)) /\
  forall h,
    In h (candidates_of pages) <->
    exists b, In b (core_of pages) /\
              h = _get_block_features b (page_width_of pages) /\
              _is_potential_heading h = true /\
              f_text h <> extracted_title pages.
Proof.
  intros H. split; [|intros h; apply In_heading_candidates].
  destruct pages as [|page0 rest].
  - rewrite (@build_empty_outline _ _ H). reflexivity.
  - destruct (@build_Ok_spec _ _ _ H) as (_ & _ & _ & _ & Hperm & _); [discriminate|].
    exact Hperm.
Qed.

(** The candidates of the two-heading page. *)
Lemma outline_lists_every_candidate_once_witness :
  Permutation (map e_text (outline two_heading_result))
              (map f_text (candidates_of two_heading_pages)) /\
  forall h,
    In h (candidates_of two_heading_pages) <->
    exists b, In b (core_of two_heading_pages) /\
              h = _get_block_features b (page_width_of two_heading_pages) /\
              _is_potential_heading h = true /\
              f_text h <> extracted_title two_heading_pages.
Proof.
  apply (@outline_lists_every_candidate_once reference_fit two_heading_pages).
  vm_compute; reflexivity.
Defined.

Lemma rank_desc_mono centers ci cj :
  cj <= ci -> (rank_desc centers ci <= rank_desc centers cj)%nat.
Proof.
  intros Hle. unfold rank_desc. induction centers as [|x l IH]; simpl; [lia|].
  destruct (Qle_bool ci x) eqn:E1, (Qle_bool cj x) eqn:E2; simpl; try lia.
  exfalso. apply Qle_bool_iff in E1.
  assert (H : Qle_bool cj x = true) by (apply Qle_bool_iff; lra). congruence.
Qed.

Lemma rank_desc_lt centers ci cj :
  Exists (fun c => c == cj) centers -> cj < ci ->
  (rank_desc centers ci < rank_desc centers cj)%nat.
Proof.
  intros Hex Hlt. induction Hex as [x l Hx|x l _ IH].
  - assert (Hle : cj <= ci) by lra.
    pose proof (rank_desc_mono l Hle) as Hm. unfold rank_desc in *. simpl.
    assert (E1 : Qle_bool ci x = false) by (apply Qle_bool_false; lra).
    assert (E2 : Qle_bool cj x = true) by (apply Qle_bool_iff; lra).
    rewrite E1, E2. simpl. lia.
  - unfold rank_desc in *. simpl.
    destruct (Qle_bool ci x) eqn:E1, (Qle_bool cj x) eqn:E2; simpl; try lia.
    exfalso. apply Qle_bool_iff in E1.
    assert (H : Qle_bool cj x = true) by (apply Qle_bool_iff; lra). congruence.
Qed.

Lemma rank_desc_eq centers ci cj :
  ci == cj -> rank_desc centers ci = rank_desc centers cj.
Proof.
  intros Heq. apply Nat.le_antisymm; apply rank_desc_mono; lra.
Qed.

Lemma Forall2_nth_error_r {A B : Type} (R : A -> B -> Prop) l1 l2 :
  Forall2 R l1 l2 ->
  forall i y, nth_error l2 i = Some y -> exists x, nth_error l1 i = Some x /\ R x y.
Proof.
  induction 1 as [|a b l1 l2 Hab _ IH]; intros i y Hi.
  - destruct i; discriminate.
  - destruct i as [|i]; simpl in *.
    + inversion Hi; subst. eauto.
    + apply IH. exact Hi.
Qed.

Lemma nth_error_combine_seq {A : Type} (l : list A) :
  forall a i x y, nth_error (combine (seq a (length l)) l) i = Some (x, y) -> x = (a + i)%nat.
Proof.
  induction l as [|z l IH]; intros a i x y H; [destruct i; discriminate|].
  destruct i as [|i]; simpl in H.
  - inversion H. lia.
  - apply IH in H. lia.
Qed.

(** X14. With two or more candidates, each of a block that carries its page
    number, and a model of the documented shape,
    levels follow the cluster centers: every level is ["H1"], ["H2"] or
    ["H3"]; of two candidates, the one whose cluster has the greater
    center gets the smaller level number, and candidates with equal
    centers (the same cluster, for one) get the same level. *)
Theorem greater_center_gets_higher_level KMeans_fit hc :
  (2 <= length hc)%nat ->
  let sizes := map f_font_size hc in
  let k := Nat.min (length (np_unique sizes)) 3 in
  let model := KMeans_fit k sizes in
  well_shaped model k (length hc) ->
  Forall has_page hc ->
  exists out,
    _assign_heading_levels KMeans_fit hc = Ok out /\
    forall i j ei ej ci cj,
      nth_error out i = Some ei -> nth_error out j = Some ej ->
      center_of model i = Some ci -> center_of model j = Some cj ->
      exists ni nj,
        level ei = fmt_level ni /\ level ej = fmt_level nj /\
        (1 <= ni <= 3)%nat /\
        (cj < ci -> (ni < nj)%nat) /\
        (ci == cj -> ni = nj).
Proof.
  intros Hlen sizes k model Hshape Hpages.
  destruct (@assign_levels_many KMeans_fit hc Hlen Hshape Hpages)
    as (Hk & out & Hout & Hall & _).
  fold sizes k model in Hall. exists out. split; [exact Hout|].
  assert (Hat : forall i e c,
             nth_error out i = Some e -> center_of model i = Some c ->
             level e = fmt_level (rank_desc (cluster_centers_ model) c) /\
             Exists (fun c' => c' == c) (cluster_centers_ model)).
  { intros i e c Hi Hc.
    destruct (Forall2_nth_error_r Hall _ Hi) as ([i' h] & Hih & lbl & c' & Hl & Hcen & Hlev & _).
    apply nth_error_combine_seq in Hih. simpl in Hih, Hl. subst i'.
    unfold center_of in Hc. rewrite Hl, Hcen in Hc. inversion Hc; subst c'.
    split; [exact Hlev|]. apply Exists_exists. exists c. split; [|reflexivity].
    eapply nth_error_In; eauto. }
  intros i j ei ej ci cj Hi Hj Hci Hcj.
  destruct (Hat i ei ci Hi Hci) as [Hli Hei]. destruct (Hat j ej cj Hj Hcj) as [Hlj Hej].
  exists (rank_desc (cluster_centers_ model) ci), (rank_desc (cluster_centers_ model) cj).
  split; [exact Hli|]. split; [exact Hlj|]. split.
  - pose proof (rank_desc_bounds Hei) as Hb. destruct Hshape as (Hc & _). lia.
  - split; [now apply rank_desc_lt | apply rank_desc_eq].
Qed.

(** The levels of sizes 18, 14 and 10 under the nearest-center clustering. *)
Lemma greater_center_gets_higher_level_witness :
  let hc := [sized "Part" 18 100; sized "Chapter" 14 200; sized "Section" 10 300] in
  let model := reference_fit 3 [18; 14; 10] in
  exists out,
    _assign_heading_levels reference_fit hc = Ok out /\
    forall i j ei ej ci cj,
      nth_error out i = Some ei -> nth_error out j = Some ej ->
      center_of model i = Some ci -> center_of model j = Some cj ->
      exists ni nj,
        level ei = fmt_level ni /\ level ej = fmt_level nj /\
        (1 <= ni <= 3)%nat /\
        (cj < ci -> (ni < nj)%nat) /\
        (ci == cj -> ni = nj).
Proof.
  apply (@greater_center_gets_higher_level reference_fit
           [sized "Part" 18 100; sized "Chapter" 14 200; sized "Section" 10 300]).
  - simpl. lia.
  - repeat apply conj; try reflexivity. simpl. repeat constructor.
  - repeat constructor; discriminate.
Defined.

Lemma mapM_raise {A B : Type} (f : A -> result B) (e : exn) l :
  (forall x, In x l -> (exists y, f x = Ok y) \/ f x = Raise e) ->
  (exists x, In x l /\ f x = Raise e) ->
  mapM f l = Raise e.
Proof.
  induction l as [|a l IH]; intros Hall (x & Hx & Hfx); [contradiction|].
  simpl. destruct (Hall a (or_introl eq_refl)) as [(y & Hy)|Ha].
  - rewrite Hy. simpl.
    rewrite IH; [reflexivity | intros z Hz; apply Hall; now right |].
    destruct Hx as [<-|Hx]; [congruence | eauto].
  - now rewrite Ha.
Qed.

Lemma In_enumerate {A : Type} (l : list A) x :
  In x l -> exists i, In (i, x) (enumerate l).
Proof.
  unfold enumerate. generalize 0%nat.
  induction l as [|y l IH]; intros a Hx; [contradiction|].
  destruct Hx as [->|Hx].
  - exists a. now left.
  - destruct (IH (S a) Hx) as (i & Hi). exists i. now right.
Qed.

Lemma pages_present_or_not (hc : list Features) :
  Forall has_page hc \/ Exists (fun h => page_num (original_block h) = None) hc.
Proof.
  induction hc as [|h hc [IH|IH]].
  - left. constructor.
  - destruct (page_num (original_block h)) eqn:E.
    + left. constructor; [unfold has_page; congruence | exact IH].
    + right. now left.
  - right. now right.
Qed.

(** A candidate whose block has no ["page_num"] makes level assignment
    raise. *)
Lemma candidate_without_page_raises KMeans_fit hc :
  let sizes := map f_font_size hc in
  let k := Nat.min (length (np_unique sizes)) 3 in
  ((2 <= length hc)%nat -> well_shaped (KMeans_fit k sizes) k (length hc)) ->
  Exists (fun h => page_num (original_block h) = None) hc ->
  _assign_heading_levels KMeans_fit hc = Raise (KeyError (s "page_num")).
Proof.
  intros sizes k Hshape Hex.
  destruct hc as [|h1 [|h2 hc]].
  - inversion Hex.
  - inversion Hex as [? ? Hp|? ? Hn]; subst; [|inversion Hn]. simpl. now rewrite Hp.
  - assert (Hlen : (2 <= length (h1 :: h2 :: hc))%nat) by (simpl; lia).
    specialize (Hshape Hlen). destruct Hshape as (Hc & Hl & Hlt).
    unfold _assign_heading_levels. fold sizes. fold k.
    assert (Hne : sizes <> []) by discriminate.
    pose proof (np_unique_count Hne) as Hcount.
    destruct (Nat.eqb_spec k 0) as [E|_]; [unfold k in E; lia|].
    set (model := KMeans_fit k sizes) in *.
    apply mapM_raise.
    + intros [i h] Hin. unfold leveled_entry, subscript.
      pose proof (enumerate_index _ _ _ Hin) as Hi.
      destruct (nth_error (labels_ model) i) as [lbl|] eqn:El.
      2:{ apply nth_error_None in El. lia. }
      assert (Hlbl : (lbl < k)%nat).
      { rewrite Forall_forall in Hlt. apply Hlt. eapply nth_error_In; eauto. }
      simpl. destruct (nth_error (cluster_centers_ model) lbl) as [c|] eqn:Ec.
      2:{ apply nth_error_None in Ec. lia. }
      simpl. destruct (page_num (original_block h)); simpl; eauto.
    + apply Exists_exists in Hex as (h & Hh & Hp).
      apply In_enumerate in Hh as (i & Hi).
      exists (i, h). split; [exact Hi|].
      * unfold leveled_entry, subscript.
        pose proof (enumerate_index _ _ _ Hi) as Hi'.
        destruct (nth_error (labels_ model) i) as [lbl|] eqn:El.
        2:{ apply nth_error_None in El. lia. }
        assert (Hlbl : (lbl < k)%nat).
        { rewrite Forall_forall in Hlt. apply Hlt. eapply nth_error_In; eauto. }
        simpl. destruct (nth_error (cluster_centers_ model) lbl) as [c|] eqn:Ec.
        2:{ apply nth_error_None in Ec. lia. }
        simpl. now rewrite Hp.
Qed.

(** X15. What [build] does, by the heading candidates that are left, when
    the fitted model has the documented shape.  If the block of some
    candidate has no ["page_num"], level assignment raises [KeyError] for
    that key.  Otherwise, with exactly one candidate the final sort raises
    [KeyError] for ["y_pos"], and with none or with two or more [build]
    returns.  So [build] returns exactly when every candidate's block has
    its page number and the candidates are not exactly one. *)
Theorem build_raises_exactly_on_one_candidate KMeans_fit pages :
  let hc := candidates_of pages in
  let sizes := map f_font_size hc in
  let k := Nat.min (length (np_unique sizes)) 3 in
  ((2 <= length hc)%nat -> well_shaped (KMeans_fit k sizes) k (length hc)) ->
  (Exists (fun h => page_num (original_block h) = None) hc ->
   build KMeans_fit pages = Raise (KeyError (s "page_num"))) /\
  (Forall has_page hc -> length hc = 1%nat ->
   build KMeans_fit pages = Raise (KeyError (s "y_pos"))) /\
  (Forall has_page hc /\ length hc <> 1%nat <-> exists r, build KMeans_fit pages = Ok r).
Proof.
  intros hc sizes k Hshape.
  assert (Hnone : Exists (fun h => page_num (original_block h) = None) hc ->
                  build KMeans_fit pages = Raise (KeyError (s "page_num"))).
  { intros Hex. destruct pages as [|page0 rest]; [inversion Hex|].
    unfold build. fold (core_of (page0 :: rest)). fold (page_width_of (page0 :: rest)).
    fold (extracted_title (page0 :: rest)). fold (candidates_of (page0 :: rest)).
    fold hc. now rewrite (@candidate_without_page_raises KMeans_fit hc Hshape Hex). }
  split; [exact Hnone|]. split; [|split].
  - intros Hpages Hone. destruct pages as [|page0 rest]; [discriminate Hone|].
    unfold hc in *.
    destruct (candidates_of (page0 :: rest)) as [|h [|h2 l]] eqn:E; try discriminate.
    apply (@single_candidate_raises KMeans_fit _ _ _ E). now inversion Hpages.
  - intros [Hpages Hne]. apply build_returns_unless_single. fold hc sizes k.
    destruct (Nat.eq_dec (length hc) 0) as [E0|E0].
    + left. now apply length_zero_iff_nil.
    + right. assert (H2 : (2 <= length hc)%nat) by lia.
      split; [exact H2 | split; [exact (Hshape H2) | exact Hpages]].
  - intros [r Hr]. split.
    + destruct (pages_present_or_not hc) as [Hp|Hex]; [exact Hp|].
      rewrite (Hnone Hex) in Hr. discriminate.
    + destruct pages as [|page0 rest]; [discriminate|].
      destruct (@build_Ok_spec _ _ _ Hr) as (_ & _ & _ & _ & _ & _ & Hne); [discriminate|].
      exact Hne.
Qed.

(** The one-candidate page raises for ["y_pos"], and a page whose two
    headings carry no page number raises for ["page_num"]. *)
Lemma build_raises_exactly_on_one_candidate_witness :
  build reference_fit single_heading_pages = Raise (KeyError (s "y_pos")) /\
  build reference_fit pageless_pages = Raise (KeyError (s "page_num")).
Proof.
  split.
  - destruct (@build_raises_exactly_on_one_candidate reference_fit single_heading_pages)
      as (_ & Hone & _).
    + intros H. vm_compute in H. lia.
    + apply Hone; [|vm_compute; reflexivity].
      assert (E : exists h, candidates_of single_heading_pages = [h] /\ has_page h).
      { eexists. split; [vm_compute; reflexivity | unfold has_page; simpl; discriminate]. }
      destruct E as (h & -> & Hp). now constructor.
  - destruct (@build_raises_exactly_on_one_candidate reference_fit pageless_pages)
      as (Hnone & _).
    + intros _. vm_compute. repeat apply conj; try reflexivity. repeat constructor.
    + apply Hnone.
      assert (E : exists h1 h2, candidates_of pageless_pages = [h1; h2] /\
                                page_num (original_block h1) = None).
      { eexists. eexists. split; [vm_compute; reflexivity | reflexivity]. }
      destruct E as (h1 & h2 & -> & Hp). now left.
Defined.

(** X16. When no block lies outside the header and footer zones (no page has
    blocks, or every block sits in a zone), [build] returns the title
    ["Untitled Document"] and an empty outline. *)
Theorem build_without_content_blocks KMeans_fit page0 rest :
  core_of (page0 :: rest) = [] ->
  build KMeans_fit (page0 :: rest)
  = Ok {| title := s "Untitled Document"; outline := [] |}.
Proof.
  unfold core_of, build. intros ->. reflexivity.
Qed.

(** A page with no key at all. *)
Lemma build_without_content_blocks_witness :
  build reference_fit [bare_page]
  = Ok {| title := s "Untitled Document"; outline := [] |}.
Proof.
  apply (@build_without_content_blocks reference_fit bare_page []). reflexivity.
Defined.

Lemma all_equal_unique xs s0 :
  xs <> [] -> Forall (fun x => x == s0) xs -> length (np_unique xs) = 1%nat.
Proof.
  intros Hne Hall. destruct (np_unique_distinct xs) as [Hnd Hin].
  pose proof (np_unique_count Hne) as [Hge _].
  assert (Hu : Forall (fun x => x == s0) (np_unique xs)).
  { apply Forall_forall. intros x Hx.
    assert (HA : InA Qeq x (np_unique xs)) by (apply InA_alt; exists x; split; [reflexivity | exact Hx]).
    apply Hin in HA. apply InA_alt in HA as (y & Hxy & Hy).
    rewrite Forall_forall in Hall. rewrite Hxy. now apply Hall. }
  destruct (np_unique xs) as [|a [|b u]]; [simpl in Hge; lia | reflexivity |].
  exfalso. inversion Hnd as [|? ? Hnot _]; subst. apply Hnot.
  inversion Hu as [|? ? Ha Hu']; subst. inversion Hu' as [|? ? Hb _]; subst.
  left. now rewrite Ha, Hb.
Qed.

(** X17. Two or more candidates that all have the same font size, each of a
    block that carries its page number, form one cluster, and each of them
    gets level ["H1"]. *)
Theorem equal_sizes_all_get_H1 KMeans_fit hc s0 :
  (2 <= length hc)%nat ->
  Forall (fun h => f_font_size h == s0) hc ->
  well_shaped (KMeans_fit 1%nat (map f_font_size hc)) 1 (length hc) ->
  Forall has_page hc ->
  exists out,
    _assign_heading_levels KMeans_fit hc = Ok out /\
    length out = length hc /\
    Forall (fun e => level e = s "H1") out.
Proof.
  intros Hlen Hall Hshape Hpages.
  assert (Hk : Nat.min (length (np_unique (map f_font_size hc))) 3 = 1%nat).
  { rewrite (@all_equal_unique (map f_font_size hc) s0); [reflexivity | |].
    - destruct hc; [simpl in Hlen; lia | discriminate].
    - now apply Forall_map. }
  pose proof (@assign_levels_many KMeans_fit hc Hlen) as H. cbv zeta in H.
  rewrite Hk in H. destruct (H Hshape Hpages) as (_ & out & Hout & Hlev & _).
  exists out. split; [exact Hout|]. split.
  - apply Forall2_length_eq in Hlev. rewrite <- Hlev. unfold enumerate.
    rewrite length_combine, length_seq. lia.
  - destruct Hshape as (Hc & _). clear Hout H.
    set (model := KMeans_fit 1%nat (map f_font_size hc)) in *. clearbody model.
    destruct model as [centers labels]. unfold leveled_as in Hlev. simpl in *.
    destruct centers as [|c0 [|c1 cs]]; try discriminate.
    induction Hlev as [|ih e l l' (lbl & c & _ & Hcen & Hl & _) _ IH]; [constructor|].
    constructor; [|exact IH].
    rewrite Hl. destruct lbl as [|lbl]; [|destruct lbl; discriminate].
    simpl in Hcen. inversion Hcen; subst c. unfold rank_desc. simpl.
    assert (E : Qle_bool c0 c0 = true) by (apply Qle_bool_iff; lra).
    rewrite E. reflexivity.
Qed.

(** Two candidates of size 12. *)
Lemma equal_sizes_all_get_H1_witness :
  exists out,
    _assign_heading_levels reference_fit [sized "One" 12 100; sized "Two" 12 200]
    = Ok out /\
    length out = 2%nat /\
    Forall (fun e => level e = s "H1") out.
Proof.
  apply (@equal_sizes_all_get_H1 reference_fit
           [sized "One" 12 100; sized "Two" 12 200] 12).
  - simpl. lia.
  - repeat constructor; reflexivity.
  - repeat apply conj; try reflexivity. simpl. repeat constructor.
  - repeat constructor; discriminate.
Defined.

(** X18. A block without the keys ["font_name"] and ["font_size"] counts as
    size 0 and not bold, so it is a heading candidate only through a
    numbered prefix. *)
Theorem fontless_block_needs_a_number (b : Block) (page_width : Q) :
  font_name b = None -> font_size b = None ->
  let f := _get_block_features b page_width in
  f_font_size f = 0 /\ is_bold f = false /\
  (_is_potential_heading f = true -> numbered_prefix (f_text f)).
Proof.
  intros Hname Hsize f. unfold f. simpl. rewrite Hname, Hsize. simpl.
  split; [reflexivity|]. split; [reflexivity|].
  intros H. apply potential_heading_passed in H as (_ & _ & Hsig).
  unfold has_heading_signal in Hsig. simpl in Hsig. rewrite Hname, Hsize in Hsig.
  simpl in Hsig. destruct Hsig as [H|[H|[H|[_ H]]]].
  - exfalso. revert H. apply Qle_not_lt. discriminate.
  - now apply match_numbered_prefix.
  - discriminate.
  - exfalso. revert H. apply Qle_not_lt. discriminate.
Qed.

(** A numbered block without font keys. *)
Lemma fontless_block_needs_a_number_witness :
  let f := _get_block_features fontless_block 595 in
  f_font_size f = 0 /\ is_bold f = false /\
  (_is_potential_heading f = true -> numbered_prefix (f_text f)).
Proof.
  apply (@fontless_block_needs_a_number fontless_block 595); reflexivity.
Defined.

End BuildFacts.

(* ===================================================================== *)
(** * The callers: [process_pdf] and [process_single_pdf] *)
(* ===================================================================== *)

Module PipelineFacts.
Import Py PdfProcessor HierarchyBuilder Pipeline OutlineSpec ExtraSpec.
Import PyFacts BlockAssembly GrouperFacts Build.
Local Open Scope py_scope.
Local Open Scope Q_scope.

Lemma group_blocks_page words pg blocks :
  _group_words_into_blocks words pg = Ok blocks ->
  Forall (fun b => page_num b = Some pg) blocks.
Proof.
  destruct words as [|w0 ws]; [intros H; inversion H; constructor|].
  intros H.
  destruct (@group_structure (w0 :: ws) pg) as (_ & groups & bs & _ & _ & _ & _ & _ & _ & Hmk & Hgrp);
    [discriminate|].
  rewrite Hgrp in H. inversion H; subst bs. apply mapM_Ok_Forall2 in Hmk.
  clear H Hgrp. induction Hmk as [|g b gs bs' Hgb _ IH]; constructor; [|exact IH].
  apply make_block_fields in Hgb as (_ & _ & _ & _ & _ & _ & _ & Hp). exact Hp.
Qed.

Lemma process_page_record ipage pg :
  process_page ipage = Some pg -> page_record ipage pg.
Proof.
  destruct ipage as [i page]. unfold process_page, page_record. simpl.
  destruct (extract_words page) as [words|]; [|discriminate].
  destruct (_group_words_into_blocks words (Z.of_nat i + 1)) as [blocks|e] eqn:E;
    [|discriminate].
  intros H. inversion H. exists words, blocks.
  repeat apply conj; auto. now apply group_blocks_page in E.
Qed.

Lemma process_pages_records ipages :
  forall out, process_pages ipages = Some out -> Forall2 page_record ipages out.
Proof.
  induction ipages as [|ip ipages IH]; simpl; intros out H.
  - inversion H. constructor.
  - destruct (process_page ip) as [pg|] eqn:Ep; [|discriminate].
    destruct (process_pages ipages) as [pgs|]; [|discriminate].
    inversion H; subst. constructor; [now apply process_page_record | now apply IH].
Qed.

Lemma process_pages_all_extracted ipages :
  Forall (fun ip => extract_words (snd ip) <> None) ipages ->
  exists out, process_pages ipages = Some out.
Proof.
  induction 1 as [|[i page] ipages Hx _ IH]; simpl; [eexists; reflexivity|].
  simpl in Hx. destruct (extract_words page) as [words|]; [|congruence].
  destruct (group_always_returns words (Z.of_nat i + 1)) as (blocks & ->).
  destruct IH as (out & ->). eexists; reflexivity.
Qed.

Lemma process_pages_one_failed ipages :
  Exists (fun ip => extract_words (snd ip) = None) ipages ->
  process_pages ipages = None.
Proof.
  induction 1 as [[i page] ipages Hx|ip ipages _ IH]; simpl.
  - simpl in Hx. now rewrite Hx.
  - destruct (process_page ip); [|reflexivity]. now rewrite IH.
Qed.

Lemma enumerate_snd {A : Type} (l : list A) : map snd (enumerate l) = l.
Proof. unfold enumerate. apply map_snd_combine. apply length_seq. Qed.

(** X19. [process_pdf] returns all pages or none.  When the PDF opens and the
    words of every page can be extracted, it returns one record per page,
    in order, numbered from 1, with the page's size and with blocks that
    all carry the page's number; the grouper never makes it fail.  When
    the PDF does not open, or the words of one page cannot be extracted,
    it returns the empty list, whatever the other pages gave. *)
Theorem process_pdf_returns_all_pages_or_none (opened : option (list PdfPage)) :
  (forall pages,
     opened = Some pages ->
     Forall (fun p => extract_words p <> None) pages ->
     Forall2 page_record (enumerate pages) (process_pdf opened)) /\
  ((opened = None \/
    exists pages, opened = Some pages /\
                  Exists (fun p => extract_words p = None) pages) ->
   process_pdf opened = []) /\
  (process_pdf opened = [] \/
   exists pages, opened = Some pages /\
                 Forall2 page_record (enumerate pages) (process_pdf opened)).
Proof.
  split; [|split].
  - intros pages -> Hall. unfold process_pdf.
    destruct (@process_pages_all_extracted (enumerate pages)) as (out & Hout).
    { apply Forall_forall. intros ip Hin. rewrite Forall_forall in Hall. apply Hall.
      rewrite <- (enumerate_snd pages). now apply in_map. }
    rewrite Hout. now apply process_pages_records.
  - intros [->|(pages & -> & Hex)]; [reflexivity|]. unfold process_pdf.
    rewrite process_pages_one_failed; [reflexivity|].
    apply Exists_exists in Hex as (pg & Hin & Hnone).
    rewrite <- (enumerate_snd pages) in Hin. apply in_map_iff in Hin as (ip & <- & Hin).
    apply Exists_exists. eauto.
  - destruct opened as [pages|]; [|now left]. unfold process_pdf.
    destruct (process_pages (enumerate pages)) as [out|] eqn:E; [|now left].
    right. exists pages. split; [reflexivity | now apply process_pages_records].
Qed.

(** The one-page PDF. *)
Lemma process_pdf_returns_all_pages_or_none_witness :
  exists pages,
    single_heading_pdf = Some pages /\
    Forall2 page_record (enumerate pages) (process_pdf single_heading_pdf).
Proof.
  eexists. split; [reflexivity|].
  apply (proj1 (process_pdf_returns_all_pages_or_none single_heading_pdf));
    [reflexivity|].
  repeat constructor; discriminate.
Defined.

Lemma process_single_pdf_cases KMeans_fit opened can_write :
  process_single_pdf KMeans_fit opened can_write = (false, None) \/
  exists r, process_single_pdf KMeans_fit opened can_write = (true, Some r) /\
            can_write = true /\ process_pdf opened <> [] /\
            build KMeans_fit (process_pdf opened) = Ok r.
Proof.
  unfold process_single_pdf.
  destruct (process_pdf opened) as [|page0 rest]; [now left|].
  destruct (build KMeans_fit (page0 :: rest)) as [r|e]; [|now left].
  destruct can_write; [|now left].
  right. exists r. repeat apply conj; try reflexivity. discriminate.
Qed.

(** X20. [process_single_pdf] reports success exactly when it dumped a result;
    a dumped result is what [build] returned on the extracted pages, which
    are then not empty; a PDF from which no page is extracted, and a PDF
    whose pages leave exactly one heading candidate, are reported as
    failed and nothing is dumped. *)
Theorem process_single_pdf_outcomes KMeans_fit opened can_write :
  let out := process_single_pdf KMeans_fit opened can_write in
  (fst out = true <-> exists r, snd out = Some r) /\
  (forall r, snd out = Some r ->
             can_write = true /\ process_pdf opened <> [] /\
             build KMeans_fit (process_pdf opened) = Ok r) /\
  (process_pdf opened = [] -> out = (false, None)) /\
  (length (candidates_of (process_pdf opened)) = 1%nat -> out = (false, None)).
Proof.
  intros out. unfold out.
  destruct (process_single_pdf_cases KMeans_fit opened can_write)
    as [E|(r & E & Hw & Hne & Hb)]; rewrite E; simpl.
  - split; [|split; [|split]]; try reflexivity.
    + split; [discriminate | intros [r Hr]; discriminate].
    + intros r Hr. discriminate.
  - split; [|split; [|split]].
    + split; [eauto | reflexivity].
    + intros r' Hr. inversion Hr; subst. auto.
    + intros Hnil. contradiction.
    + intros Hone. exfalso.
      destruct (process_pdf opened) as [|page0 rest]; [congruence|].
      destruct (candidates_of (page0 :: rest)) as [|h [|h2 l]] eqn:Ec; try discriminate.
      exact (@single_candidate_never_returns KMeans_fit _ _ _ _ Ec Hb).
Qed.

(** The one-page PDF leaves one candidate: it is reported as failed. *)
Lemma process_single_pdf_outcomes_witness :
  process_single_pdf reference_fit single_heading_pdf true = (false, None).
Proof.
  apply (proj2 (proj2 (proj2
           (process_single_pdf_outcomes reference_fit single_heading_pdf true)))).
  vm_compute; reflexivity.
Defined.

End PipelineFacts.
